(** * Infrared remote analyzer: the presentation layer and its decode pipeline

    A shallow embedding of the TypeScript sources of the
    vite-react-rust-wasm-project front end (IrDecordedFrame, IrSignal,
    IrControlCode, App, SerialConnectionEffect) and the properties the
    specification states about them.

    Conventions.  A JavaScript [number] that holds a count or a duration is
    an integer of [Z]; a [Uint8Array] is a [list Z] of its elements; a
    JavaScript string is a [string] of its UTF-8 bytes. *)

From Stdlib Require Import ZArith List Lia Ascii.
From Stdlib Require Import DecimalString HexadecimalString DecimalPos DecimalZ HexadecimalPos.
From stdpp Require Import base list strings gmap.
From Equations Require Import Equations.

Local Open Scope string_scope.
Local Open Scope list_scope.
Local Open Scope Z_scope.

(** ** JavaScript array primitives *)

Module Js.

(** The relative index of [Array.prototype.slice] and
    [TypedArray.prototype.slice]: a negative index counts from the end, and
    the result is clamped to [0, len]. *)
Definition relative_index (len i : Z) : Z :=
  if i <? 0 then Z.max (len + i) 0 else Z.min i len.

(** [xs.slice(start, end)] *)
Definition slice {A : Type} (xs : list A) (start end_ : Z) : list A :=
  let len := Z.of_nat (length xs) in
  let k := relative_index len start in
  let final := relative_index len end_ in
  take (Z.to_nat (final - k)) (drop (Z.to_nat k) xs).

(** [xs.slice(start)]: the end defaults to the length. *)
Definition slice_from {A : Type} (xs : list A) (start : Z) : list A :=
  slice xs start (Z.of_nat (length xs)).

(** [n.toString()] of an integer. *)
Definition Number_toString (n : Z) : string :=
  DecimalString.NilEmpty.string_of_int (Z.to_int n).

(** [n.toString(16)] of an integer. *)
Definition Number_toString16 (n : Z) : string :=
  HexadecimalString.NilEmpty.string_of_int (Z.to_hex_int n).

(** [s.padStart(target, pad)] for a one-character [pad]. *)
Fixpoint pad_chars (k : nat) (pad : ascii) (s : string) : string :=
  match k with
  | O => s
  | S k' => String pad (pad_chars k' pad s)
  end.

Definition padStart (target : nat) (pad : ascii) (s : string) : string :=
  pad_chars (target - String.length s) pad s.

End Js.

(** [MarkAndSpaceMicros] of types.ts. *)
Record MarkAndSpaceMicros := { mark : Z; space : Z }.

(** ** IrDecordedFrame: the decoded-frame table over bitstreams *)

Module IrDecordedFrame.


Abbreviation Uint8Array := (list Z).

(** The frame the view receives from the combined decoder: one key out of
    [Aeha], [Nec], [Sirc], [Unknown]. *)
Inductive DecordedInfraredRemoteFrame :=
| Aeha (bits : Uint8Array)
| Nec (bits : Uint8Array)
| Sirc (bits : Uint8Array)
| Unknown (frame : list MarkAndSpaceMicros).

Record IrFrameItem := { item_label : string; value : Uint8Array }.

Record IrFrameValue := { frame_label : string; items : list IrFrameItem }.

(** [to_octets]: the loop [for (let i = 0; i < bitstream.length; i += 8)]
    with its counter [i] and the array [output] it pushes to. *)
Equations? to_octets_loop (bitstream : Uint8Array) (i : Z) (output : list Uint8Array)
  : list Uint8Array by wf (Z.to_nat (Z.of_nat (length bitstream) - i)) lt :=
  to_octets_loop bitstream i output with Z_lt_dec i (Z.of_nat (length bitstream)) := {
    | left _ => to_octets_loop bitstream (i + 8) (output ++ [Js.slice bitstream i (i + 8)])
    | right _ => output
  }.
Proof. lia. Qed.

Definition to_octets (bitstream : Uint8Array) : list Uint8Array :=
  to_octets_loop bitstream 0 [].

(** [octets.map((x, index) => ...)] of the [Aeha] branch, [index] running
    from [index0]. *)
Fixpoint aeha_items (index0 : Z) (octets : list Uint8Array) : list IrFrameItem :=
  match octets with
  | [] => []
  | x :: rest =>
      {| item_label := "offset " +:+ Js.Number_toString (8 * index0); value := x |}
        :: aeha_items (index0 + 1) rest
  end.

(** [ir_frame_value] of the IrDecordedFrame that slices bitstreams; the final
    [throw new Error('unimplemented')] needs an object with none of the four
    keys, which the frame type has not. *)
Definition ir_frame_value (decorded_frame : DecordedInfraredRemoteFrame) : IrFrameValue :=
  match decorded_frame with
  | Aeha bits =>
      {| frame_label := "AEHA"; items := aeha_items 0 (to_octets bits) |}
  | Nec bits =>
      {| frame_label := "NEC";
         items :=
           [ {| item_label := "Address"; value := Js.slice bits 0 8 |};
             {| item_label := "(Logical Inverse) Address"; value := Js.slice bits 8 16 |};
             {| item_label := "Command"; value := Js.slice bits 16 24 |};
             {| item_label := "(Logical Inverse) Command"; value := Js.slice bits 24 32 |} ] |}
  | Sirc bits =>
      {| frame_label := "SIRC";
         items :=
           [ {| item_label := "command"; value := Js.slice bits 0 5 |};
             {| item_label := "address"; value := Js.slice_from bits 5 |} ] |}
  | Unknown _ =>
      {| frame_label := "UNKNOWN"; items := [] |}
  end.

(** The value of the item labelled [label], if any. *)
Definition item_named (label : string) (v : IrFrameValue) : option Uint8Array :=
  value <$> List.find (fun it => String.eqb (item_label it) label) (items v).

(** *** [to_hex_string] on array objects

    [reverse()] works in place, so whether the caller's array survives the
    call depends on which object is reversed.  Array objects live in a store
    indexed by reference; [slice()] allocates, [reverse()] overwrites. *)

Abbreviation Ref := nat.
Abbreviation Store := (gmap nat Uint8Array).

(** [xs.slice()]: a new array object with the same elements. *)
Definition Uint8Array_slice (xs : Ref) (h : Store) : option (Ref * Store) :=
  match h !! xs with
  | Some elems =>
      let r := fresh (dom h) in
      Some (r, <[r := Js.slice_from elems 0]> h)
  | None => None
  end.

(** [xs.reverse()]: reverses the object itself and returns it. *)
Definition Uint8Array_reverse (xs : Ref) (h : Store) : option (Ref * Store) :=
  match h !! xs with
  | Some elems => Some (xs, <[xs := reverse elems]> h)
  | None => None
  end.

(** [xs.reduce(f, init)] *)
Definition Uint8Array_reduce (f : Z -> Z -> Z) (init : Z) (xs : Ref) (h : Store) : option Z :=
  match h !! xs with
  | Some elems => Some (fold_left f elems init)
  | None => None
  end.

(** [to_hex_string]; [None] only for a reference that is not in the store. *)
Definition to_hex_string (msb_first : bool) (octets : Ref) (h : Store)
  : option (string * Store) :=
  let xs :=
    if msb_first then Some (octets, h)
    else
      match Uint8Array_slice octets h with
      | Some (copy, h1) => Uint8Array_reverse copy h1
      | None => None
      end in
  match xs with
  | Some (xs, h2) =>
      match Uint8Array_reduce (fun acc x => 2 * acc + x) 0 xs h2 with
      | Some n => Some (Js.padStart 2 "0" (Js.Number_toString16 n), h2)
      | None => None
      end
  | None => None
  end.

End IrDecordedFrame.

(** ** IrSignal: chart points and the mark/space table *)

Module IrSignal.

Record DatumForList :=
  { key : Z; seq_num : Z; start_time : Z; kinds : string; duration : Z }.

(** The variables [start], [output] and [sequencenumber] of
    [convert_for_list]. *)
Record ListLoop :=
  { start : Z; output : list DatumForList; sequencenumber : Z }.

(** One call of the [forEach] callback of [convert_for_list]. *)
Definition convert_for_list_body (st : ListLoop) (item : MarkAndSpaceMicros) : ListLoop :=
  let output1 :=
    output st ++ [ {| key := sequencenumber st; seq_num := sequencenumber st;
                      start_time := start st; kinds := "Mark"; duration := mark item |} ] in
  let start1 := start st + mark item in
  let sequencenumber1 := sequencenumber st + 1 in
  let output2 :=
    output1 ++ [ {| key := sequencenumber1; seq_num := sequencenumber1;
                    start_time := start1; kinds := "Space"; duration := space item |} ] in
  let start2 := start1 + space item in
  let sequencenumber2 := sequencenumber1 + 1 in
  {| start := start2; output := output2; sequencenumber := sequencenumber2 |}.

Definition convert_for_list (input : list MarkAndSpaceMicros) : list DatumForList :=
  output (fold_left convert_for_list_body input
            {| start := 0; output := []; sequencenumber := 1 |}).

Record DatumForGraph := { time : Z; bit : Z }.

(** One call of the [forEach] callback of [conv_ir_control_signal], on the
    variables [sum] and [output]. *)
Definition conv_ir_control_signal_body
    (st : Z * list DatumForGraph) (item : MarkAndSpaceMicros) : Z * list DatumForGraph :=
  let '(sum, out) := st in
  let sum1 := sum + mark item in
  let out1 := out ++ [ {| time := sum1; bit := 1 |} ] in
  let sum2 := sum1 + space item in
  let out2 := out1 ++ [ {| time := sum2; bit := 0 |} ] in
  (sum2, out2).

Definition conv_ir_control_signal (input : list MarkAndSpaceMicros) : list DatumForGraph :=
  let out := [] in
  if 1 <=? Z.of_nat (length input) then
    let sum := 0 in
    let out := out ++ [ {| time := sum; bit := 0 |} ] in
    snd (fold_left conv_ir_control_signal_body input (sum, out))
  else out.

(** The total duration of a signal: the sum of mark and space over all
    pairs. *)
Definition total_duration (input : list MarkAndSpaceMicros) : Z :=
  fold_right (fun item acc => mark item + space item + acc) 0 input.

(** The durations in the order the table lists them. *)
Definition durations (input : list MarkAndSpaceMicros) : list Z :=
  flat_map (fun item => [mark item; space item]) input.

Definition sum_list (xs : list Z) : Z := fold_right Z.add 0 xs.

(** The points one pass of the chart loop appends when it starts with the
    running total [sum]. *)
Fixpoint points_from (sum : Z) (input : list MarkAndSpaceMicros) : list DatumForGraph :=
  match input with
  | [] => []
  | item :: rest =>
      {| time := sum + mark item; bit := 1 |}
        :: {| time := sum + mark item + space item; bit := 0 |}
        :: points_from (sum + mark item + space item) rest
  end.

(** The rows one pass of the table loop appends when it starts at time
    [start] with the sequence number [seq]. *)
Fixpoint rows_from (start seq : Z) (input : list MarkAndSpaceMicros) : list DatumForList :=
  match input with
  | [] => []
  | item :: rest =>
      {| key := seq; seq_num := seq; start_time := start;
         kinds := "Mark"; duration := mark item |}
        :: {| key := seq + 1; seq_num := seq + 1; start_time := start + mark item;
              kinds := "Space"; duration := space item |}
        :: rows_from (start + mark item + space item) (seq + 1 + 1) rest
  end.

End IrSignal.

(** ** IrControlCode: the command cards *)

Module IrControlCode.

#[local] Set Warnings "-register-all".

(** The values the renderer can meet at run time.  TypeScript's types are
    erased, so [display_ir_code] works on whatever object the decoder hands
    over; [in], property access and [toString()] follow JavaScript. *)
Inductive JsValue :=
| JsUndefined
| JsString (s : string)
| JsNumber (n : Z)
| JsBoolean (b : bool)
| JsObject (props : list (string * JsValue))
| JsArray (elems : list JsValue).

Inductive JsError :=
| TypeError
| Error (message : string).

(** The completion of an expression: a value, or a thrown error. *)
Inductive Completion (A : Type) :=
| Normal (a : A)
| Throw (e : JsError).
Arguments Normal {A} a.
Arguments Throw {A} e.

Definition bind {A B : Type} (c : Completion A) (k : A -> Completion B) : Completion B :=
  match c with
  | Normal a => k a
  | Throw e => Throw e
  end.

Notation "'let!' x ':=' c 'in' k" := (bind c (fun x => k))
  (at level 10, x pattern, c at level 100, k at level 200).

Fixpoint own_property (key : string) (props : list (string * JsValue)) : option JsValue :=
  match props with
  | [] => None
  | (k, v) :: rest => if String.eqb k key then Some v else own_property key rest
  end.

(** [key in v], for the keys this component uses (none of them is inherited
    from a prototype): a [TypeError] on a primitive. *)
Definition has_property (key : string) (v : JsValue) : Completion bool :=
  match v with
  | JsObject props => Normal (match own_property key props with Some _ => true | None => false end)
  | JsArray _ => Normal false
  | _ => Throw TypeError
  end.

(** [v.key], for the same keys: a [TypeError] on [undefined], [undefined]
    where the property is missing. *)
Definition get (v : JsValue) (key : string) : Completion JsValue :=
  match v with
  | JsUndefined => Throw TypeError
  | JsObject props => Normal (default JsUndefined (own_property key props))
  | _ => Normal JsUndefined
  end.

(** The string conversion of a value. *)
Fixpoint ToString (v : JsValue) : string :=
  match v with
  | JsUndefined => "undefined"
  | JsString s => s
  | JsNumber n => Js.Number_toString n
  | JsBoolean b => if b then "true" else "false"
  | JsObject _ => "[object Object]"
  | JsArray elems =>
      String.concat ","
        (map (fun e => match e with JsUndefined => "" | _ => ToString e end) elems)
  end.

(** [v.toString()]: a [TypeError] on [undefined]. *)
Definition toString (v : JsValue) : Completion JsValue :=
  match v with
  | JsUndefined => Throw TypeError
  | _ => Normal (JsString (ToString v))
  end.

(** The truth value of [v] in a condition. *)
Definition truthy (v : JsValue) : bool :=
  match v with
  | JsUndefined => false
  | JsString s => negb (String.eqb s "")
  | JsNumber n => negb (n =? 0)
  | JsBoolean b => b
  | JsObject _ | JsArray _ => true
  end.

(** The interface [T] of [display_ir_code]. *)
Record T := { label : string; value : JsValue }.

(** The element [descriptions_item(key, label, value)] returns: a
    Descriptions.Item with a Statistic inside. *)
Record DescriptionsItem :=
  { item_key : string; item_label : string; statistic_value : JsValue }.

Definition descriptions_item (key label : string) (value : JsValue) : DescriptionsItem :=
  {| item_key := key; item_label := label; statistic_value := value |}.

(** [list.map((v) => descriptions_item(v.label, v.label, v.value))] *)
Definition render (entries : list T) : list DescriptionsItem :=
  map (fun v => descriptions_item (label v) (label v) (value v)) entries.

Definition on_off (v : JsValue) : JsValue :=
  JsString (if truthy v then "ON" else "OFF").

(** The only error of a key test, a property access or [toString()] is a
    type error. *)
Definition only_type_error {A : Type} (c : Completion A) : Prop :=
  forall e : JsError, c = Throw e -> e = TypeError.

(** [v.outer.inner] *)
Definition field (v : JsValue) (outer inner : string) : Completion JsValue :=
  let! o := get v outer in get o inner.

(** [v.outer.inner.toString()] *)
Definition field_toString (v : JsValue) (outer inner : string) : Completion JsValue :=
  let! x := field v outer inner in toString x.

(** [v.outer.inner ? "ON" : "OFF"] *)
Definition field_on_off (v : JsValue) (outer inner : string) : Completion JsValue :=
  let! x := field v outer inner in Normal (on_off x).

Definition display_ir_code (ir_code : JsValue) : Completion (list DescriptionsItem) :=
  let! is_sirc := has_property "Sirc" ir_code in
  if is_sirc then
    let! device := field ir_code "Sirc" "device" in
    let! command := field ir_code "Sirc" "command" in
    Normal (render
      [ {| label := "manufacturer"; value := JsString "ソニー" |};
        {| label := "device"; value := device |};
        {| label := "command"; value := command |} ])
  else
  let! is_panasonic := has_property "PanasonicHvac" ir_code in
  if is_panasonic then
    let! temperature := field_toString ir_code "PanasonicHvac" "temperature" in
    let! mode := field ir_code "PanasonicHvac" "mode" in
    let! switch := field_on_off ir_code "PanasonicHvac" "switch" in
    let! swing := field ir_code "PanasonicHvac" "swing" in
    let! fan := field ir_code "PanasonicHvac" "fan" in
    let! checksum := field_toString ir_code "PanasonicHvac" "checksum" in
    Normal (render
      [ {| label := "manufacturer"; value := JsString "パナソニック" |};
        {| label := "device"; value := JsString "エアコン" |};
        {| label := "温度"; value := temperature |};
        {| label := "モード"; value := mode |};
        {| label := "電源"; value := switch |};
        {| label := "swing"; value := swing |};
        {| label := "風量"; value := fan |};
        {| label := "チェックサム"; value := checksum |} ])
  else
  let! is_daikin := has_property "DaikinHvac" ir_code in
  if is_daikin then
    let! temperature := field_toString ir_code "DaikinHvac" "temperature" in
    let! mode := field ir_code "DaikinHvac" "mode" in
    let! on_timer := field_toString ir_code "DaikinHvac" "on_timer" in
    let! on_timer_duration_hour := field_toString ir_code "DaikinHvac" "on_timer_duration_hour" in
    let! off_timer := field_toString ir_code "DaikinHvac" "off_timer" in
    let! off_timer_duration_hour := field_toString ir_code "DaikinHvac" "off_timer_duration_hour" in
    let! switch := field_on_off ir_code "DaikinHvac" "switch" in
    let! swing := field ir_code "DaikinHvac" "swing" in
    let! fan := field ir_code "DaikinHvac" "fan" in
    let! checksum := field_toString ir_code "DaikinHvac" "checksum" in
    Normal (render
      [ {| label := "manufacturer"; value := JsString "ダイキン" |};
        {| label := "device"; value := JsString "エアコン" |};
        {| label := "温度"; value := temperature |};
        {| label := "モード"; value := mode |};
        {| label := "オンタイマー"; value := on_timer |};
        {| label := "オン継続時間"; value := on_timer_duration_hour |};
        {| label := "オフタイマー"; value := off_timer |};
        {| label := "オフ継続時間"; value := off_timer_duration_hour |};
        {| label := "電源"; value := switch |};
        {| label := "swing"; value := swing |};
        {| label := "風量"; value := fan |};
        {| label := "チェックサム"; value := checksum |} ])
  else
  let! is_hitachi := has_property "HitachiHvac" ir_code in
  if is_hitachi then
    let! temperature := field_toString ir_code "HitachiHvac" "temperature" in
    let! mode := field ir_code "HitachiHvac" "mode" in
    let! switch := field_on_off ir_code "HitachiHvac" "switch" in
    let! fan := field ir_code "HitachiHvac" "fan" in
    Normal (render
      [ {| label := "manufacturer"; value := JsString "日立" |};
        {| label := "device"; value := JsString "エアコン" |};
        {| label := "温度"; value := temperature |};
        {| label := "モード"; value := mode |};
        {| label := "電源"; value := switch |};
        {| label := "風量"; value := fan |} ])
  else
  let! is_mitsubishi := has_property "MitsubishiElectricHvac" ir_code in
  if is_mitsubishi then
    let! temperature := field_toString ir_code "MitsubishiElectricHvac" "temperature" in
    let! mode1 := field ir_code "MitsubishiElectricHvac" "mode1" in
    let! switch := field_on_off ir_code "MitsubishiElectricHvac" "switch" in
    let! checksum := field_toString ir_code "MitsubishiElectricHvac" "checksum" in
    Normal (render
      [ {| label := "manufacturer"; value := JsString "三菱電機" |};
        {| label := "device"; value := JsString "エアコン" |};
        {| label := "温度"; value := temperature |};
        {| label := "モード1"; value := mode1 |};
        {| label := "電源"; value := switch |};
        {| label := "チェックサム"; value := checksum |} ])
  else
  let! is_unknown := has_property "Unknown" ir_code in
  if is_unknown then
    Normal (render
      [ {| label := "manufacturer"; value := JsString "不明" |};
        {| label := "device"; value := JsString "不明" |} ])
  else
    Throw (Error "unimplemented").

(** [InfraredRemoteControlCode] of types.ts: the six tagged records. *)
Inductive InfraredRemoteControlCode :=
| Sirc (command device : string)
| PanasonicHvac (temperature : Z) (mode : string) (switch : bool)
    (swing fan profile : string) (checksum : Z)
| DaikinHvac (temperature : Z) (mode : string)
    (on_timer : bool) (on_timer_duration_hour : Z)
    (off_timer : bool) (off_timer_duration_hour : Z)
    (switch : bool) (swing fan : string) (checksum : Z)
| HitachiHvac (temperature : Z) (mode fan : string) (switch : bool)
| MitsubishiElectricHvac (temperature : Z) (mode1 : string) (switch : bool) (checksum : Z)
| Unknown (frames : list JsValue).

(** The tag of a control code: the one key of its object. *)
Definition tag (c : InfraredRemoteControlCode) : string :=
  match c with
  | Sirc _ _ => "Sirc"
  | PanasonicHvac _ _ _ _ _ _ _ => "PanasonicHvac"
  | DaikinHvac _ _ _ _ _ _ _ _ _ _ => "DaikinHvac"
  | HitachiHvac _ _ _ _ => "HitachiHvac"
  | MitsubishiElectricHvac _ _ _ _ => "MitsubishiElectricHvac"
  | Unknown _ => "Unknown"
  end.

(** The fields of a control code, as the properties of its record. *)
Definition fields (c : InfraredRemoteControlCode) : list (string * JsValue) :=
  match c with
  | Sirc command device =>
      [ ("command", JsString command); ("device", JsString device) ]
  | PanasonicHvac temperature mode switch swing fan profile checksum =>
      [ ("temperature", JsNumber temperature); ("mode", JsString mode);
        ("switch", JsBoolean switch); ("swing", JsString swing);
        ("fan", JsString fan); ("profile", JsString profile);
        ("checksum", JsNumber checksum) ]
  | DaikinHvac temperature mode on_timer on_timer_duration_hour
      off_timer off_timer_duration_hour switch swing fan checksum =>
      [ ("temperature", JsNumber temperature); ("mode", JsString mode);
        ("on_timer", JsBoolean on_timer);
        ("on_timer_duration_hour", JsNumber on_timer_duration_hour);
        ("off_timer", JsBoolean off_timer);
        ("off_timer_duration_hour", JsNumber off_timer_duration_hour);
        ("switch", JsBoolean switch); ("swing", JsString swing);
        ("fan", JsString fan); ("checksum", JsNumber checksum) ]
  | HitachiHvac temperature mode fan switch =>
      [ ("temperature", JsNumber temperature); ("mode", JsString mode);
        ("fan", JsString fan); ("switch", JsBoolean switch) ]
  | MitsubishiElectricHvac temperature mode1 switch checksum =>
      [ ("temperature", JsNumber temperature); ("mode1", JsString mode1);
        ("switch", JsBoolean switch); ("checksum", JsNumber checksum) ]
  | Unknown _ => []
  end.

(** The object a control code is at run time: one property, named by the
    tag, holding the record (for [Unknown], the array of frames). *)
Definition to_object (c : InfraredRemoteControlCode) : JsValue :=
  match c with
  | Unknown frames => JsObject [ (tag c, JsArray frames) ]
  | _ => JsObject [ (tag c, JsObject (fields c)) ]
  end.

(** The tag set of the output contract. *)
Definition tags : list string :=
  [ "Sirc"; "PanasonicHvac"; "DaikinHvac"; "HitachiHvac";
    "MitsubishiElectricHvac"; "Unknown" ].

End IrControlCode.

(** ** SerialConnectionEffect: ingestion of the serial receive text *)

Module SerialConnectionEffect.

Definition CR : ascii := "013"%char.
Definition LF : ascii := "010"%char.

(** [text.split(/\r?\n/)]: a line break is a line feed, or a carriage return
    directly followed by one. *)
Fixpoint split_lines (text : string) : list string :=
  match text with
  | EmptyString => [EmptyString]
  | String c rest =>
      let same_line :=
        match split_lines rest with
        | l :: ls => String c l :: ls
        | [] => [String c EmptyString]
        end in
      if Ascii.eqb c LF then EmptyString :: split_lines rest
      else if Ascii.eqb c CR then
        match rest with
        | String c' rest' =>
            if Ascii.eqb c' LF then EmptyString :: split_lines rest' else same_line
        | EmptyString => same_line
        end
      else same_line
  end.

Section Effect.

(** A parsed record, and [JSON.parse]: [None] where it throws. *)
Context {Json : Type}.
Variable JSON_parse : string -> option Json.

(** The atoms [rxJsonDataState] and [rxTextState]. *)
Record Atoms := { rxJsonData : list Json; rxText : string }.

(** The effect that runs on each change of [rxText]. *)
Definition rxText_effect (st : Atoms) : Atoms :=
  let lines := split_lines (rxText st) in
  let last := Js.slice_from lines (-2) !! 0%nat in
  match last with
  | Some last =>
      if negb (String.eqb last "") then
        match JSON_parse last with
        | Some rx_json =>
            {| rxJsonData := rxJsonData st ++ [rx_json]; rxText := "" |}
        | None => st
        end
      else st
  | None => st
  end.

End Effect.

Arguments Atoms Json : clear implicits.

(** The line before the last one, where there are two lines or more. *)
Definition second_to_last {A : Type} (xs : list A) : option A :=
  reverse xs !! 1%nat.

(** The line the effect passes on to [JSON.parse]: the line before the last
    one, or the whole text where it has no line break. *)
Definition considered_line (text : string) : string :=
  default text (second_to_last (split_lines text)).

(** The effect as the sentence "only the second-to-last line is considered"
    describes it: the line before the last one is parsed and ingested;
    without such a line, or where parsing throws, nothing changes. *)
Definition second_to_last_ingestion {Json : Type}
    (JSON_parse : string -> option Json) (st : Atoms Json) : Atoms Json :=
  match second_to_last (split_lines (rxText st)) with
  | Some line =>
      match JSON_parse line with
      | Some rx_json => {| rxJsonData := rxJsonData st ++ [rx_json]; rxText := "" |}
      | None => st
      end
  | None => st
  end.

(** A parser that accepts the text of the empty JSON object and nothing
    else: [JSON.parse] restricted to that text. *)
Definition parse_empty_object (text : string) : option unit :=
  if String.eqb text "{}" then Some tt else None.

End SerialConnectionEffect.

(** ** TimingParser: text to mark/space pairs *)

Module TimingParser.

Inductive ParseError := MalformedInput | OutOfRange.

(** The decimal digits. *)
Definition is_digit (c : ascii) : bool :=
  (48 <=? N_of_ascii c)%N && (N_of_ascii c <=? 57)%N.

Fixpoint all_digits (s : string) : bool :=
  match s with
  | EmptyString => true
  | String c rest => is_digit c && all_digits rest
  end.

Section Grammar.

(** The characters that separate two integers, and the upper bound on a
    duration in microseconds: the specification leaves both open. *)
Variable is_delimiter : ascii -> bool.
Variable upper_bound : Z.

Definition flush (token : string) : list string :=
  if String.eqb token "" then [] else [token].

(** Modelled from the spec: the tokens of a text of delimiter-separated
    integers (sections 4.1 and 6), as the maximal runs of characters that
    are not delimiters; [token] is the run read so far. *)
Fixpoint tokens (token : string) (text : string) : list string :=
  match text with
  | EmptyString => flush token
  | String c rest =>
      if is_delimiter c then flush token ++ tokens "" rest
      else tokens (token +:+ String c "") rest
  end.

(** Modelled from the spec: one token is a non-negative decimal integer
    within the bound; anything else is [MalformedInput], a larger value
    [OutOfRange] (section 4.1). *)
Definition duration_of_token (token : string) : ParseError + Z :=
  match DecimalString.NilEmpty.uint_of_string token with
  | None => inl MalformedInput
  | Some d =>
      let n := Z.of_uint d in
      if upper_bound <? n then inl OutOfRange else inr n
  end.

Fixpoint durations_of_tokens (toks : list string) : ParseError + list Z :=
  match toks with
  | [] => inr []
  | t :: rest =>
      match duration_of_token t with
      | inl e => inl e
      | inr n =>
          match durations_of_tokens rest with
          | inl e => inl e
          | inr ns => inr (n :: ns)
          end
      end
  end.

(** Modelled from the spec: alternating mark, space, mark, space, ...; an
    odd count of integers gives the last pair a zero space (section 4.1). *)
Fixpoint pairs_of_durations (ns : list Z) : list MarkAndSpaceMicros :=
  match ns with
  | m :: s :: rest => {| mark := m; space := s |} :: pairs_of_durations rest
  | [m] => [ {| mark := m; space := 0 |} ]
  | [] => []
  end.

(** Modelled from the spec: [wasm_parse_infrared_code], the TimingParser of
    the Rust crate [wasm], which is not among the sources.  Section 4.1:
    the input is a text of non-negative integers, alternating mark and
    space, separated by delimiters; the output is the sequence of pairs; an
    odd count of integers yields a final pair with a zero space; the parser
    fails with [MalformedInput] on a non-numeric token, on empty input and
    on a negative number (its sign is not a digit), and with [OutOfRange]
    on a duration above the upper bound. *)
Definition wasm_parse_infrared_code (text : string)
  : ParseError + list MarkAndSpaceMicros :=
  match tokens "" text with
  | [] => inl MalformedInput
  | toks =>
      match durations_of_tokens toks with
      | inl e => inl e
      | inr ns => inr (pairs_of_durations ns)
      end
  end.

(** Modelled from the spec: the text form of a pair sequence (section 8,
    [render]): its durations in decimal, mark then space, in order, with
    the delimiter [sep] between two of them. *)
Definition render (sep : ascii) (pairs : list MarkAndSpaceMicros) : string :=
  String.concat (String sep "")
    (map Js.Number_toString (flat_map (fun p => [mark p; space p]) pairs)).

End Grammar.

(** A concrete grammar: comma, blank and line feed separate; at most one
    second per duration. *)
Definition comma_or_blank (c : ascii) : bool :=
  Ascii.eqb c "," || Ascii.eqb c " " || Ascii.eqb c "010".

Definition one_second : Z := 1000000.

End TimingParser.

(** ** App: the four-phase decode pipeline as the component composes it *)

Module App.

Inductive AlertType := success | info | warning | error.

Record Alert := { type : AlertType; message : string }.

(** What a call into the wasm module throws: an [Error] object with its
    message, or a value that is not an instance of [Error]. *)
Inductive Thrown :=
| ErrorInstance (message : string)
| OtherValue.

Inductive Result (A : Type) :=
| Returns (a : A)
| Throws (t : Thrown).
Arguments Returns {A} a.
Arguments Throws {A} t.

(** An array held in the component state.  The dependency list of an effect
    compares arrays by identity, so an array carries the reference of its
    object next to its elements. *)
Record ArrayObject (A : Type) := { ref : nat; elems : list A }.
Arguments ref {A} a.
Arguments elems {A} a.

(** [xs.map((v) => f(v))] for an [f] that may throw: the first throw ends
    the map. *)
Fixpoint map_throwing {A B : Type} (f : A -> Result B) (xs : list A) : Result (list B) :=
  match xs with
  | [] => Returns []
  | x :: rest =>
      match f x with
      | Throws t => Throws t
      | Returns y =>
          match map_throwing f rest with
          | Throws t => Throws t
          | Returns ys => Returns (y :: ys)
          end
      end
  end.

Section Component.

(** The values of the wasm module that the component only passes on. *)
Context {DemodulatedFrame DecordedFrame ControlCode : Type}.

Abbreviation InfraredRemoteFrame := (list MarkAndSpaceMicros).

(** The five exports of the wasm module the component calls. *)
Variable wasm_parse_infrared_code : string -> Result (list MarkAndSpaceMicros).
Variable wasm_decode_phase1 : list MarkAndSpaceMicros -> Result (list InfraredRemoteFrame).
Variable wasm_decode_phase2 : InfraredRemoteFrame -> Result DemodulatedFrame.
Variable wasm_decode_phase3 : DemodulatedFrame -> Result DecordedFrame.
Variable wasm_decode_phase4 : list DecordedFrame -> Result (list ControlCode).

Record State :=
  { msb_first : bool;
    ir_mark_and_spaces : ArrayObject MarkAndSpaceMicros;
    ir_splitted_frames : ArrayObject InfraredRemoteFrame;
    ir_demodulated_frames : ArrayObject DemodulatedFrame;
    ir_decoded_frames : ArrayObject DecordedFrame;
    ir_control_codes : ArrayObject ControlCode;
    input_text : string;
    alert : Alert }.

(** [initState]; its five array literals are the objects 0 to 4. *)
Definition initState : State :=
  {| msb_first := false;
     ir_mark_and_spaces := {| ref := 0; elems := [] |};
     ir_splitted_frames := {| ref := 1; elems := [] |};
     ir_demodulated_frames := {| ref := 2; elems := [] |};
     ir_decoded_frames := {| ref := 3; elems := [] |};
     ir_control_codes := {| ref := 4; elems := [] |};
     input_text := "";
     alert := {| type := info; message := "入力してね。" |} |}.

(** The first reference that [initState] does not use. *)
Definition first_fresh : nat := 5.

(** [{ ...state, field: v }], field by field. *)
Definition with_ir_mark_and_spaces (v : ArrayObject MarkAndSpaceMicros) (st : State) : State :=
  {| msb_first := msb_first st; ir_mark_and_spaces := v;
     ir_splitted_frames := ir_splitted_frames st;
     ir_demodulated_frames := ir_demodulated_frames st;
     ir_decoded_frames := ir_decoded_frames st;
     ir_control_codes := ir_control_codes st;
     input_text := input_text st; alert := alert st |}.

Definition with_ir_splitted_frames (v : ArrayObject InfraredRemoteFrame) (st : State) : State :=
  {| msb_first := msb_first st; ir_mark_and_spaces := ir_mark_and_spaces st;
     ir_splitted_frames := v;
     ir_demodulated_frames := ir_demodulated_frames st;
     ir_decoded_frames := ir_decoded_frames st;
     ir_control_codes := ir_control_codes st;
     input_text := input_text st; alert := alert st |}.

Definition with_ir_demodulated_frames (v : ArrayObject DemodulatedFrame) (st : State) : State :=
  {| msb_first := msb_first st; ir_mark_and_spaces := ir_mark_and_spaces st;
     ir_splitted_frames := ir_splitted_frames st;
     ir_demodulated_frames := v;
     ir_decoded_frames := ir_decoded_frames st;
     ir_control_codes := ir_control_codes st;
     input_text := input_text st; alert := alert st |}.

Definition with_ir_decoded_frames (v : ArrayObject DecordedFrame) (st : State) : State :=
  {| msb_first := msb_first st; ir_mark_and_spaces := ir_mark_and_spaces st;
     ir_splitted_frames := ir_splitted_frames st;
     ir_demodulated_frames := ir_demodulated_frames st;
     ir_decoded_frames := v;
     ir_control_codes := ir_control_codes st;
     input_text := input_text st; alert := alert st |}.

Definition with_ir_control_codes (v : ArrayObject ControlCode) (st : State) : State :=
  {| msb_first := msb_first st; ir_mark_and_spaces := ir_mark_and_spaces st;
     ir_splitted_frames := ir_splitted_frames st;
     ir_demodulated_frames := ir_demodulated_frames st;
     ir_decoded_frames := ir_decoded_frames st;
     ir_control_codes := v;
     input_text := input_text st; alert := alert st |}.

Definition with_input_text (v : string) (st : State) : State :=
  {| msb_first := msb_first st; ir_mark_and_spaces := ir_mark_and_spaces st;
     ir_splitted_frames := ir_splitted_frames st;
     ir_demodulated_frames := ir_demodulated_frames st;
     ir_decoded_frames := ir_decoded_frames st;
     ir_control_codes := ir_control_codes st;
     input_text := v; alert := alert st |}.

Definition with_alert (v : Alert) (st : State) : State :=
  {| msb_first := msb_first st; ir_mark_and_spaces := ir_mark_and_spaces st;
     ir_splitted_frames := ir_splitted_frames st;
     ir_demodulated_frames := ir_demodulated_frames st;
     ir_decoded_frames := ir_decoded_frames st;
     ir_control_codes := ir_control_codes st;
     input_text := input_text st; alert := v |}.

Definition alert_success : Alert := {| type := success; message := "いいですね。" |}.
Definition alert_error (msg : string) : Alert := {| type := error; message := msg |}.

(** A call of [setState]: with a value, or with an updater that receives
    the pending state. *)
Inductive SetState :=
| SetValue (v : State)
| SetUpdater (f : State -> State).

(** An effect reads the rendered [state]; the array it creates is the
    object [fresh].  It returns the [setState] calls it made, or [None]
    where it rethrows what it caught. *)
Definition Effect := State -> nat -> option (list SetState).

(** The effect with the dependency [state.input_text]. *)
Definition effect_input_text : Effect := fun state fresh =>
  if String.eqb (input_text state) "" then Some [SetValue initState]
  else
    match wasm_parse_infrared_code (input_text state) with
    | Returns pairs =>
        Some [SetUpdater (fun st =>
                with_alert alert_success
                  (with_ir_mark_and_spaces {| ref := fresh; elems := pairs |} st))]
    | Throws (ErrorInstance msg) =>
        Some [SetUpdater (fun st => with_alert (alert_error msg) st)]
    | Throws OtherValue => None
    end.

(** The effect with the dependency [state.ir_mark_and_spaces]. *)
Definition effect_ir_mark_and_spaces : Effect := fun state fresh =>
  match elems (ir_mark_and_spaces state) with
  | [] =>
      Some [SetUpdater (fun st =>
              with_ir_splitted_frames {| ref := fresh; elems := [] |} st)]
  | _ =>
      match wasm_decode_phase1 (elems (ir_mark_and_spaces state)) with
      | Returns frames =>
          Some [SetUpdater (fun st =>
                  with_alert alert_success
                    (with_ir_splitted_frames {| ref := fresh; elems := frames |} st))]
      | Throws (ErrorInstance msg) =>
          Some [SetUpdater (fun st =>
                  with_alert (alert_error msg)
                    (with_ir_splitted_frames {| ref := fresh; elems := [] |} st))]
      | Throws OtherValue => None
      end
  end.

(** The effect with the dependency [state.ir_splitted_frames]. *)
Definition effect_ir_splitted_frames : Effect := fun state fresh =>
  match elems (ir_splitted_frames state) with
  | [] =>
      Some [SetUpdater (fun st =>
              with_ir_demodulated_frames {| ref := fresh; elems := [] |} st)]
  | _ =>
      match map_throwing wasm_decode_phase2 (elems (ir_splitted_frames state)) with
      | Returns frames =>
          Some [SetUpdater (fun st =>
                  with_alert alert_success
                    (with_ir_demodulated_frames {| ref := fresh; elems := frames |} st))]
      | Throws (ErrorInstance msg) =>
          Some [SetUpdater (fun st =>
                  with_alert (alert_error msg)
                    (with_ir_demodulated_frames {| ref := fresh; elems := [] |} st))]
      | Throws OtherValue => None
      end
  end.

(** The effect with the dependency [state.ir_demodulated_frames]. *)
Definition effect_ir_demodulated_frames : Effect := fun state fresh =>
  match elems (ir_demodulated_frames state) with
  | [] =>
      Some [SetUpdater (fun st =>
              with_ir_decoded_frames {| ref := fresh; elems := [] |} st)]
  | _ =>
      match map_throwing wasm_decode_phase3 (elems (ir_demodulated_frames state)) with
      | Returns frames =>
          Some [SetUpdater (fun st =>
                  with_alert alert_success
                    (with_ir_decoded_frames {| ref := fresh; elems := frames |} st))]
      | Throws (ErrorInstance msg) =>
          Some [SetUpdater (fun st =>
                  with_alert (alert_error msg)
                    (with_ir_decoded_frames {| ref := fresh; elems := [] |} st))]
      | Throws OtherValue => None
      end
  end.

(** The effect with the dependency [state.ir_decoded_frames]. *)
Definition effect_ir_decoded_frames : Effect := fun state fresh =>
  match elems (ir_decoded_frames state) with
  | [] =>
      Some [SetUpdater (fun st =>
              with_ir_control_codes {| ref := fresh; elems := [] |} st)]
  | _ =>
      match wasm_decode_phase4 (elems (ir_decoded_frames state)) with
      | Returns codes =>
          Some [SetUpdater (fun st =>
                  with_alert alert_success
                    (with_ir_control_codes {| ref := fresh; elems := codes |} st))]
      | Throws (ErrorInstance msg) =>
          Some [SetUpdater (fun st =>
                  with_alert (alert_error msg)
                    (with_ir_control_codes {| ref := fresh; elems := [] |} st))]
      | Throws OtherValue => None
      end
  end.

(** The queued [setState] calls, applied in order to the pending state. *)
Definition apply_setState (calls : list SetState) (state : State) : State :=
  fold_left (fun st call =>
               match call with
               | SetValue v => v
               | SetUpdater f => f st
               end) calls state.

(** [handleReset] and [handleParse], as the state they leave pending:
    both calls of [handleParse] are batched, and the second one is a value
    built from the rendered [state]. *)
Definition handleReset (state : State) : State :=
  apply_setState [SetValue initState] state.

Definition handleParse (state : State) (input_text : string) : State :=
  apply_setState [SetValue initState; SetValue (with_input_text input_text state)] state.

(** The effects in the order of the component, each with the test of its
    dependency against the previous render ([None] on mount). *)
Definition effects (prev : option State) (state : State) : list (bool * Effect) :=
  let changed {D : Type} (eq : D -> D -> bool) (dep : State -> D) :=
    match prev with
    | None => true
    | Some p => negb (eq (dep p) (dep state))
    end in
  [ (changed String.eqb input_text, effect_input_text);
    (changed Nat.eqb (fun s => ref (ir_mark_and_spaces s)), effect_ir_mark_and_spaces);
    (changed Nat.eqb (fun s => ref (ir_splitted_frames s)), effect_ir_splitted_frames);
    (changed Nat.eqb (fun s => ref (ir_demodulated_frames s)), effect_ir_demodulated_frames);
    (changed Nat.eqb (fun s => ref (ir_decoded_frames s)), effect_ir_decoded_frames) ].

(** The effects that are due after a render, run in order. *)
Fixpoint run_effects (effs : list (bool * Effect)) (state : State) (fresh : nat)
  : option (list SetState) :=
  match effs with
  | [] => Some []
  | (due, effect) :: rest =>
      if due then
        match effect state fresh with
        | None => None
        | Some calls =>
            match run_effects rest state (S fresh) with
            | None => None
            | Some more => Some (calls ++ more)
            end
        end
      else run_effects rest state (S fresh)
  end.

Inductive Outcome :=
| Settled (state : State) (fresh : nat)
| Crashed
| OutOfFuel.

(** Render, run the due effects, render again, until no effect is due. *)
Fixpoint settle (fuel : nat) (prev : option State) (state : State) (fresh : nat) : Outcome :=
  match fuel with
  | O => OutOfFuel
  | S fuel' =>
      let effs := effects prev state in
      if existsb fst effs then
        match run_effects effs state fresh with
        | None => Crashed
        | Some calls =>
            settle fuel' (Some state) (apply_setState calls state) (fresh + 5)
        end
      else Settled state fresh
  end.

(** A change of the input text cascades through at most five effects. *)
Definition rounds : nat := 8.

(** The component after its first render. *)
Definition mount : Outcome := settle rounds None initState first_fresh.

(** The user replaces the text of the input area. *)
Definition type_text (state : State) (fresh : nat) (text : string) : Outcome :=
  settle rounds (Some state) (handleParse state text) fresh.

(** The control codes the component shows after the texts were typed one
    after the other, starting from [state]. *)
Fixpoint session (state : State) (fresh : nat) (texts : list string) : Outcome :=
  match texts with
  | [] => Settled state fresh
  | text :: rest =>
      match type_text state fresh text with
      | Settled state' fresh' => session state' fresh' rest
      | other => other
      end
  end.

Definition shown_codes (o : Outcome) : option (list ControlCode) :=
  match o with
  | Settled state _ => Some (elems (ir_control_codes state))
  | _ => None
  end.

(** What an effect makes of its phase: nothing to do on an empty input, the
    value the phase returns, the empty array where the phase throws an
    [Error], and [None] where it throws anything else and the effect
    rethrows. *)
Definition caught {A B : Type} (phase : list A -> Result (list B)) (input : list A)
  : option (list B) :=
  match input with
  | [] => Some []
  | _ =>
      match phase input with
      | Returns output => Some output
      | Throws (ErrorInstance _) => Some []
      | Throws OtherValue => None
      end
  end.

(** The four phases after the parser, each as its effect applies it. *)
Definition decode (pairs : list MarkAndSpaceMicros) : option (list ControlCode) :=
  match caught wasm_decode_phase1 pairs with
  | None => None
  | Some frames =>
      match caught (map_throwing wasm_decode_phase2) frames with
      | None => None
      | Some demodulated =>
          match caught (map_throwing wasm_decode_phase3) demodulated with
          | None => None
          | Some decoded => caught wasm_decode_phase4 decoded
          end
      end
  end.

(** The component ends as [codes] says: settled and showing these control
    codes, or crashed by a rethrown value. *)
Definition ends_with (o : Outcome) (codes : option (list ControlCode)) : Prop :=
  match codes with
  | Some codes =>
      exists (state : State) (fresh : nat),
        o = Settled state fresh /\ elems (ir_control_codes state) = codes
  | None => o = Crashed
  end.

(** Every array of the state is an object older than [fresh]. *)
Definition older_than (fresh : nat) (state : State) : Prop :=
  (ref (ir_mark_and_spaces state) < fresh
   /\ ref (ir_splitted_frames state) < fresh
   /\ ref (ir_demodulated_frames state) < fresh
   /\ ref (ir_decoded_frames state) < fresh
   /\ ref (ir_control_codes state) < fresh)%nat.

(** The arrays an effect creates are the object it was given as fresh: its
    calls keep a state older than any later reference. *)
Definition allocates_fresh (effect : Effect) : Prop :=
  forall (state : State) (fresh : nat) (calls : list SetState),
    effect state fresh = Some calls ->
    forall (bound : nat) (st : State),
      (fresh < bound)%nat -> (first_fresh <= bound)%nat ->
      older_than bound st -> older_than bound (apply_setState calls st).

(** The component is mounted, then the texts are typed one after the
    other. *)
Definition run (texts : list string) : Outcome :=
  match mount with
  | Settled state fresh => session state fresh texts
  | other => other
  end.

End Component.

(** *** A wasm module for running the component

    The parser of section 4.1 of the specification with the comma grammar,
    its two failures thrown as [Error] objects, and the later phases as they
    behave where no protocol is recognised (section 7: every later stage is
    total and falls back to Unknown): one frame with all pairs, each frame
    passed on as it is, one control code holding the frames. *)

Definition demo_parse (text : string) : Result (list MarkAndSpaceMicros) :=
  match TimingParser.wasm_parse_infrared_code
          TimingParser.comma_or_blank TimingParser.one_second text with
  | inr pairs => Returns pairs
  | inl TimingParser.MalformedInput => Throws (ErrorInstance "MalformedInput")
  | inl TimingParser.OutOfRange => Throws (ErrorInstance "OutOfRange")
  end.

Definition demo_phase1 (pairs : list MarkAndSpaceMicros)
  : Result (list (list MarkAndSpaceMicros)) := Returns [pairs].

Definition demo_phase2 (frame : list MarkAndSpaceMicros)
  : Result (list MarkAndSpaceMicros) := Returns frame.

Definition demo_phase3 (frame : list MarkAndSpaceMicros)
  : Result (list MarkAndSpaceMicros) := Returns frame.

Definition demo_phase4 (frames : list (list MarkAndSpaceMicros))
  : Result (list (list (list MarkAndSpaceMicros))) := Returns [frames].

(** The component with this module: mounted, then the texts typed one
    after the other. *)
Definition demo_session (texts : list string) : Outcome :=
  run demo_parse demo_phase1 demo_phase2 demo_phase3 demo_phase4 texts.

(** The state and the next fresh reference the session ends with. *)
Definition demo_state (texts : list string) : State :=
  match demo_session texts with
  | Settled state _ => state
  | _ => initState
  end.

Definition demo_fresh (texts : list string) : nat :=
  match demo_session texts with
  | Settled _ fresh => fresh
  | _ => first_fresh
  end.

End App.

(** ** IrDecordedFrame: the code line and the reading of its hexadecimal texts *)

Module HexText.

Import IrDecordedFrame.

(** The text [to_hex_string] returns for an array with the elements
    [elems]: the reduction over the elements, MSB first as they stand or LSB
    first reversed, in hexadecimal, padded to two characters. *)
Definition hex_text (msb_first : bool) (elems : Uint8Array) : string :=
  Js.padStart 2 "0"
    (Js.Number_toString16
       (fold_left (fun acc x => 2 * acc + x)
          (if msb_first then elems else reverse elems) 0)).

(** The line of the component IrDecordedFrame that shows the code of a
    frame: [value.items.map(v => to_hex_string(props.msb_first, v.value))]. *)
Definition frame_code (msb_first : bool) (decorded_frame : DecordedInfraredRemoteFrame)
  : list string :=
  map (fun v => hex_text msb_first (value v)) (items (ir_frame_value decorded_frame)).

(** The number a list of binary digits denotes, most significant digit
    first. *)
Fixpoint binary_value (digits : list Z) : Z :=
  match digits with
  | [] => 0
  | d :: rest => d * 2 ^ Z.of_nat (length rest) + binary_value rest
  end.

(** The number a text of hexadecimal digits denotes ([parseInt(text, 16)] on
    such a text); [None] for a text with another character. *)
Definition read_hex (text : string) : option Z :=
  Z.of_hex_uint <$> HexadecimalString.NilEmpty.uint_of_string text.

(** A bit: 0 or 1. *)
Definition is_bit (x : Z) : Prop := x = 0 \/ x = 1.

End HexText.

(** ** SerialConnectionEffect: the receive loop in front of the ingestion *)

Module SerialReceive.

Import SerialConnectionEffect.

(** A text without carriage return and without line feed. *)
Fixpoint no_line_break (text : string) : bool :=
  match text with
  | EmptyString => true
  | String c rest =>
      negb (Ascii.eqb c LF) && negb (Ascii.eqb c CR) && no_line_break rest
  end.

(** The line breaks a device may send. *)
Definition line_feed : string := String LF "".
Definition carriage_return_line_feed : string := String CR (String LF "").

(** Lines sent one after the other with [break] between them. *)
Definition unlines (break : string) (lines : list string) : string :=
  String.concat break lines.

Section Receive.

Context {Json : Type}.
Variable JSON_parse : string -> option Json.

(** [setRxText((prev) => prev + text)] *)
Definition append_text (text : string) (st : Atoms Json) : Atoms Json :=
  {| rxJsonData := rxJsonData st; rxText := rxText st +:+ text |}.

(** One round of [handleReceiveSerialPort] with what [readSerialPort]
    resolved to ([None] for [undefined], when the reader is done): the text
    is appended to [rxText]; the effect on [rxText] runs if that changed
    [rxText], and once more if the effect itself changed it. *)
Definition receive (text : option string) (st : Atoms Json) : Atoms Json :=
  match text with
  | None => st
  | Some text =>
      let st1 := append_text text st in
      if String.eqb (rxText st) (rxText st1) then st1
      else
        let st2 := rxText_effect JSON_parse st1 in
        if String.eqb (rxText st1) (rxText st2) then st2
        else rxText_effect JSON_parse st2
  end.

(** The rounds of the receive loop for the texts read one after the other. *)
Definition receive_all (texts : list string) (st : Atoms Json) : Atoms Json :=
  fold_left (fun st text => receive (Some text) st) texts st.

End Receive.

End SerialReceive.

(** ** IrControlCode: the card with one frame per control code *)

Module IrControlCodeCard.

Import IrControlCode.

(** The element [display_remocon_code] returns: a [Space] keyed by its
    title, with the title and the items of [display_ir_code] inside. *)
Record Frame :=
  { frame_key : string; frame_title : string; frame_items : list DescriptionsItem }.

Definition display_remocon_code (index : Z) (ir_code : JsValue) : Completion Frame :=
  let title := "Frame# " +:+ Js.Number_toString (1 + index) in
  let! rendering := display_ir_code ir_code in
  Normal {| frame_key := title; frame_title := title; frame_items := rendering |}.

(** [xs.map((v, idx) => f(idx, v))], from the index [idx] on, for an [f]
    that may throw: the first throw ends the map. *)
Fixpoint map_indexed {A B : Type}
    (f : Z -> A -> Completion B) (idx : Z) (xs : list A) : Completion (list B) :=
  match xs with
  | [] => Normal []
  | x :: rest =>
      let! y := f idx x in
      let! ys := map_indexed f (idx + 1) rest in
      Normal (y :: ys)
  end.

(** What the card holds: the placeholder image, or the frames. *)
Inductive CardBody :=
| EmptyImage
| Frames (frames : list Frame).

(** The component [IrControlCode]. *)
Definition IrControlCode (ir_control_codes : list JsValue) : Completion CardBody :=
  if (length ir_control_codes =? 0)%nat then Normal EmptyImage
  else
    let! frames := map_indexed (fun idx v => display_remocon_code idx v) 0 ir_control_codes in
    Normal (Frames frames).

(** The title of the frame at position [k]. *)
Definition frame_number (k : nat) : string :=
  "Frame# " +:+ Js.Number_toString (1 + Z.of_nat k).

End IrControlCodeCard.

(** ** App, second version: parser, decoder of the received data, decoder of the frames *)

Module AppCombined.

Import App.

Section Component.

(** The values of the wasm module that the component only passes on. *)
Context {DecordedFrame ControlCode : Type}.

(** The three exports of the wasm module the component calls. *)
Variable wasm_parse_infrared_code : string -> Result (list MarkAndSpaceMicros).
Variable wasm_decord_receiving_data : list MarkAndSpaceMicros -> Result (list DecordedFrame).
Variable wasm_decord_ir_frames : list DecordedFrame -> Result (list ControlCode).

Record State :=
  { msb_first : bool;
    ir_mark_and_spaces : ArrayObject MarkAndSpaceMicros;
    ir_decoded_frames : ArrayObject DecordedFrame;
    ir_control_codes : ArrayObject ControlCode;
    input_text : string;
    alert : Alert }.

(** [initState]; its three array literals are the objects 0 to 2. *)
Definition initState : State :=
  {| msb_first := false;
     ir_mark_and_spaces := {| ref := 0; elems := [] |};
     ir_decoded_frames := {| ref := 1; elems := [] |};
     ir_control_codes := {| ref := 2; elems := [] |};
     input_text := "";
     alert := {| type := info; message := "入力してね。" |} |}.

(** The first reference that [initState] does not use. *)
Definition first_fresh : nat := 3.

(** [{ ...state, field: v }], field by field. *)
Definition with_ir_mark_and_spaces (v : ArrayObject MarkAndSpaceMicros) (st : State) : State :=
  {| msb_first := msb_first st; ir_mark_and_spaces := v;
     ir_decoded_frames := ir_decoded_frames st;
     ir_control_codes := ir_control_codes st;
     input_text := input_text st; alert := alert st |}.

Definition with_ir_decoded_frames (v : ArrayObject DecordedFrame) (st : State) : State :=
  {| msb_first := msb_first st; ir_mark_and_spaces := ir_mark_and_spaces st;
     ir_decoded_frames := v;
     ir_control_codes := ir_control_codes st;
     input_text := input_text st; alert := alert st |}.

Definition with_ir_control_codes (v : ArrayObject ControlCode) (st : State) : State :=
  {| msb_first := msb_first st; ir_mark_and_spaces := ir_mark_and_spaces st;
     ir_decoded_frames := ir_decoded_frames st;
     ir_control_codes := v;
     input_text := input_text st; alert := alert st |}.

Definition with_input_text (v : string) (st : State) : State :=
  {| msb_first := msb_first st; ir_mark_and_spaces := ir_mark_and_spaces st;
     ir_decoded_frames := ir_decoded_frames st;
     ir_control_codes := ir_control_codes st;
     input_text := v; alert := alert st |}.

Definition with_alert (v : Alert) (st : State) : State :=
  {| msb_first := msb_first st; ir_mark_and_spaces := ir_mark_and_spaces st;
     ir_decoded_frames := ir_decoded_frames st;
     ir_control_codes := ir_control_codes st;
     input_text := input_text st; alert := v |}.

(** A call of [setState]: with a value, or with an updater that receives
    the pending state. *)
Inductive SetState :=
| SetValue (v : State)
| SetUpdater (f : State -> State).

(** An effect reads the rendered [state]; the array it creates is the
    object [fresh].  It returns the [setState] calls it made, or [None]
    where it rethrows what it caught. *)
Definition Effect := State -> nat -> option (list SetState).

(** The effect with the dependency [state.input_text]. *)
Definition effect_input_text : Effect := fun state fresh =>
  if negb (String.length (input_text state) =? 0)%nat then
    match wasm_parse_infrared_code (input_text state) with
    | Returns pairs =>
        Some [SetUpdater (fun st =>
                with_alert alert_success
                  (with_ir_mark_and_spaces {| ref := fresh; elems := pairs |} st))]
    | Throws (ErrorInstance msg) =>
        Some [SetUpdater (fun st =>
                with_alert (alert_error msg)
                  (with_ir_mark_and_spaces {| ref := fresh; elems := [] |} st))]
    | Throws OtherValue => None
    end
  else
    Some [SetUpdater (fun st =>
            with_ir_mark_and_spaces {| ref := fresh; elems := [] |} st)].

(** The effect with the dependency [state.ir_mark_and_spaces]. *)
Definition effect_ir_mark_and_spaces : Effect := fun state fresh =>
  if negb (length (elems (ir_mark_and_spaces state)) =? 0)%nat then
    match wasm_decord_receiving_data (elems (ir_mark_and_spaces state)) with
    | Returns frames =>
        Some [SetUpdater (fun st =>
                with_alert alert_success
                  (with_ir_decoded_frames {| ref := fresh; elems := frames |} st))]
    | Throws (ErrorInstance msg) =>
        Some [SetUpdater (fun st =>
                with_alert (alert_error msg)
                  (with_ir_decoded_frames {| ref := fresh; elems := [] |} st))]
    | Throws OtherValue => None
    end
  else
    Some [SetUpdater (fun st =>
            with_ir_decoded_frames {| ref := fresh; elems := [] |} st)].

(** The effect with the dependency [state.ir_decoded_frames]. *)
Definition effect_ir_decoded_frames : Effect := fun state fresh =>
  if negb (length (elems (ir_decoded_frames state)) =? 0)%nat then
    match wasm_decord_ir_frames (elems (ir_decoded_frames state)) with
    | Returns codes =>
        Some [SetUpdater (fun st =>
                with_alert alert_success
                  (with_ir_control_codes {| ref := fresh; elems := codes |} st))]
    | Throws (ErrorInstance msg) =>
        Some [SetUpdater (fun st =>
                with_alert (alert_error msg)
                  (with_ir_control_codes {| ref := fresh; elems := [] |} st))]
    | Throws OtherValue => None
    end
  else
    Some [SetUpdater (fun st =>
            with_ir_control_codes {| ref := fresh; elems := [] |} st)].

(** The queued [setState] calls, applied in order to the pending state. *)
Definition apply_setState (calls : list SetState) (state : State) : State :=
  fold_left (fun st call =>
               match call with
               | SetValue v => v
               | SetUpdater f => f st
               end) calls state.

(** [handleReset] and [handleParse], as the state they leave pending; the
    value [handleParse] sets is built from the rendered [state]. *)
Definition handleReset (state : State) : State :=
  apply_setState [SetValue initState] state.

Definition handleParse (state : State) (input_text : string) : State :=
  if negb (String.eqb input_text "") then
    apply_setState [SetValue (with_input_text input_text state)] state
  else handleReset state.

(** The effects in the order of the component, each with the test of its
    dependency against the previous render ([None] on mount). *)
Definition effects (prev : option State) (state : State) : list (bool * Effect) :=
  let changed {D : Type} (eq : D -> D -> bool) (dep : State -> D) :=
    match prev with
    | None => true
    | Some p => negb (eq (dep p) (dep state))
    end in
  [ (changed String.eqb input_text, effect_input_text);
    (changed Nat.eqb (fun s => ref (ir_mark_and_spaces s)), effect_ir_mark_and_spaces);
    (changed Nat.eqb (fun s => ref (ir_decoded_frames s)), effect_ir_decoded_frames) ].

(** The effects that are due after a render, run in order. *)
Fixpoint run_effects (effs : list (bool * Effect)) (state : State) (fresh : nat)
  : option (list SetState) :=
  match effs with
  | [] => Some []
  | (due, effect) :: rest =>
      if due then
        match effect state fresh with
        | None => None
        | Some calls =>
            match run_effects rest state (S fresh) with
            | None => None
            | Some more => Some (calls ++ more)
            end
        end
      else run_effects rest state (S fresh)
  end.

Inductive Outcome :=
| Settled (state : State) (fresh : nat)
| Crashed
| OutOfFuel.

(** Render, run the due effects, render again, until no effect is due. *)
Fixpoint settle (fuel : nat) (prev : option State) (state : State) (fresh : nat) : Outcome :=
  match fuel with
  | O => OutOfFuel
  | S fuel' =>
      let effs := effects prev state in
      if existsb fst effs then
        match run_effects effs state fresh with
        | None => Crashed
        | Some calls =>
            settle fuel' (Some state) (apply_setState calls state) (fresh + 3)
        end
      else Settled state fresh
  end.

(** A change of the input text cascades through at most three effects. *)
Definition rounds : nat := 6.

(** The component after its first render. *)
Definition mount : Outcome := settle rounds None initState first_fresh.

(** The user replaces the text of the input area. *)
Definition type_text (state : State) (fresh : nat) (text : string) : Outcome :=
  settle rounds (Some state) (handleParse state text) fresh.

(** The user presses Reset. *)
Definition press_reset (state : State) (fresh : nat) : Outcome :=
  settle rounds (Some state) (handleReset state) fresh.

(** The texts typed one after the other, starting from [state]. *)
Fixpoint session (state : State) (fresh : nat) (texts : list string) : Outcome :=
  match texts with
  | [] => Settled state fresh
  | text :: rest =>
      match type_text state fresh text with
      | Settled state' fresh' => session state' fresh' rest
      | other => other
      end
  end.

(** The component is mounted, then the texts are typed one after the
    other. *)
Definition run (texts : list string) : Outcome :=
  match mount with
  | Settled state fresh => session state fresh texts
  | other => other
  end.

(** What the first effect makes of a text that is not empty: the parsed
    pairs, no pair where the parser throws an [Error], and [None] where it
    throws anything else and the effect rethrows. *)
Definition parsed (text : string) : option (list MarkAndSpaceMicros) :=
  match wasm_parse_infrared_code text with
  | Returns pairs => Some pairs
  | Throws (ErrorInstance _) => Some []
  | Throws OtherValue => None
  end.

(** The decoder of the received data, as its effect applies it. *)
Definition decoded (pairs : list MarkAndSpaceMicros) : option (list DecordedFrame) :=
  caught wasm_decord_receiving_data pairs.

(** What the component shows: the text of the input area, the pairs in
    the signal card, the decoded frames, the control codes. *)
Record Display :=
  { shown_text : string;
    shown_pairs : list MarkAndSpaceMicros;
    shown_frames : list DecordedFrame;
    shown_codes : list ControlCode }.

Definition display_of (state : State) : Display :=
  {| shown_text := input_text state;
     shown_pairs := elems (ir_mark_and_spaces state);
     shown_frames := elems (ir_decoded_frames state);
     shown_codes := elems (ir_control_codes state) |}.

(** The display with nothing in it. *)
Definition blank_display : Display :=
  {| shown_text := ""; shown_pairs := []; shown_frames := []; shown_codes := [] |}.

(** The display the decoders lead to from the pairs of [text], each as its
    effect applies it; [None] where one of them throws a value that is not
    an [Error]. *)
Definition display_from (text : string) (pairs : list MarkAndSpaceMicros) : option Display :=
  match decoded pairs with
  | None => None
  | Some frames =>
      match caught wasm_decord_ir_frames frames with
      | None => None
      | Some codes =>
          Some {| shown_text := text; shown_pairs := pairs;
                  shown_frames := frames; shown_codes := codes |}
      end
  end.

(** The display a text leads to: nothing for the empty text, else what the
    decoders make of its pairs. *)
Definition display_for (text : string) : option Display :=
  if String.eqb text "" then Some blank_display
  else
    match parsed text with
    | None => None
    | Some pairs => display_from text pairs
    end.

(** The effects that are due after a render. *)
Definition due (prev : option State) (state : State) : list bool :=
  map fst (effects prev state).

(** A state with nothing in it: no text, and no element in any array. *)
Definition blank (state : State) : Prop :=
  input_text state = ""
  /\ elems (ir_mark_and_spaces state) = []
  /\ elems (ir_decoded_frames state) = []
  /\ elems (ir_control_codes state) = [].

(** The component ends as [display] says: settled and showing it, or
    crashed by a rethrown value. *)
Definition ends_with (o : Outcome) (display : option Display) : Prop :=
  match display with
  | Some display =>
      exists (state : State) (fresh : nat),
        o = Settled state fresh /\ display_of state = display
  | None => o = Crashed
  end.

(** Every array of the state is an object older than [fresh]. *)
Definition older_than (fresh : nat) (state : State) : Prop :=
  (ref (ir_mark_and_spaces state) < fresh
   /\ ref (ir_decoded_frames state) < fresh
   /\ ref (ir_control_codes state) < fresh)%nat.

(** The arrays an effect creates are the object it was given as fresh: its
    calls keep a state older than any later reference. *)
Definition allocates_fresh (effect : Effect) : Prop :=
  forall (state : State) (fresh : nat) (calls : list SetState),
    effect state fresh = Some calls ->
    forall (bound : nat) (st : State),
      (fresh < bound)%nat -> (first_fresh <= bound)%nat ->
      older_than bound st -> older_than bound (apply_setState calls st).

(** A state whose display came from its text, with arrays older than
    [fresh]. *)
Definition consistent (state : State) (fresh : nat) : Prop :=
  (first_fresh <= fresh)%nat
  /\ older_than fresh state
  /\ display_for (input_text state) = Some (display_of state).

End Component.

(** The component with the wasm module of the examples: the parser with
    the comma grammar, one frame holding all pairs, one control code
    holding the frames. *)
Definition demo_decord_receiving_data (pairs : list MarkAndSpaceMicros)
  : Result (list (list MarkAndSpaceMicros)) := Returns [pairs].

Definition demo_decord_ir_frames (frames : list (list MarkAndSpaceMicros))
  : Result (list (list (list MarkAndSpaceMicros))) := Returns [frames].

Definition demo_session (texts : list string) : Outcome :=
  run demo_parse demo_decord_receiving_data demo_decord_ir_frames texts.

Definition demo_state (texts : list string) : State :=
  match demo_session texts with
  | Settled state _ => state
  | _ => initState
  end.

Definition demo_fresh (texts : list string) : nat :=
  match demo_session texts with
  | Settled _ fresh => fresh
  | _ => first_fresh
  end.

End AppCombined.

(** ** IrBitStream: the bitstream of a demodulated frame as text *)

Module IrBitStream.

Abbreviation Uint8Array := (list Z).

(** [InfraredRemoteDemodulatedFrame] of types.ts. *)
Inductive InfraredRemoteDemodulatedFrame :=
| Aeha (bits : Uint8Array)
| Nec (bits : Uint8Array)
| Sirc (bits : Uint8Array)
| Unknown (frame : list MarkAndSpaceMicros).

(** [xs.join('')] *)
Definition join (xs : Uint8Array) : string :=
  String.concat "" (map Js.Number_toString xs).

(** The element [display_bitstream] returns: a [Descriptions] with its
    title and one item, with the key, the label and the text of the item. *)
Record Bitstream :=
  { title : string; key : string; label : string; text : string }.

Definition display_bitstream (bitstream : Uint8Array) (index : Z) : Bitstream :=
  {| title := "Frame# " +:+ Js.Number_toString (1 + index);
     key := join bitstream;
     label := "Bitstream " +:+ Js.Number_toString (Z.of_nat (length bitstream))
              +:+ " bits(with stop bit)";
     text := join bitstream |}.

(** The bitstream the component takes from the frame. *)
Definition bitstream_of (demodulated_frame : InfraredRemoteDemodulatedFrame) : Uint8Array :=
  match demodulated_frame with
  | Aeha bits => bits
  | Nec bits => bits
  | Sirc bits => bits
  | Unknown _ => []
  end.

(** The component [IrBitStream]. *)
Definition IrBitStream (ir_demodulated_frame : InfraredRemoteDemodulatedFrame) (index : Z)
  : Bitstream :=
  display_bitstream (bitstream_of ir_demodulated_frame) index.

(** Reading a text of the characters 0 and 1 as bits. *)
Fixpoint read_bits (text : string) : option (list Z) :=
  match text with
  | EmptyString => Some []
  | String c rest =>
      match read_bits rest with
      | None => None
      | Some bits =>
          if Ascii.eqb c "0" then Some (0 :: bits)
          else if Ascii.eqb c "1" then Some (1 :: bits)
          else None
      end
  end.

End IrBitStream.

(** ** InfraredRemoteAnalyzer: the column of the raw data *)

Module RawDataColumn.

(** [data.toString()] of an array of numbers. *)
Definition Array_toString (data : list Z) : string :=
  String.concat "," (map Js.Number_toString data).

(** The [render] of the column rawData. *)
Definition render (data : list Z) : string :=
  let original := Array_toString data in
  let cropped := String.substring 0 200 original in
  if (String.length original =? String.length cropped)%nat then original
  else cropped +:+ " ....".

End RawDataColumn.

(** ** App, first version: the Reset button and the emptied input area *)

Module AppReset.

Import App.

Section Component.

Context {DemodulatedFrame DecordedFrame ControlCode : Type}.

Variable wasm_parse_infrared_code : string -> Result (list MarkAndSpaceMicros).
Variable wasm_decode_phase1 : list MarkAndSpaceMicros -> Result (list (list MarkAndSpaceMicros)).
Variable wasm_decode_phase2 : list MarkAndSpaceMicros -> Result DemodulatedFrame.
Variable wasm_decode_phase3 : DemodulatedFrame -> Result DecordedFrame.
Variable wasm_decode_phase4 : list DecordedFrame -> Result (list ControlCode).

Abbreviation State := (@State DemodulatedFrame DecordedFrame ControlCode).

(** The user presses Reset. *)
Definition press_reset (state : State) (fresh : nat) : Outcome :=
  settle wasm_parse_infrared_code wasm_decode_phase1 wasm_decode_phase2
    wasm_decode_phase3 wasm_decode_phase4 rounds (Some state) (handleReset state) fresh.

(** The effects that are due after a render. *)
Definition due (prev : option State) (state : State) : list bool :=
  map fst (effects wasm_parse_infrared_code wasm_decode_phase1 wasm_decode_phase2
             wasm_decode_phase3 wasm_decode_phase4 prev state).

(** A state with nothing in it: no text, and no element in any array. *)
Definition blank (state : State) : Prop :=
  input_text state = ""
  /\ elems (ir_mark_and_spaces state) = []
  /\ elems (ir_splitted_frames state) = []
  /\ elems (ir_demodulated_frames state) = []
  /\ elems (ir_decoded_frames state) = []
  /\ elems (ir_control_codes state) = [].

(** The component ends settled, with nothing in its state. *)
Definition ends_blank (o : Outcome) : Prop :=
  exists (state : State) (fresh : nat), o = Settled state fresh /\ blank state.

End Component.

End AppReset.

(** ** InfraredRemoteAnalyzer: the notification of received codes *)

Module InfraredRemoteAnalyzer.

Import IrControlCode.

(** [RxJsonSchema] of SerialConnectionEffect. *)
Record RxJsonSchema :=
  { timestamp : Z;
    buffer_full : bool;
    library : string;
    code : string;
    rawDataSize : Z;
    rawData : list Z;
    description : string }.

(** [JSON.stringify] of an array of integers. *)
Definition JSON_stringify (data : list Z) : string :=
  "[" +:+ String.concat "," (map Js.Number_toString data) +:+ "]".

Section Component.

(** The fields of the state that the notification does not touch:
    [msb_first], the three arrays and the alert. *)
Context {Rest : Type}.
Variable init_rest : Rest.

Record State :=
  { rest : Rest;
    input_text : string;
    confirmed_rx_json_data_length : nat;
    automatically_paste : bool }.

Definition initState : State :=
  {| rest := init_rest;
     input_text := "";
     confirmed_rx_json_data_length := 0;
     automatically_paste := false |}.

(** [{ ...prev, field: v }], field by field. *)
Definition with_rest (v : Rest) (prev : State) : State :=
  {| rest := v; input_text := input_text prev;
     confirmed_rx_json_data_length := confirmed_rx_json_data_length prev;
     automatically_paste := automatically_paste prev |}.

Definition with_input_text (v : string) (prev : State) : State :=
  {| rest := rest prev; input_text := v;
     confirmed_rx_json_data_length := confirmed_rx_json_data_length prev;
     automatically_paste := automatically_paste prev |}.

Definition with_confirmed_rx_json_data_length (v : nat) (prev : State) : State :=
  {| rest := rest prev; input_text := input_text prev;
     confirmed_rx_json_data_length := v;
     automatically_paste := automatically_paste prev |}.

Definition with_automatically_paste (v : bool) (prev : State) : State :=
  {| rest := rest prev; input_text := input_text prev;
     confirmed_rx_json_data_length := confirmed_rx_json_data_length prev;
     automatically_paste := v |}.

(** The text of the notification for the record number [newone]. *)
Definition arrival (newone : nat) : string :=
  "new IR code (#" +:+ Js.Number_toString (Z.of_nat newone) +:+ ") arrival.".

(** The effect with the dependencies [rxJsonData.length] and [state]: the
    messages it opens and the updaters it passes to [setState], or the
    [TypeError] of [rxJsonData[newone].rawData] where the array has no
    element [newone]. *)
Definition effect_rxJsonData (rxJsonData : list RxJsonSchema) (state : State)
  : Completion (list string * list (State -> State)) :=
  if negb (length rxJsonData =? confirmed_rx_json_data_length state)%nat then
    let newone := confirmed_rx_json_data_length state in
    let text := arrival newone in
    let confirm := fun prev => with_confirmed_rx_json_data_length (length rxJsonData) prev in
    if automatically_paste state then
      match rxJsonData !! newone with
      | Some record =>
          let new_input_text := JSON_stringify (rawData record) in
          Normal ([text], [confirm; fun prev => with_input_text new_input_text prev])
      | None => Throw TypeError
      end
    else Normal ([text], [confirm])
  else Normal ([], []).

(** The queued updaters, applied in order to the pending state. *)
Definition apply_setState (calls : list (State -> State)) (state : State) : State :=
  fold_left (fun st f => f st) calls state.

(** The received data, the state of the component and the messages opened
    so far. *)
Record Page :=
  { rxJsonData : list RxJsonSchema; state : State; messages : list string }.

Inductive Outcome :=
| Settled (page : Page)
| Crashed (e : JsError)
| OutOfFuel.

(** Render and run the effect, again after each change of the state it
    makes, until it makes none. *)
Fixpoint settle (fuel : nat) (page : Page) : Outcome :=
  match fuel with
  | O => OutOfFuel
  | S fuel' =>
      match effect_rxJsonData (rxJsonData page) (state page) with
      | Throw e => Crashed e
      | Normal (opened, calls) =>
          let page' := {| rxJsonData := rxJsonData page;
                          state := apply_setState calls (state page);
                          messages := messages page ++ opened |} in
          match calls with
          | [] => Settled page'
          | _ => settle fuel' page'
          end
      end
  end.

Definition rounds : nat := 4.

(** What happens to the page: the serial connection appends a record; the
    user presses Reset, changes the text, flips the switch of the automatic
    paste or clicks the row of a record; one of the decoding effects or the
    switch of the bit order updates the other fields. *)
Inductive Event :=
| Arrived (record : RxJsonSchema)
| PressReset
| TypeText (text : string)
| SwitchAutoPaste (checked : bool)
| ClickRow (record : RxJsonSchema)
| Other (update : Rest -> Rest).

Definition handleReset (st : State) : State := apply_setState [fun _ => initState] st.

Definition handleParse (st : State) (text : string) : State :=
  if negb (String.eqb text "") then
    apply_setState [fun prev => with_input_text text prev] st
  else handleReset st.

Definition handle (event : Event) (page : Page) : Page :=
  match event with
  | Arrived record =>
      {| rxJsonData := rxJsonData page ++ [record];
         state := state page; messages := messages page |}
  | PressReset =>
      {| rxJsonData := rxJsonData page;
         state := handleReset (state page); messages := messages page |}
  | TypeText text =>
      {| rxJsonData := rxJsonData page;
         state := handleParse (state page) text; messages := messages page |}
  | SwitchAutoPaste checked =>
      {| rxJsonData := rxJsonData page;
         state := apply_setState [fun prev => with_automatically_paste checked prev]
                    (state page);
         messages := messages page |}
  | ClickRow record =>
      {| rxJsonData := rxJsonData page;
         state := apply_setState
                    [fun prev => with_input_text (JSON_stringify (rawData record)) prev]
                    (state page);
         messages := messages page ++ ["貼り付けました。"] |}
  | Other update =>
      {| rxJsonData := rxJsonData page;
         state := apply_setState [fun prev => with_rest (update (rest prev)) prev]
                    (state page);
         messages := messages page |}
  end.

(** The component is mounted on the received data of the start, then the
    events happen one after the other, each followed by the effect. *)
Definition mount (received : list RxJsonSchema) : Outcome :=
  settle rounds {| rxJsonData := received; state := initState; messages := [] |}.

Fixpoint session (page : Page) (events : list Event) : Outcome :=
  match events with
  | [] => Settled page
  | event :: later =>
      match settle rounds (handle event page) with
      | Settled page' => session page' later
      | other => other
      end
  end.

Definition run (received : list RxJsonSchema) (events : list Event) : Outcome :=
  match mount received with
  | Settled page => session page events
  | other => other
  end.

End Component.


End InfraredRemoteAnalyzer.

(** * Properties *)

(** ** Slices *)

Section SliceFacts.

Context {A : Type}.
Implicit Types xs : list A.

Lemma slice_in_range xs (i j : Z) :
  0 <= i <= j -> j <= Z.of_nat (length xs) ->
  Js.slice xs i j = take (Z.to_nat (j - i)) (drop (Z.to_nat i) xs).
Proof.
  intros Hij Hj. unfold Js.slice, Js.relative_index.
  destruct (Z.ltb_spec i 0), (Z.ltb_spec j 0); try lia.
  rewrite !Z.min_l by lia. reflexivity.
Qed.

Lemma slice_length_in_range xs (i j : Z) :
  0 <= i <= j -> j <= Z.of_nat (length xs) ->
  length (Js.slice xs i j) = Z.to_nat (j - i).
Proof.
  intros Hij Hj. rewrite slice_in_range by assumption.
  rewrite length_take, length_drop. lia.
Qed.

Lemma slice_past_end xs (i j : Z) :
  0 <= i <= Z.of_nat (length xs) -> Z.of_nat (length xs) <= j ->
  Js.slice xs i j = drop (Z.to_nat i) xs.
Proof.
  intros Hi Hj. unfold Js.slice, Js.relative_index.
  destruct (Z.ltb_spec i 0), (Z.ltb_spec j 0); try lia.
  rewrite (Z.min_l i), (Z.min_r j) by lia.
  apply take_ge. rewrite length_drop. lia.
Qed.

Lemma slice_from_nonneg xs (i : Z) :
  0 <= i -> Js.slice_from xs i = drop (Z.to_nat i) xs.
Proof.
  intros Hi. unfold Js.slice_from.
  destruct (Z_le_gt_dec i (Z.of_nat (length xs))).
  - apply slice_past_end; lia.
  - unfold Js.slice, Js.relative_index.
    destruct (Z.ltb_spec i 0), (Z.ltb_spec (Z.of_nat (length xs)) 0); try lia.
    rewrite (Z.min_r i), Z.min_id by lia.
    rewrite Z.sub_diag, (drop_ge xs (Z.to_nat i)) by lia. apply take_0.
Qed.

Lemma slice_lookup xs (i j : Z) (k : nat) :
  0 <= i <= j -> j <= Z.of_nat (length xs) -> (k < Z.to_nat (j - i))%nat ->
  Js.slice xs i j !! k = xs !! (Z.to_nat i + k)%nat.
Proof.
  intros Hij Hj Hk. rewrite slice_in_range by assumption.
  rewrite lookup_take_lt by assumption. apply lookup_drop.
Qed.

(** Two adjacent slices make one. *)
Lemma slice_app xs (i j k : Z) :
  0 <= i <= j -> j <= k -> k <= Z.of_nat (length xs) ->
  Js.slice xs i j ++ Js.slice xs j k = Js.slice xs i k.
Proof.
  intros Hij Hjk Hk.
  rewrite !slice_in_range by lia.
  replace (Z.to_nat (k - i)) with (Z.to_nat (j - i) + Z.to_nat (k - j))%nat by lia.
  replace (Z.to_nat j) with (Z.to_nat i + Z.to_nat (j - i))%nat by lia.
  rewrite <- drop_drop. apply take_take_drop.
Qed.

End SliceFacts.

(** ** The decoded-frame table *)

Section DecordedFrameFacts.

Import IrDecordedFrame.

Example to_octets_20 :
  to_octets [1;0;1;0;1;0;1;0; 1;1;1;1;0;0;0;0; 1;1;0;0]
  = [[1;0;1;0;1;0;1;0]; [1;1;1;1;0;0;0;0]; [1;1;0;0]].
Proof. reflexivity. Qed.

Example aeha_labels :
  map item_label (items (ir_frame_value (Aeha [1;0;1;0;1;0;1;0; 1;1;1;1;0;0;0;0; 1])))
  = ["offset 0"; "offset 8"; "offset 16"].
Proof. reflexivity. Qed.

(** The SIRC branch cuts the bitstream after its fifth bit, whatever its
    length. *)
Lemma sirc_items (bits : Uint8Array) :
  items (ir_frame_value (Sirc bits))
  = [ {| item_label := "command"; value := take 5 bits |};
      {| item_label := "address"; value := drop 5 bits |} ].
Proof.
  cbn [ir_frame_value items].
  rewrite slice_from_nonneg by lia.
  destruct (Z_le_gt_dec 5 (Z.of_nat (length bits))).
  - rewrite slice_in_range by lia. reflexivity.
  - rewrite slice_past_end by lia.
    change (Z.to_nat 0) with 0%nat. rewrite drop_0.
    rewrite take_ge by lia. reflexivity.
Qed.

(** C1, on the code: for the 12-bit SIRC frame 1010100 10000 the view
    labels the first five bits 10101 as the command and the seven bits
    0010000 that follow as the address; the command item is not the first
    seven bits 1010100 and the address item is not the five bits 10000
    after them. *)
Theorem sirc_command_item_has_five_bits :
  let bits := [1;0;1;0;1;0;0; 1;0;0;0;0] in
  let shown := ir_frame_value (Sirc bits) in
  item_named "command" shown = Some [1;0;1;0;1]
  /\ item_named "address" shown = Some [0;0;1;0;0;0;0]
  /\ item_named "command" shown <> Some (take 7 bits)
  /\ item_named "address" shown <> Some (drop 7 bits).
Proof.
  cbv zeta. repeat split; try reflexivity; discriminate.
Qed.

(** C2: for a NEC bitstream of at least 32 bits the view shows four fields
    of eight bits each, Address = bits [0,8), (Logical Inverse) Address =
    bits [8,16), Command = bits [16,24), (Logical Inverse) Command = bits
    [24,32), and the four fields in this order make up the first 32 bits. *)
Theorem nec_layout (bits : Uint8Array) :
  (32 <= length bits)%nat ->
  exists custom0 custom1 data0 data1 : Uint8Array,
    ir_frame_value (Nec bits)
    = {| frame_label := "NEC";
         items := [ {| item_label := "Address"; value := custom0 |};
                    {| item_label := "(Logical Inverse) Address"; value := custom1 |};
                    {| item_label := "Command"; value := data0 |};
                    {| item_label := "(Logical Inverse) Command"; value := data1 |} ] |}
    /\ length custom0 = 8%nat /\ length custom1 = 8%nat
    /\ length data0 = 8%nat /\ length data1 = 8%nat
    /\ (forall k : nat, (k < 8)%nat ->
          custom0 !! k = bits !! k
          /\ custom1 !! k = bits !! (8 + k)%nat
          /\ data0 !! k = bits !! (16 + k)%nat
          /\ data1 !! k = bits !! (24 + k)%nat)
    /\ custom0 ++ custom1 ++ data0 ++ data1 = take 32 bits.
Proof.
  intros Hlen.
  exists (Js.slice bits 0 8), (Js.slice bits 8 16),
         (Js.slice bits 16 24), (Js.slice bits 24 32).
  split; [reflexivity |].
  rewrite !slice_length_in_range by lia.
  repeat split; try reflexivity.
  - rewrite slice_lookup by lia. reflexivity.
  - rewrite slice_lookup by lia. reflexivity.
  - rewrite slice_lookup by lia. reflexivity.
  - rewrite slice_lookup by lia. reflexivity.
  - rewrite (slice_app bits 16 24 32), (slice_app bits 8 16 32),
      (slice_app bits 0 8 32) by lia.
    rewrite slice_in_range by lia. reflexivity.
Qed.

Lemma nec_layout_witness :
  let bits := [0;0;0;0;0;0;0;1; 1;1;1;1;1;1;1;0; 0;1;0;0;1;0;0;0; 1;0;1;1;0;1;1;1; 1] in
  exists custom0 custom1 data0 data1 : Uint8Array,
    items (ir_frame_value (Nec bits))
    = [ {| item_label := "Address"; value := custom0 |};
        {| item_label := "(Logical Inverse) Address"; value := custom1 |};
        {| item_label := "Command"; value := data0 |};
        {| item_label := "(Logical Inverse) Command"; value := data1 |} ]
    /\ custom0 ++ custom1 ++ data0 ++ data1 = take 32 bits.
Proof.
  intros bits.
  destruct (nec_layout bits) as (c0 & c1 & d0 & d1 & Hv & _ & _ & _ & _ & _ & Hcat).
  - vm_compute. lia.
  - exists c0, c1, d0, d1. split; [rewrite Hv; reflexivity | exact Hcat].
Defined.

End DecordedFrameFacts.

(** ** Octets of an AEHA bitstream *)

Section OctetFacts.

Import IrDecordedFrame.

Lemma to_octets_loop_done (b : Uint8Array) (i : Z) (out : list Uint8Array) :
  Z.of_nat (length b) <= i -> to_octets_loop b i out = out.
Proof.
  intros Hi. rewrite to_octets_loop_equation_1.
  destruct (Z_lt_dec i (Z.of_nat (length b))); [lia | reflexivity].
Qed.

Lemma to_octets_loop_step (b : Uint8Array) (i : Z) (out : list Uint8Array) :
  i < Z.of_nat (length b) ->
  to_octets_loop b i out = to_octets_loop b (i + 8) (out ++ [Js.slice b i (i + 8)]).
Proof.
  intros Hi. rewrite to_octets_loop_equation_1.
  destruct (Z_lt_dec i (Z.of_nat (length b))); [reflexivity | lia].
Qed.

(** What the loop pushes does not depend on what was pushed before. *)
Lemma to_octets_loop_output (b : Uint8Array) (n : nat) :
  forall (i : Z) (out : list Uint8Array),
    Z.to_nat (Z.of_nat (length b) - i) = n ->
    to_octets_loop b i out = out ++ to_octets_loop b i [].
Proof.
  induction n as [n IH] using lt_wf_ind. intros i out Hn.
  destruct (Z_lt_dec i (Z.of_nat (length b))) as [Hlt | Hge].
  - rewrite (to_octets_loop_step b i out), (to_octets_loop_step b i []) by assumption.
    rewrite (IH (Z.to_nat (Z.of_nat (length b) - (i + 8)))) by lia.
    rewrite (IH (Z.to_nat (Z.of_nat (length b) - (i + 8))) ltac:(lia) (i + 8) ([] ++ _))
      by lia.
    rewrite <- !app_assoc. reflexivity.
  - rewrite !to_octets_loop_done by lia. rewrite app_nil_r. reflexivity.
Qed.

Lemma to_octets_loop_unfold (b : Uint8Array) (i : Z) :
  i < Z.of_nat (length b) ->
  to_octets_loop b i [] = Js.slice b i (i + 8) :: to_octets_loop b (i + 8) [].
Proof.
  intros Hi. rewrite to_octets_loop_step by assumption.
  rewrite (to_octets_loop_output b _ (i + 8) _ eq_refl). reflexivity.
Qed.

Lemma to_octets_loop_concat (b : Uint8Array) (n : nat) :
  forall i : Z,
    0 <= i -> Z.to_nat (Z.of_nat (length b) - i) = n ->
    concat (to_octets_loop b i []) = drop (Z.to_nat i) b.
Proof.
  induction n as [n IH] using lt_wf_ind. intros i Hi Hn.
  destruct (Z_lt_dec i (Z.of_nat (length b))) as [Hlt | Hge].
  - rewrite to_octets_loop_unfold by assumption. cbn [concat].
    rewrite (IH (Z.to_nat (Z.of_nat (length b) - (i + 8)))) by lia.
    destruct (Z_le_gt_dec (i + 8) (Z.of_nat (length b))).
    + rewrite slice_in_range by lia.
      replace (Z.to_nat (i + 8)) with (Z.to_nat i + Z.to_nat (i + 8 - i))%nat by lia.
      rewrite <- drop_drop. apply take_drop.
    + rewrite slice_past_end by lia.
      rewrite (drop_ge b (Z.to_nat (i + 8))) by lia. apply app_nil_r.
  - rewrite to_octets_loop_done by lia. rewrite drop_ge by lia. reflexivity.
Qed.

(** From a position inside the bitstream the loop pushes full octets and
    then one last octet of one to eight bits. *)
Lemma to_octets_loop_shape (b : Uint8Array) (n : nat) :
  forall i : Z,
    0 <= i < Z.of_nat (length b) -> Z.to_nat (Z.of_nat (length b) - i) = n ->
    exists (front : list Uint8Array) (final : Uint8Array),
      to_octets_loop b i [] = front ++ [final]
      /\ Forall (fun o => length o = 8%nat) front
      /\ (1 <= length final <= 8)%nat.
Proof.
  induction n as [n IH] using lt_wf_ind. intros i Hi Hn.
  rewrite to_octets_loop_unfold by lia.
  destruct (Z_lt_dec (i + 8) (Z.of_nat (length b))) as [Hlt | Hge].
  - destruct (IH (Z.to_nat (Z.of_nat (length b) - (i + 8))) ltac:(lia) (i + 8))
      as (front & final & Heq & Hfront & Hfinal); [lia | reflexivity |].
    exists (Js.slice b i (i + 8) :: front), final. rewrite Heq.
    split; [reflexivity |]. split; [| exact Hfinal].
    constructor; [| exact Hfront].
    rewrite slice_length_in_range by lia. lia.
  - exists [], (Js.slice b i (i + 8)).
    rewrite to_octets_loop_done by lia.
    split; [reflexivity |]. split; [constructor |].
    rewrite slice_past_end, length_drop by lia. lia.
Qed.

Lemma length_concat_octets (front : list Uint8Array) :
  Forall (fun o => length o = 8%nat) front ->
  length (concat front) = (8 * length front)%nat.
Proof.
  induction 1 as [| o front Ho _ IH]; [reflexivity |].
  cbn [concat]. rewrite length_app, IH, Ho. cbn [length]. lia.
Qed.

(** C3: [to_octets] groups the bits in arrival order: the octets
    concatenated give back the bitstream; every octet but the last one has
    exactly eight bits; the last octet holds the remaining one to eight
    bits, unpadded, so its length is fixed by the bit count; and equal
    bitstreams are grouped equally. *)
Theorem to_octets_grouping (bitstream : Uint8Array) :
  concat (to_octets bitstream) = bitstream
  /\ (forall (k : nat) (octet : Uint8Array),
        to_octets bitstream !! k = Some octet ->
        (S k < length (to_octets bitstream))%nat ->
        length octet = 8%nat)
  /\ (forall octet : Uint8Array,
        last (to_octets bitstream) = Some octet ->
        length octet = S ((length bitstream - 1) mod 8))
  /\ (forall other : Uint8Array,
        other = bitstream -> to_octets other = to_octets bitstream).
Proof.
  assert (Hcat : concat (to_octets bitstream) = bitstream).
  { unfold to_octets. rewrite (to_octets_loop_concat bitstream _ 0 ltac:(lia) eq_refl).
    reflexivity. }
  split; [exact Hcat |].
  destruct bitstream as [| x bitstream'] eqn:Hb.
  { repeat split; try discriminate. intros other ->. reflexivity. }
  rewrite <- Hb in *.
  assert (Hlen : (0 < length bitstream)%nat) by (rewrite Hb; cbn; lia).
  destruct (to_octets_loop_shape bitstream _ 0 ltac:(lia) eq_refl)
    as (front & final & Heq & Hfront & Hfinal).
  fold (to_octets bitstream) in Heq.
  assert (Hsize : length bitstream = (8 * length front + length final)%nat).
  { rewrite <- Hcat at 1. rewrite Heq, concat_app, length_app.
    rewrite length_concat_octets by assumption.
    cbn [concat]. rewrite app_nil_r. lia. }
  repeat split.
  - intros k octet Hk Hlt. rewrite Heq in Hk, Hlt.
    rewrite length_app in Hlt. cbn in Hlt.
    rewrite lookup_app_l in Hk by lia.
    exact (proj1 (Forall_lookup _ _) Hfront k octet Hk).
  - intros octet Hlast. rewrite Heq, last_snoc in Hlast.
    injection Hlast as <-. rewrite Hsize.
    replace (8 * length front + length final - 1)%nat
      with ((length final - 1) + length front * 8)%nat by lia.
    rewrite Nat.Div0.mod_add, Nat.mod_small by lia. lia.
  - intros other ->. reflexivity.
Qed.

Lemma to_octets_grouping_witness :
  let bitstream := [1;0;1;0;1;0;1;0; 1;1;1;1;0;0;0;0; 1;1;0;0] in
  to_octets bitstream !! 1%nat = Some [1;1;1;1;0;0;0;0]
  /\ length [1;1;1;1;0;0;0;0] = 8%nat
  /\ last (to_octets bitstream) = Some [1;1;0;0]
  /\ length [1;1;0;0] = S ((length bitstream - 1) mod 8).
Proof.
  intros bitstream.
  destruct (to_octets_grouping bitstream) as (_ & Hfull & Hlast & _).
  assert (H1 : to_octets bitstream !! 1%nat = Some [1;1;1;1;0;0;0;0]) by reflexivity.
  assert (H2 : last (to_octets bitstream) = Some [1;1;0;0]) by reflexivity.
  split; [exact H1 |]. split; [| split; [exact H2 |]].
  - apply (Hfull 1%nat _ H1). vm_compute. lia.
  - exact (Hlast _ H2).
Defined.

End OctetFacts.

(** ** Hexadecimal display *)

Section HexFacts.

Import IrDecordedFrame.

Example to_hex_string_lsb_first :
  to_hex_string false 0%nat {[ 0%nat := [1;0;1;1;0;0;0;0] ]}
  = Some ("0d", {[ 0%nat := [1;0;1;1;0;0;0;0]; 1%nat := [0;0;0;0;1;1;0;1] ]}).
Proof. vm_compute. reflexivity. Qed.

Example to_hex_string_msb_first :
  to_hex_string true 0%nat {[ 0%nat := [1;0;1;1;0;0;0;0] ]}
  = Some ("b0", {[ 0%nat := [1;0;1;1;0;0;0;0] ]}).
Proof. vm_compute. reflexivity. Qed.

(** C7: [to_hex_string] leaves its argument as it was.  For either bit
    order and every array in the store, the call returns the hexadecimal
    text of the bits (read in the chosen order), and afterwards the
    argument, like every other array that existed before the call, has the
    elements it had before, in the same order: the LSB-first display
    reverses a copy. *)
Theorem to_hex_string_preserves_argument
    (msb_first : bool) (octets : Ref) (h : Store) (elems : Uint8Array) :
  h !! octets = Some elems ->
  exists (text : string) (h' : Store),
    to_hex_string msb_first octets h = Some (text, h')
    /\ h' !! octets = Some elems
    /\ (forall (r : Ref) (xs : Uint8Array), h !! r = Some xs -> h' !! r = Some xs)
    /\ text = Js.padStart 2 "0"
                (Js.Number_toString16
                   (fold_left (fun acc x => 2 * acc + x)
                      (if msb_first then elems else reverse elems) 0)).
Proof.
  intros Helems. unfold to_hex_string. destruct msb_first.
  - unfold Uint8Array_reduce. rewrite Helems.
    eexists _, h. repeat split; [assumption | auto].
  - unfold Uint8Array_slice. rewrite Helems.
    set (copy := fresh (dom h)).
    assert (Hfresh : h !! copy = None).
    { apply not_elem_of_dom. apply is_fresh. }
    unfold Uint8Array_reverse. rewrite lookup_insert_eq.
    unfold Uint8Array_reduce. rewrite lookup_insert_eq.
    rewrite slice_from_nonneg by lia. change (Z.to_nat 0) with 0%nat. rewrite drop_0.
    eexists _, _. split; [reflexivity |].
    assert (Hkeep : forall (r : Ref) (xs : Uint8Array),
               h !! r = Some xs ->
               <[copy := reverse elems]> (<[copy := elems]> h) !! r = Some xs).
    { intros r xs Hr. rewrite !lookup_insert_ne by congruence. exact Hr. }
    repeat split; auto.
Qed.

Lemma to_hex_string_preserves_argument_witness :
  exists (text : string) (h' : Store),
    to_hex_string false 7%nat {[ 7%nat := [1;0;1;1;0;0;0;0] ]} = Some (text, h')
    /\ h' !! 7%nat = Some [1;0;1;1;0;0;0;0]
    /\ text = "0d".
Proof.
  destruct (to_hex_string_preserves_argument false 7%nat
              {[ 7%nat := [1;0;1;1;0;0;0;0] ]} [1;0;1;1;0;0;0;0])
    as (text & h' & Hrun & Hsame & _ & Htext).
  - reflexivity.
  - exists text, h'. split; [exact Hrun |]. split; [exact Hsame |].
    rewrite Htext. reflexivity.
Defined.

End HexFacts.

(** ** The signal chart and the mark/space table *)

Section SignalFacts.

Import IrSignal.

Lemma total_duration_cons (x : MarkAndSpaceMicros) (xs : list MarkAndSpaceMicros) :
  total_duration (x :: xs) = mark x + space x + total_duration xs.
Proof. reflexivity. Qed.

Lemma total_duration_app (xs ys : list MarkAndSpaceMicros) :
  total_duration (xs ++ ys) = total_duration xs + total_duration ys.
Proof.
  unfold total_duration.
  induction xs as [| x xs IH]; cbn [app fold_right]; [reflexivity |].
  rewrite IH. lia.
Qed.

Lemma total_duration_snoc (xs : list MarkAndSpaceMicros) (item : MarkAndSpaceMicros) :
  total_duration (xs ++ [item]) = total_duration xs + mark item + space item.
Proof. rewrite total_duration_app. unfold total_duration. cbn [fold_right]. lia. Qed.

(** The chart loop, started with [sum] and [out], ends with the total
    advanced by the duration of the input and the points appended. *)
Lemma conv_loop (input : list MarkAndSpaceMicros) :
  forall (sum : Z) (out : list DatumForGraph),
    fold_left conv_ir_control_signal_body input (sum, out)
    = (sum + total_duration input, out ++ points_from sum input).
Proof.
  induction input as [| item rest IH]; intros sum out.
  - cbn. rewrite Z.add_0_r, app_nil_r. reflexivity.
  - cbn [fold_left conv_ir_control_signal_body points_from].
    rewrite IH. cbn [total_duration fold_right].
    rewrite <- !app_assoc. cbn [app]. f_equal. unfold total_duration. lia.
Qed.

Lemma length_points_from (input : list MarkAndSpaceMicros) (sum : Z) :
  length (points_from sum input) = (2 * length input)%nat.
Proof.
  revert sum. induction input as [| item rest IH]; intros sum; [reflexivity |].
  cbn [points_from length]. rewrite IH. lia.
Qed.

Lemma lookup_points_from (input : list MarkAndSpaceMicros) :
  forall (sum : Z) (k : nat) (item : MarkAndSpaceMicros),
    input !! k = Some item ->
    points_from sum input !! (2 * k)%nat
    = Some {| time := sum + total_duration (take k input) + mark item; bit := 1 |}
    /\ points_from sum input !! (2 * k + 1)%nat
       = Some {| time := sum + total_duration (take (S k) input); bit := 0 |}.
Proof.
  induction input as [| first rest IH]; intros sum k item Hk; [discriminate |].
  destruct k as [| k].
  - injection Hk as ->. cbn -[Z.add]. rewrite take_0. cbn -[Z.add]. split; do 2 f_equal; lia.
  - cbn in Hk. destruct (IH (sum + mark first + space first) k item Hk) as [Hm Hs].
    replace (2 * S k)%nat with (S (S (2 * k))) by lia.
    replace (S (S (2 * k)) + 1)%nat with (S (S (2 * k + 1))) by lia.
    change (points_from sum (first :: rest) !! S (S (2 * k)))
      with (points_from (sum + mark first + space first) rest !! (2 * k)%nat).
    change (points_from sum (first :: rest) !! S (S (2 * k + 1)))
      with (points_from (sum + mark first + space first) rest !! (2 * k + 1)%nat).
    rewrite Hm, Hs.
    rewrite !firstn_cons, !total_duration_cons.
    split; do 2 f_equal; lia.
Qed.

Example conv_ir_control_signal_two_pairs :
  conv_ir_control_signal [ {| mark := 9000; space := 4500 |}; {| mark := 560; space := 1690 |} ]
  = [ {| time := 0; bit := 0 |};
      {| time := 9000; bit := 1 |}; {| time := 13500; bit := 0 |};
      {| time := 14060; bit := 1 |}; {| time := 15750; bit := 0 |} ].
Proof. reflexivity. Qed.

(** C8: for a non-empty list of n pairs [conv_ir_control_signal] returns
    2n+1 points; the first is time 0, bit 0; pair k contributes a point
    with bit 1 at the end of its mark and a point with bit 0 at the end of
    its space; the time of the last point is the total duration of the
    signal.  For the empty list it returns the empty list. *)
Theorem conv_ir_control_signal_points (input : list MarkAndSpaceMicros) :
  conv_ir_control_signal [] = []
  /\ (input <> [] ->
      let points := conv_ir_control_signal input in
      length points = (2 * length input + 1)%nat
      /\ points !! 0%nat = Some {| time := 0; bit := 0 |}
      /\ (forall (k : nat) (item : MarkAndSpaceMicros),
            input !! k = Some item ->
            points !! (2 * k + 1)%nat
            = Some {| time := total_duration (take k input) + mark item; bit := 1 |}
            /\ points !! (2 * k + 2)%nat
               = Some {| time := total_duration (take (S k) input); bit := 0 |})
      /\ last points = Some {| time := total_duration input; bit := 0 |}).
Proof.
  split; [reflexivity |]. intros Hne points.
  assert (Hpoints : points = {| time := 0; bit := 0 |} :: points_from 0 input).
  { subst points. unfold conv_ir_control_signal.
    destruct input as [| item rest]; [contradiction |].
    replace (1 <=? Z.of_nat (length (item :: rest))) with true
      by (symmetry; apply Z.leb_le; cbn [length]; lia).
    rewrite conv_loop. reflexivity. }
  rewrite Hpoints. split; [| split; [| split]].
  - cbn [length]. rewrite length_points_from. lia.
  - reflexivity.
  - intros k item Hk.
    destruct (lookup_points_from input 0 k item Hk) as [Hm Hs].
    replace (2 * k + 1)%nat with (S (2 * k)) by lia.
    replace (2 * k + 2)%nat with (S (2 * k + 1)) by lia.
    change (({| time := 0; bit := 0 |} :: points_from 0 input) !! S (2 * k))
      with (points_from 0 input !! (2 * k)%nat).
    change (({| time := 0; bit := 0 |} :: points_from 0 input) !! S (2 * k + 1))
      with (points_from 0 input !! (2 * k + 1)%nat).
    rewrite Hm, Hs. rewrite !Z.add_0_l. split; reflexivity.
  - clear Hpoints points. induction input as [| item front _] using rev_ind; [contradiction |].
    assert (Hk : (front ++ [item]) !! length front = Some item)
      by (rewrite lookup_app_r by lia; rewrite Nat.sub_diag; reflexivity).
    destruct (lookup_points_from _ 0 _ _ Hk) as [_ Hs].
    rewrite last_lookup. cbn [length Nat.pred].
    rewrite length_points_from, length_app. cbn [length].
    replace (2 * (length front + 1))%nat with (S (2 * length front + 1)) by lia.
    change ((?p :: ?l) !! S ?n) with (l !! n).
    rewrite Hs. rewrite Z.add_0_l.
    rewrite take_ge by (rewrite length_app; cbn; lia). reflexivity.
Qed.

Lemma conv_ir_control_signal_points_witness :
  let input := [ {| mark := 9000; space := 4500 |}; {| mark := 560; space := 1690 |} ] in
  length (conv_ir_control_signal input) = 5%nat
  /\ last (conv_ir_control_signal input) = Some {| time := 15750; bit := 0 |}.
Proof.
  intros input.
  destruct (conv_ir_control_signal_points input) as [_ H].
  destruct H as (Hlen & _ & _ & Hlast); [discriminate |].
  split; [exact Hlen | exact Hlast].
Defined.

(** The table loop, started with [st], ends with the rows appended, the
    start time advanced by the total duration and the sequence number by
    two for each pair. *)
Lemma convert_for_list_loop (input : list MarkAndSpaceMicros) :
  forall st : ListLoop,
    fold_left convert_for_list_body input st
    = {| start := start st + total_duration input;
         output := output st ++ rows_from (start st) (sequencenumber st) input;
         sequencenumber := sequencenumber st + 2 * Z.of_nat (length input) |}.
Proof.
  induction input as [| item rest IH]; intros st.
  - cbn [fold_left rows_from length]. rewrite app_nil_r.
    change (total_duration []) with 0. rewrite Z.mul_0_r, !Z.add_0_r.
    destruct st; reflexivity.
  - cbn [fold_left]. rewrite IH. unfold convert_for_list_body.
    cbn [start output sequencenumber rows_from].
    rewrite total_duration_cons, <- !app_assoc. cbn [app].
    cbn [length]. rewrite Nat2Z.inj_succ. f_equal; lia.
Qed.

Lemma convert_for_list_rows_from (input : list MarkAndSpaceMicros) :
  convert_for_list input = rows_from 0 1 input.
Proof. unfold convert_for_list. rewrite convert_for_list_loop. reflexivity. Qed.

Lemma length_rows_from (input : list MarkAndSpaceMicros) (start seq : Z) :
  length (rows_from start seq input) = (2 * length input)%nat.
Proof.
  revert start seq. induction input as [| item rest IH]; intros start seq; [reflexivity |].
  cbn [rows_from length]. rewrite IH. lia.
Qed.

Lemma duration_rows_from (input : list MarkAndSpaceMicros) (start seq : Z) :
  map duration (rows_from start seq input) = durations input.
Proof.
  revert start seq. induction input as [| item rest IH]; intros start seq; [reflexivity |].
  cbn [rows_from map duration]. rewrite IH. reflexivity.
Qed.

Lemma lookup_rows_from (input : list MarkAndSpaceMicros) :
  forall (start seq : Z) (j : nat) (row : DatumForList),
    rows_from start seq input !! j = Some row ->
    seq_num row = seq + Z.of_nat j
    /\ key row = seq + Z.of_nat j
    /\ kinds row = (if Nat.even j then "Mark" else "Space")
    /\ start_time row = start + sum_list (take j (durations input)).
Proof.
  induction input as [| item rest IH]; intros start seq j row Hj; [discriminate |].
  destruct j as [| [| j]].
  - injection Hj as <-. cbn -[Z.add]. rewrite !Z.add_0_r. auto.
  - injection Hj as <-. cbn -[Z.add]. rewrite !Z.add_0_r. auto.
  - change (rows_from (start + mark item + space item) (seq + 1 + 1) rest !! j = Some row)
      in Hj.
    destruct (IH _ _ _ _ Hj) as (Hseq & Hkey & Hkinds & Hstart).
    rewrite Hseq, Hkey, Hkinds, Hstart.
    change (durations (item :: rest)) with (mark item :: space item :: durations rest).
    rewrite !firstn_cons. unfold sum_list. cbn [fold_right Nat.even].
    repeat split; lia.
Qed.

Example convert_for_list_two_pairs :
  convert_for_list [ {| mark := 9000; space := 4500 |}; {| mark := 560; space := 1690 |} ]
  = [ {| key := 1; seq_num := 1; start_time := 0; kinds := "Mark"; duration := 9000 |};
      {| key := 2; seq_num := 2; start_time := 9000; kinds := "Space"; duration := 4500 |};
      {| key := 3; seq_num := 3; start_time := 13500; kinds := "Mark"; duration := 560 |};
      {| key := 4; seq_num := 4; start_time := 14060; kinds := "Space"; duration := 1690 |} ].
Proof. reflexivity. Qed.

(** C9: for a list of n pairs [convert_for_list] returns 2n rows; the
    durations of the rows are the marks and spaces of the input, in input
    order; row j (counting from 0) has the sequence number j+1, the kind
    Mark when j is even and Space when j is odd, and starts at the sum of
    the durations of the rows before it. *)
Theorem convert_for_list_rows (input : list MarkAndSpaceMicros) :
  let rows := convert_for_list input in
  length rows = (2 * length input)%nat
  /\ map duration rows = durations input
  /\ (forall (j : nat) (row : DatumForList),
        rows !! j = Some row ->
        seq_num row = Z.of_nat j + 1
        /\ key row = seq_num row
        /\ kinds row = (if Nat.even j then "Mark" else "Space")
        /\ start_time row = sum_list (take j (map duration rows))).
Proof.
  cbv zeta. rewrite convert_for_list_rows_from.
  split; [apply length_rows_from |]. split; [apply duration_rows_from |].
  intros j row Hj.
  destruct (lookup_rows_from _ _ _ _ _ Hj) as (Hseq & Hkey & Hkinds & Hstart).
  rewrite duration_rows_from.
  repeat split; [lia | lia | assumption | lia].
Qed.

Lemma convert_for_list_rows_witness :
  let input := [ {| mark := 9000; space := 4500 |}; {| mark := 560; space := 1690 |} ] in
  let row := {| key := 4; seq_num := 4; start_time := 14060;
                kinds := "Space"; duration := 1690 |} in
  convert_for_list input !! 3%nat = Some row
  /\ seq_num row = 4
  /\ start_time row = sum_list (take 3 (map duration (convert_for_list input))).
Proof.
  intros input row.
  assert (Hrow : convert_for_list input !! 3%nat = Some row) by reflexivity.
  destruct (convert_for_list_rows input) as (_ & _ & Hrows).
  destruct (Hrows 3%nat row Hrow) as (Hseq & _ & _ & Hstart).
  split; [exact Hrow |]. split; [exact Hseq | exact Hstart].
Defined.

End SignalFacts.

(** ** The command cards *)

Section ControlCodeFacts.

Import IrControlCode.

Example display_ir_code_sirc :
  display_ir_code (to_object (Sirc "Volume Up" "TV"))
  = Normal [ descriptions_item "manufacturer" "manufacturer" (JsString "ソニー");
             descriptions_item "device" "device" (JsString "TV");
             descriptions_item "command" "command" (JsString "Volume Up") ].
Proof. reflexivity. Qed.

Example display_ir_code_hitachi :
  display_ir_code (to_object (HitachiHvac 26 "冷房" "自動" true))
  = Normal [ descriptions_item "manufacturer" "manufacturer" (JsString "日立");
             descriptions_item "device" "device" (JsString "エアコン");
             descriptions_item "温度" "温度" (JsString "26");
             descriptions_item "モード" "モード" (JsString "冷房");
             descriptions_item "電源" "電源" (JsString "ON");
             descriptions_item "風量" "風量" (JsString "自動") ].
Proof. reflexivity. Qed.

(** An object with none of the six keys reaches the last branch. *)
Example display_ir_code_no_tag :
  display_ir_code (JsObject [ ("Nec", JsObject []) ]) = Throw (Error "unimplemented").
Proof. reflexivity. Qed.

(** A tag without its record makes a property access throw. *)
Example display_ir_code_no_record :
  display_ir_code (JsObject [ ("HitachiHvac", JsUndefined) ]) = Throw TypeError.
Proof. reflexivity. Qed.

Lemma only_type_error_bind {A B : Type} (c : Completion A) (k : A -> Completion B) :
  only_type_error c -> (forall a : A, only_type_error (k a)) -> only_type_error (bind c k).
Proof.
  intros Hc Hk e. destruct c as [a | e']; cbn [bind].
  - exact (Hk a e).
  - intros He. apply (Hc e). congruence.
Qed.

Lemma only_type_error_normal {A : Type} (a : A) : only_type_error (Normal a).
Proof. intros e He. discriminate He. Qed.

Lemma only_type_error_get (v : JsValue) (key : string) : only_type_error (get v key).
Proof. intros e He. destruct v; cbn in He; congruence. Qed.

Lemma only_type_error_toString (v : JsValue) : only_type_error (toString v).
Proof. intros e He. destruct v; cbn in He; congruence. Qed.

Lemma only_type_error_field (v : JsValue) (outer inner : string) :
  only_type_error (field v outer inner).
Proof.
  unfold field. apply only_type_error_bind; [| intros o]; apply only_type_error_get.
Qed.

Lemma only_type_error_field_toString (v : JsValue) (outer inner : string) :
  only_type_error (field_toString v outer inner).
Proof.
  unfold field_toString. apply only_type_error_bind.
  - apply only_type_error_field.
  - intros x. apply only_type_error_toString.
Qed.

Lemma only_type_error_field_on_off (v : JsValue) (outer inner : string) :
  only_type_error (field_on_off v outer inner).
Proof.
  unfold field_on_off. apply only_type_error_bind.
  - apply only_type_error_field.
  - intros x. apply only_type_error_normal.
Qed.

Ltac only_type_errors :=
  repeat first
    [ apply only_type_error_normal
    | apply only_type_error_field
    | apply only_type_error_field_toString
    | apply only_type_error_field_on_off
    | apply only_type_error_bind; [| intros ?] ].

(** The last branch, [throw new Error('unimplemented')], is reached by the
    objects that have none of the six keys, and by nothing else. *)
Lemma display_ir_code_unimplemented (ir_code : JsValue) :
  display_ir_code ir_code = Throw (Error "unimplemented")
  <-> (exists props : list (string * JsValue),
         ir_code = JsObject props
         /\ Forall (fun t => own_property t props = None) tags)
      \/ (exists elems : list JsValue, ir_code = JsArray elems).
Proof.
  split.
  - intros Hthrow.
    destruct ir_code as [| s | n | b | props | elems]; try discriminate Hthrow;
      [left | right; eexists; reflexivity].
    exists props. split; [reflexivity |].
    unfold display_ir_code in Hthrow. cbn [has_property bind] in Hthrow.
    repeat match goal with |- Forall _ _ => constructor end;
      repeat match type of Hthrow with
        | context [own_property ?key props] =>
            destruct (own_property key props) eqn:?; [| try reflexivity]
        end;
      try reflexivity;
      exfalso;
      match type of Hthrow with
      | ?c = Throw (Error _) =>
          assert (Honly : only_type_error c) by only_type_errors;
          specialize (Honly _ Hthrow); discriminate Honly
      end.
  - intros [(props & -> & Hnone) | (elems & ->)]; [| reflexivity].
    unfold tags in Hnone.
    repeat match goal with
      | H : Forall _ (_ :: _) |- _ =>
          apply List.Forall_cons_iff in H; destruct H as [? H]
      end.
    unfold display_ir_code. cbn [has_property bind].
    repeat match goal with H : own_property _ props = None |- _ => rewrite H; clear H end.
    reflexivity.
Qed.

(** The rendering of the tag [Unknown]. *)
Lemma display_ir_code_unknown (frames : list JsValue) :
  display_ir_code (to_object (Unknown frames))
  = Normal [ descriptions_item "manufacturer" "manufacturer" (JsString "不明");
             descriptions_item "device" "device" (JsString "不明") ].
Proof. reflexivity. Qed.

(** C4: every control code, whose tag is one of Sirc, PanasonicHvac,
    DaikinHvac, HitachiHvac, MitsubishiElectricHvac, Unknown, is rendered:
    [display_ir_code] returns a non-empty list of items and throws nothing,
    neither the error of its last branch nor a type error; the tag Unknown
    is rendered as manufacturer and device both unknown, and no code of
    another tag has that rendering. *)
Theorem display_ir_code_renders (c : InfraredRemoteControlCode) :
  In (tag c) tags
  /\ (exists rendering : list DescriptionsItem,
        display_ir_code (to_object c) = Normal rendering /\ rendering <> [])
  /\ (forall e : JsError, display_ir_code (to_object c) <> Throw e)
  /\ (forall frames : list JsValue,
        display_ir_code (to_object (Unknown frames))
        = Normal [ descriptions_item "manufacturer" "manufacturer" (JsString "不明");
                   descriptions_item "device" "device" (JsString "不明") ])
  /\ (forall frames : list JsValue,
        display_ir_code (to_object c) = display_ir_code (to_object (Unknown frames)) ->
        tag c = "Unknown").
Proof.
  split; [destruct c; cbn; tauto |].
  split; [destruct c; eexists; (split; [reflexivity | discriminate]) |].
  split; [intros e; destruct c; discriminate |].
  split; [intros frames; reflexivity |].
  intros frames. destruct c; try reflexivity; discriminate.
Qed.

End ControlCodeFacts.

(** ** Ingestion of the serial receive text *)

Section SerialFacts.

Import SerialConnectionEffect.

Example split_lines_crlf :
  split_lines ("{}" +:+ String CR (String LF ("12" +:+ String LF "")))
  = ["{}"; "12"; ""].
Proof. reflexivity. Qed.

Lemma split_lines_nonempty (text : string) : split_lines text <> [].
Proof.
  destruct text as [| c rest]; [discriminate |].
  cbn [split_lines].
  destruct (Ascii.eqb c LF); [discriminate |].
  destruct (Ascii.eqb c CR), rest as [| c' rest'];
    try destruct (Ascii.eqb c' LF); try discriminate;
    destruct (split_lines _); discriminate.
Qed.

(** A text that splits into one line is that line. *)
Lemma split_lines_single (text : string) :
  length (split_lines text) = 1%nat -> split_lines text = [text].
Proof.
  induction text as [| c rest IH]; [reflexivity |].
  assert (Hsame :
    length (match split_lines rest with
            | l :: ls => String c l :: ls
            | [] => [String c EmptyString]
            end) = 1%nat ->
    match split_lines rest with
    | l :: ls => String c l :: ls
    | [] => [String c EmptyString]
    end = [String c rest]).
  { intros Hlen. pose proof (split_lines_nonempty rest) as Hne.
    destruct (split_lines rest) as [| l ls] eqn:Hrest; [contradiction |].
    cbn [length] in Hlen.
    specialize (IH ltac:(cbn [length]; lia)). injection IH as -> ->. reflexivity. }
  pose proof (split_lines_nonempty rest) as Hne.
  cbn [split_lines].
  destruct (Ascii.eqb c LF).
  { cbn [length]. destruct (split_lines rest); [contradiction | cbn [length]; lia]. }
  destruct (Ascii.eqb c CR); [| exact Hsame].
  destruct rest as [| c' rest']; [exact Hsame |].
  destruct (Ascii.eqb c' LF); [| exact Hsame].
  pose proof (split_lines_nonempty rest') as Hne'.
  cbn [length]. destruct (split_lines rest'); [contradiction | cbn [length]; lia].
Qed.

(** [lines.slice(-2)[0]] is the line before the last one, or the only line. *)
Lemma slice_last_two_head {A : Type} (xs : list A) :
  xs <> [] ->
  Js.slice_from xs (-2) !! 0%nat
  = match second_to_last xs with
    | Some x => Some x
    | None => head xs
    end.
Proof.
  intros Hne. unfold second_to_last, Js.slice_from, Js.slice, Js.relative_index.
  assert (Hlen : (0 < length xs)%nat) by (destruct xs; [contradiction | cbn; lia]).
  change (-2 <? 0) with true. cbn match.
  destruct (Z.ltb_spec (Z.of_nat (length xs)) 0) as [? | _]; [lia |].
  rewrite Z.min_id.
  destruct (decide (length xs = 1%nat)) as [Hone | Hmore].
  - destruct xs as [| x [| y xs]]; try discriminate. reflexivity.
  - rewrite Z.max_l by lia.
    rewrite reverse_lookup by lia.
    rewrite lookup_take_lt by lia. rewrite lookup_drop.
    replace (Z.to_nat (Z.of_nat (length xs) + -2) + 0)%nat with (length xs - 2)%nat by lia.
    destruct (lookup_lt_is_Some_2 xs (length xs - 2)%nat ltac:(lia)) as [x Hx].
    rewrite Hx. reflexivity.
Qed.

Lemma considered_line_spec (text : string) :
  Js.slice_from (split_lines text) (-2) !! 0%nat = Some (considered_line text).
Proof.
  rewrite slice_last_two_head by apply split_lines_nonempty.
  unfold considered_line.
  destruct (second_to_last (split_lines text)) as [line |] eqn:Hsecond; [reflexivity |].
  unfold second_to_last in Hsecond.
  apply lookup_ge_None in Hsecond. rewrite length_reverse in Hsecond.
  pose proof (split_lines_nonempty text) as Hne.
  rewrite split_lines_single; [reflexivity |].
  destruct (split_lines text) as [| l [| l' ls]]; [contradiction | reflexivity |].
  cbn [length] in Hsecond. lia.
Qed.

(** C10, as the code has it: on a change of the receive text the effect
    considers one line, the second-to-last line of the text or, where the
    text has no line break, the text itself.  If that line is not empty and
    parses as JSON, the parsed record is appended to the received data and
    the text is cleared; if the line is empty or parsing throws, the
    received data and the text stay as they are. *)
Theorem rxText_effect_ingests {Json : Type}
    (JSON_parse : string -> option Json) (st : Atoms Json) :
  let line := considered_line (rxText st) in
  rxText_effect JSON_parse st
  = if negb (String.eqb line "") then
      match JSON_parse line with
      | Some rx_json => {| rxJsonData := rxJsonData st ++ [rx_json]; rxText := "" |}
      | None => st
      end
    else st.
Proof.
  cbv zeta. unfold rxText_effect. rewrite considered_line_spec. reflexivity.
Qed.

(** C10, as stated, fails on a text without a line break: the text [{}]
    has no second-to-last line, and yet the effect parses it, appends the
    record and clears the text. *)
Lemma rxText_effect_single_line :
  let st := {| rxJsonData := []; rxText := "{}" |} in
  second_to_last (split_lines (rxText st)) = None
  /\ rxText_effect parse_empty_object st = {| rxJsonData := [tt]; rxText := "" |}
  /\ rxText_effect parse_empty_object st <> second_to_last_ingestion parse_empty_object st.
Proof.
  cbv zeta. split; [reflexivity |]. split; [reflexivity | discriminate].
Qed.

End SerialFacts.

(** ** The timing parser *)

Section TimingParserFacts.

Import TimingParser.

Variable is_delimiter : ascii -> bool.
Variable upper_bound : Z.
Variable sep : ascii.

Hypothesis sep_delimiter : is_delimiter sep = true.
Hypothesis digit_not_delimiter : forall c : ascii, is_digit c = true -> is_delimiter c = false.

Lemma append_empty_r (s : string) : s +:+ "" = s.
Proof.
  induction s as [| c s IH]; [reflexivity |].
  change (String c (s +:+ "") = String c s). f_equal. exact IH.
Qed.

Lemma append_snoc (s : string) (c : ascii) (t : string) :
  (s +:+ String c "") +:+ t = s +:+ String c t.
Proof.
  induction s as [| c' s IH]; [reflexivity |].
  change (String c' ((s +:+ String c "") +:+ t) = String c' (s +:+ String c t)).
  f_equal. exact IH.
Qed.

Lemma all_digits_string_of_uint (d : Decimal.uint) :
  all_digits (DecimalString.NilEmpty.string_of_uint d) = true.
Proof. induction d; cbn; auto. Qed.

Lemma number_toString_nonneg (n : Z) :
  0 <= n ->
  exists d : Decimal.uint,
    Js.Number_toString n = DecimalString.NilEmpty.string_of_uint d
    /\ Z.of_uint d = n
    /\ Js.Number_toString n <> "".
Proof.
  intros Hn. unfold Js.Number_toString. destruct n as [| p | p]; [| | lia].
  - exists (Decimal.D0 Decimal.Nil). repeat split. discriminate.
  - exists (Pos.to_uint p). cbn [Z.to_int DecimalString.NilEmpty.string_of_int].
    split; [reflexivity |]. split.
    + unfold Z.of_uint. rewrite DecimalPos.Unsigned.of_to. reflexivity.
    + intros Hempty.
      pose proof (DecimalString.NilEmpty.usu (Pos.to_uint p)) as Husu.
      rewrite Hempty in Husu. cbn in Husu. injection Husu as Hnil.
      pose proof (DecimalPos.Unsigned.of_to p) as Hof. rewrite <- Hnil in Hof.
      discriminate Hof.
Qed.

(** Reading on through a run of digits extends the current token. *)
Lemma tokens_digits (s : string) :
  forall (token rest : string),
    all_digits s = true ->
    tokens is_delimiter token (s +:+ rest) = tokens is_delimiter (token +:+ s) rest.
Proof.
  induction s as [| c s IH]; intros token rest Hs.
  - change ("" +:+ rest) with rest. rewrite append_empty_r. reflexivity.
  - cbn [all_digits] in Hs. apply andb_prop in Hs as [Hc Hs].
    change (String c s +:+ rest) with (String c (s +:+ rest)).
    cbn [tokens]. rewrite (digit_not_delimiter c Hc).
    rewrite IH by assumption. rewrite append_snoc. reflexivity.
Qed.

Lemma tokens_concat (strs : list string) :
  Forall (fun s => all_digits s = true /\ s <> "") strs ->
  tokens is_delimiter "" (String.concat (String sep "") strs) = strs.
Proof.
  induction 1 as [| s strs [Hs Hne] Hstrs IH]; [reflexivity |].
  assert (Hflush : flush s = [s]).
  { unfold flush. destruct (String.eqb_spec s ""); [contradiction | reflexivity]. }
  destruct strs as [| s' strs].
  - cbn [String.concat]. rewrite <- (append_empty_r s) at 1.
    rewrite tokens_digits by assumption. exact Hflush.
  - change (String.concat (String sep "") (s :: s' :: strs))
      with (s +:+ String sep "" +:+ String.concat (String sep "") (s' :: strs)).
    rewrite tokens_digits by assumption.
    change (String sep "" +:+ ?t) with (String sep t).
    change ("" +:+ s) with s.
    cbn [tokens]. rewrite sep_delimiter, IH, Hflush. reflexivity.
Qed.

Lemma durations_of_number_strings (ns : list Z) :
  Forall (fun n => 0 <= n <= upper_bound) ns ->
  durations_of_tokens upper_bound (map Js.Number_toString ns) = inr ns.
Proof.
  induction 1 as [| n ns [Hlo Hhi] _ IH]; [reflexivity |].
  cbn [map durations_of_tokens]. rewrite IH.
  destruct (number_toString_nonneg n Hlo) as (d & Hd & Hof & _).
  unfold duration_of_token. rewrite Hd, DecimalString.NilEmpty.usu, Hof.
  destruct (Z.ltb_spec upper_bound n); [lia | reflexivity].
Qed.

Lemma pairs_of_durations_flat (pairs : list MarkAndSpaceMicros) :
  pairs_of_durations (flat_map (fun p => [mark p; space p]) pairs) = pairs.
Proof.
  induction pairs as [| [m s] pairs IH]; [reflexivity |].
  cbn [flat_map app mark space pairs_of_durations]. rewrite IH. reflexivity.
Qed.

(** C5, as the specified parser has it: a non-empty sequence of pairs
    whose marks and spaces are non-negative and not above the upper bound,
    rendered to text and parsed, gives back the sequence. *)
Theorem parse_render_round_trip (pairs : list MarkAndSpaceMicros) :
  pairs <> [] ->
  Forall (fun p => 0 <= mark p <= upper_bound /\ 0 <= space p <= upper_bound) pairs ->
  wasm_parse_infrared_code is_delimiter upper_bound (render sep pairs) = inr pairs.
Proof.
  intros Hne Hrange.
  set (ns := flat_map (fun p => [mark p; space p]) pairs).
  assert (Hns : Forall (fun n => 0 <= n <= upper_bound) ns).
  { subst ns. clear Hne. induction Hrange as [| p pairs' [Hm Hs] _ IH]; [constructor |].
    cbn [flat_map app]. constructor; [tauto |]. constructor; [tauto | exact IH]. }
  unfold wasm_parse_infrared_code, render. fold ns.
  rewrite tokens_concat.
  - destruct (map Js.Number_toString ns) as [| tok toks] eqn:Hmap.
    + destruct pairs as [| p pairs']; [contradiction | discriminate Hmap].
    + rewrite <- Hmap, durations_of_number_strings by assumption.
      subst ns. rewrite pairs_of_durations_flat. reflexivity.
  - apply Forall_map. eapply Forall_impl; [exact Hns |].
    intros n [Hlo _]. cbn beta.
    destruct (number_toString_nonneg n Hlo) as (d & Hd & _ & Hnon).
    split; [rewrite Hd; apply all_digits_string_of_uint | exact Hnon].
Qed.

End TimingParserFacts.

Section TimingParserExamples.

Import TimingParser.

Example parse_malformed :
  wasm_parse_infrared_code comma_or_blank one_second "abc,123" = inl MalformedInput.
Proof. reflexivity. Qed.

Example parse_negative :
  wasm_parse_infrared_code comma_or_blank one_second "9000,-4500" = inl MalformedInput.
Proof. reflexivity. Qed.

Example parse_out_of_range :
  wasm_parse_infrared_code comma_or_blank one_second "9000,1000001" = inl OutOfRange.
Proof. reflexivity. Qed.

Example parse_odd_count :
  wasm_parse_infrared_code comma_or_blank one_second "9000, 4500, 560"
  = inr [ {| mark := 9000; space := 4500 |}; {| mark := 560; space := 0 |} ].
Proof. reflexivity. Qed.

Lemma digit_not_comma_or_blank (c : ascii) :
  is_digit c = true -> comma_or_blank c = false.
Proof.
  destruct c as [[] [] [] [] [] [] [] []]; vm_compute; congruence.
Defined.

Lemma parse_render_round_trip_witness :
  let pairs := [ {| mark := 9000; space := 4500 |}; {| mark := 560; space := 1690 |} ] in
  render "," pairs = "9000,4500,560,1690"
  /\ wasm_parse_infrared_code comma_or_blank one_second (render "," pairs) = inr pairs.
Proof.
  intros pairs. split; [reflexivity |].
  apply (parse_render_round_trip comma_or_blank one_second ",").
  - reflexivity.
  - exact digit_not_comma_or_blank.
  - discriminate.
  - repeat constructor; vm_compute; congruence.
Defined.

(** C5, as stated, fails on the empty sequence: it renders to the empty
    text, which the parser rejects as malformed. *)
Lemma parse_render_empty_sequence :
  render "," [] = ""
  /\ wasm_parse_infrared_code comma_or_blank one_second (render "," []) = inl MalformedInput
  /\ wasm_parse_infrared_code comma_or_blank one_second (render "," []) <> inr [].
Proof. split; [reflexivity |]. split; [reflexivity | discriminate]. Qed.

End TimingParserExamples.

(** ** The decode pipeline in the component *)

Section AppFacts.

Import App.

(** A capture is decoded: one control code is shown. *)
Example demo_decodes :
  shown_codes (demo_session ["9000,4500"])
  = Some [ [ [ {| mark := 9000; space := 4500 |} ] ] ].
Proof. vm_compute. reflexivity. Qed.

(** Typed into the fresh component, a text that does not parse shows no
    control code. *)
Example demo_malformed_first :
  shown_codes (demo_session ["abc,123"]) = Some [].
Proof. vm_compute. reflexivity. Qed.

(** Typed after a capture, the same text leaves the codes of the capture on
    display. *)
Example demo_malformed_second :
  shown_codes (demo_session ["9000,4500"; "abc,123"])
  = Some [ [ [ {| mark := 9000; space := 4500 |} ] ] ].
Proof. vm_compute. reflexivity. Qed.

Context {DemodulatedFrame DecordedFrame ControlCode : Type}.
Variable wasm_parse_infrared_code : string -> Result (list MarkAndSpaceMicros).
Variable wasm_decode_phase1 :
  list MarkAndSpaceMicros -> Result (list (list MarkAndSpaceMicros)).
Variable wasm_decode_phase2 : list MarkAndSpaceMicros -> Result DemodulatedFrame.
Variable wasm_decode_phase3 : DemodulatedFrame -> Result DecordedFrame.
Variable wasm_decode_phase4 : list DecordedFrame -> Result (list ControlCode).

Abbreviation effects' :=
  (effects wasm_parse_infrared_code wasm_decode_phase1 wasm_decode_phase2
     wasm_decode_phase3 wasm_decode_phase4).

Abbreviation settle' :=
  (settle wasm_parse_infrared_code wasm_decode_phase1 wasm_decode_phase2
     wasm_decode_phase3 wasm_decode_phase4).

Abbreviation type_text' :=
  (type_text wasm_parse_infrared_code wasm_decode_phase1 wasm_decode_phase2
     wasm_decode_phase3 wasm_decode_phase4).

(** No effect is due: the component has settled. *)
Lemma settle_quiet (fuel : nat)
    (prev : option (@State DemodulatedFrame DecordedFrame ControlCode))
    (state : State) (fresh : nat) :
  existsb fst (effects' prev state) = false ->
  settle' (S fuel) prev state fresh = Settled state fresh.
Proof.
  intros Hquiet. cbn [settle]. rewrite Hquiet. reflexivity.
Qed.

(** Some effect is due: the calls of the due effects give the next render. *)
Lemma settle_round (fuel : nat)
    (prev : option (@State DemodulatedFrame DecordedFrame ControlCode))
    (state : State) (fresh : nat) (calls : list SetState) :
  existsb fst (effects' prev state) = true ->
  run_effects (effects' prev state) state fresh = Some calls ->
  settle' (S fuel) prev state fresh
  = settle' fuel (Some state) (apply_setState calls state) (fresh + 5).
Proof.
  intros Hdue Hrun. cbn [settle]. rewrite Hdue, Hrun. reflexivity.
Qed.

(** A due effect rethrows: the component crashes. *)
Lemma settle_crash (fuel : nat)
    (prev : option (@State DemodulatedFrame DecordedFrame ControlCode))
    (state : State) (fresh : nat) :
  existsb fst (effects' prev state) = true ->
  run_effects (effects' prev state) state fresh = None ->
  settle' (S fuel) prev state fresh = Crashed.
Proof.
  intros Hdue Hrun. cbn [settle]. rewrite Hdue, Hrun. reflexivity.
Qed.

Ltac projections :=
  cbn [existsb fst input_text ir_mark_and_spaces ir_splitted_frames
         ir_demodulated_frames ir_decoded_frames ir_control_codes ref elems
         with_input_text with_alert with_ir_mark_and_spaces with_ir_splitted_frames
         with_ir_demodulated_frames with_ir_decoded_frames with_ir_control_codes
         apply_setState fold_left app].

Ltac changed :=
  repeat match goal with
    | |- context [Nat.eqb ?a ?b] =>
        replace (Nat.eqb a b) with false by (symmetry; apply Nat.eqb_neq; lia)
    end.

Ltac dependencies :=
  unfold effects; projections;
  rewrite ?Nat.eqb_refl, ?String.eqb_refl;
  repeat match goal with
    | H : input_text _ = input_text _ |- _ => rewrite H, String.eqb_refl; clear H
    | H : ref _ = ref _ |- _ => rewrite H, ?Nat.eqb_refl; clear H
    end;
  rewrite ?Nat.eqb_refl, ?String.eqb_refl;
  changed; cbn [negb orb run_effects].

(** The last effect: the decoded frames changed, nothing else did. *)
Lemma cascade_decoded (fuel : nat)
    (prev state : @State DemodulatedFrame DecordedFrame ControlCode) (fresh : nat) :
  input_text prev = input_text state ->
  ref (ir_mark_and_spaces prev) = ref (ir_mark_and_spaces state) ->
  ref (ir_splitted_frames prev) = ref (ir_splitted_frames state) ->
  ref (ir_demodulated_frames prev) = ref (ir_demodulated_frames state) ->
  ref (ir_decoded_frames prev) <> ref (ir_decoded_frames state) ->
  ends_with (settle' (S (S fuel)) (Some prev) state fresh)
    (caught wasm_decode_phase4 (elems (ir_decoded_frames state))).
Proof.
  intros Htext Hpairs Hframes Hdemodulated Hdecoded.
  assert (Hdue : existsb fst (effects' (Some prev) state) = true)
    by (dependencies; reflexivity).
  unfold caught.
  destruct (elems (ir_decoded_frames state)) as [| frame frames] eqn:Helems.
  - erewrite settle_round; [| exact Hdue |].
    2: { dependencies. unfold effect_ir_decoded_frames. rewrite Helems. reflexivity. }
    rewrite settle_quiet by (dependencies; reflexivity).
    eexists _, _. split; reflexivity.
  - destruct (wasm_decode_phase4 (frame :: frames)) as [codes | [msg |]] eqn:Hphase.
    + erewrite settle_round; [| exact Hdue |].
      2: { dependencies. unfold effect_ir_decoded_frames. rewrite Helems, Hphase.
           reflexivity. }
      rewrite settle_quiet by (dependencies; reflexivity).
      eexists _, _. split; reflexivity.
    + erewrite settle_round; [| exact Hdue |].
      2: { dependencies. unfold effect_ir_decoded_frames. rewrite Helems, Hphase.
           reflexivity. }
      rewrite settle_quiet by (dependencies; reflexivity).
      eexists _, _. split; reflexivity.
    + apply settle_crash; [exact Hdue |].
      dependencies. unfold effect_ir_decoded_frames. rewrite Helems, Hphase.
      reflexivity.
Qed.

(** The effect before it: the demodulated frames changed. *)
Lemma cascade_demodulated (fuel : nat)
    (prev state : @State DemodulatedFrame DecordedFrame ControlCode) (fresh : nat) :
  input_text prev = input_text state ->
  ref (ir_mark_and_spaces prev) = ref (ir_mark_and_spaces state) ->
  ref (ir_splitted_frames prev) = ref (ir_splitted_frames state) ->
  ref (ir_demodulated_frames prev) <> ref (ir_demodulated_frames state) ->
  ref (ir_decoded_frames prev) = ref (ir_decoded_frames state) ->
  older_than fresh state ->
  ends_with (settle' (S (S (S fuel))) (Some prev) state fresh)
    (match caught (map_throwing wasm_decode_phase3) (elems (ir_demodulated_frames state)) with
     | None => None
     | Some decoded => caught wasm_decode_phase4 decoded
     end).
Proof.
  intros Htext Hpairs Hframes Hdemodulated Hdecoded (_ & _ & _ & Hold & _).
  assert (Hdue : existsb fst (effects' (Some prev) state) = true)
    by (dependencies; reflexivity).
  unfold caught at 1.
  destruct (elems (ir_demodulated_frames state)) as [| frame frames] eqn:Helems.
  - erewrite settle_round; [| exact Hdue |].
    2: { dependencies. unfold effect_ir_demodulated_frames. rewrite Helems. reflexivity. }
    apply cascade_decoded; projections; try reflexivity. lia.
  - destruct (map_throwing wasm_decode_phase3 (frame :: frames))
      as [decoded | [msg |]] eqn:Hphase.
    + erewrite settle_round; [| exact Hdue |].
      2: { dependencies. unfold effect_ir_demodulated_frames. rewrite Helems, Hphase.
           reflexivity. }
      apply cascade_decoded; projections; try reflexivity. lia.
    + erewrite settle_round; [| exact Hdue |].
      2: { dependencies. unfold effect_ir_demodulated_frames. rewrite Helems, Hphase.
           reflexivity. }
      apply cascade_decoded; projections; try reflexivity. lia.
    + apply settle_crash; [exact Hdue |].
      dependencies. unfold effect_ir_demodulated_frames. rewrite Helems, Hphase.
      reflexivity.
Qed.

(** The effect before that: the splitted frames changed. *)
Lemma cascade_splitted (fuel : nat)
    (prev state : @State DemodulatedFrame DecordedFrame ControlCode) (fresh : nat) :
  input_text prev = input_text state ->
  ref (ir_mark_and_spaces prev) = ref (ir_mark_and_spaces state) ->
  ref (ir_splitted_frames prev) <> ref (ir_splitted_frames state) ->
  ref (ir_demodulated_frames prev) = ref (ir_demodulated_frames state) ->
  ref (ir_decoded_frames prev) = ref (ir_decoded_frames state) ->
  older_than fresh state ->
  ends_with (settle' (S (S (S (S fuel)))) (Some prev) state fresh)
    (match caught (map_throwing wasm_decode_phase2) (elems (ir_splitted_frames state)) with
     | None => None
     | Some demodulated =>
         match caught (map_throwing wasm_decode_phase3) demodulated with
         | None => None
         | Some decoded => caught wasm_decode_phase4 decoded
         end
     end).
Proof.
  intros Htext Hpairs Hframes Hdemodulated Hdecoded Hold.
  assert (Hold' := Hold). destruct Hold' as (? & ? & ? & ? & ?).
  assert (Hdue : existsb fst (effects' (Some prev) state) = true)
    by (dependencies; reflexivity).
  unfold caught at 1.
  destruct (elems (ir_splitted_frames state)) as [| frame frames] eqn:Helems.
  - erewrite settle_round; [| exact Hdue |].
    2: { dependencies. unfold effect_ir_splitted_frames. rewrite Helems. reflexivity. }
    apply cascade_demodulated; unfold older_than; projections; try reflexivity; lia.
  - destruct (map_throwing wasm_decode_phase2 (frame :: frames))
      as [demodulated | [msg |]] eqn:Hphase.
    + erewrite settle_round; [| exact Hdue |].
      2: { dependencies. unfold effect_ir_splitted_frames. rewrite Helems, Hphase.
           reflexivity. }
      apply cascade_demodulated; unfold older_than; projections; try reflexivity; lia.
    + erewrite settle_round; [| exact Hdue |].
      2: { dependencies. unfold effect_ir_splitted_frames. rewrite Helems, Hphase.
           reflexivity. }
      apply cascade_demodulated; unfold older_than; projections; try reflexivity; lia.
    + apply settle_crash; [exact Hdue |].
      dependencies. unfold effect_ir_splitted_frames. rewrite Helems, Hphase.
      reflexivity.
Qed.

(** The first effect of the cascade: the parsed pairs changed. *)
Lemma cascade_pairs (fuel : nat)
    (prev state : @State DemodulatedFrame DecordedFrame ControlCode) (fresh : nat) :
  input_text prev = input_text state ->
  ref (ir_mark_and_spaces prev) <> ref (ir_mark_and_spaces state) ->
  ref (ir_splitted_frames prev) = ref (ir_splitted_frames state) ->
  ref (ir_demodulated_frames prev) = ref (ir_demodulated_frames state) ->
  ref (ir_decoded_frames prev) = ref (ir_decoded_frames state) ->
  older_than fresh state ->
  ends_with (settle' (S (S (S (S (S fuel))))) (Some prev) state fresh)
    (decode wasm_decode_phase1 wasm_decode_phase2 wasm_decode_phase3 wasm_decode_phase4
       (elems (ir_mark_and_spaces state))).
Proof.
  intros Htext Hpairs Hframes Hdemodulated Hdecoded Hold.
  assert (Hold' := Hold). destruct Hold' as (? & ? & ? & ? & ?).
  assert (Hdue : existsb fst (effects' (Some prev) state) = true)
    by (dependencies; reflexivity).
  unfold decode. unfold caught at 1.
  destruct (elems (ir_mark_and_spaces state)) as [| pair pairs] eqn:Helems.
  - erewrite settle_round; [| exact Hdue |].
    2: { dependencies. unfold effect_ir_mark_and_spaces. rewrite Helems. reflexivity. }
    apply cascade_splitted; unfold older_than; projections; try reflexivity; lia.
  - destruct (wasm_decode_phase1 (pair :: pairs)) as [frames | [msg |]] eqn:Hphase.
    + erewrite settle_round; [| exact Hdue |].
      2: { dependencies. unfold effect_ir_mark_and_spaces. rewrite Helems, Hphase.
           reflexivity. }
      apply cascade_splitted; unfold older_than; projections; try reflexivity; lia.
    + erewrite settle_round; [| exact Hdue |].
      2: { dependencies. unfold effect_ir_mark_and_spaces. rewrite Helems, Hphase.
           reflexivity. }
      apply cascade_splitted; unfold older_than; projections; try reflexivity; lia.
    + apply settle_crash; [exact Hdue |].
      dependencies. unfold effect_ir_mark_and_spaces. rewrite Helems, Hphase.
      reflexivity.
Qed.

(** Where the parser accepts the text, what the component shows in the end
    is decoded from the parsed pairs alone: the state the text was typed
    into plays no part in it. *)
Theorem type_text_parsed
    (state : @State DemodulatedFrame DecordedFrame ControlCode)
    (fresh : nat) (text : string) (pairs : list MarkAndSpaceMicros) :
  text <> "" -> input_text state <> text -> older_than fresh state ->
  wasm_parse_infrared_code text = Returns pairs ->
  ends_with (type_text' state fresh text)
    (decode wasm_decode_phase1 wasm_decode_phase2 wasm_decode_phase3 wasm_decode_phase4
       pairs).
Proof.
  intros Htext Hnew Hold Hparse.
  assert (Hold' := Hold). destruct Hold' as (? & ? & ? & ? & ?).
  apply String.eqb_neq in Htext, Hnew.
  unfold type_text, handleParse, rounds.
  cbn [apply_setState fold_left].
  erewrite settle_round; cycle 1.
  - unfold effects. projections. rewrite Hnew. reflexivity.
  - unfold effects. projections. rewrite !Nat.eqb_refl, Hnew. cbn [negb run_effects].
    unfold effect_input_text. projections. rewrite Htext, Hparse. reflexivity.
  - apply (cascade_pairs 2); unfold older_than; projections; try reflexivity; lia.
Qed.

(** Every array an effect creates is the object it was given as fresh, so
    the references of the state stay below the next fresh one. *)
Lemma effects_allocate_fresh
    (prev : option (@State DemodulatedFrame DecordedFrame ControlCode)) (state : State) :
  Forall (fun e => allocates_fresh (snd e)) (effects' prev state).
Proof.
  unfold effects.
  repeat match goal with |- Forall _ _ => constructor end;
    unfold allocates_fresh; cbn [snd]; intros s f calls Hcalls bound st Hf Hb Hold;
    destruct Hold as (? & ? & ? & ? & ?); unfold first_fresh in Hb.
  - unfold effect_input_text in Hcalls.
    destruct (String.eqb (input_text s) "").
    + injection Hcalls as <-. unfold older_than. projections. cbn. lia.
    + destruct (wasm_parse_infrared_code (input_text s)) as [pairs | [msg |]];
        [| | discriminate]; injection Hcalls as <-;
        unfold older_than; projections; lia.
  - unfold effect_ir_mark_and_spaces in Hcalls.
    destruct (elems (ir_mark_and_spaces s)).
    + injection Hcalls as <-. unfold older_than. projections. lia.
    + destruct (wasm_decode_phase1 _) as [out | [msg |]];
        [| | discriminate]; injection Hcalls as <-;
        unfold older_than; projections; lia.
  - unfold effect_ir_splitted_frames in Hcalls.
    destruct (elems (ir_splitted_frames s)).
    + injection Hcalls as <-. unfold older_than. projections. lia.
    + destruct (map_throwing wasm_decode_phase2 _) as [out | [msg |]];
        [| | discriminate]; injection Hcalls as <-;
        unfold older_than; projections; lia.
  - unfold effect_ir_demodulated_frames in Hcalls.
    destruct (elems (ir_demodulated_frames s)).
    + injection Hcalls as <-. unfold older_than. projections. lia.
    + destruct (map_throwing wasm_decode_phase3 _) as [out | [msg |]];
        [| | discriminate]; injection Hcalls as <-;
        unfold older_than; projections; lia.
  - unfold effect_ir_decoded_frames in Hcalls.
    destruct (elems (ir_decoded_frames s)).
    + injection Hcalls as <-. unfold older_than. projections. lia.
    + destruct (wasm_decode_phase4 _) as [out | [msg |]];
        [| | discriminate]; injection Hcalls as <-;
        unfold older_than; projections; lia.
Qed.

Lemma apply_setState_app
    (calls more : list (@SetState DemodulatedFrame DecordedFrame ControlCode))
    (st : State) :
  apply_setState (calls ++ more) st = apply_setState more (apply_setState calls st).
Proof. unfold apply_setState. apply fold_left_app. Qed.

Lemma run_effects_older
    (effs : list (bool * @Effect DemodulatedFrame DecordedFrame ControlCode)) :
  Forall (fun e => allocates_fresh (snd e)) effs ->
  forall (state : State) (fresh : nat) (calls : list SetState) (bound : nat) (st : State),
    run_effects effs state fresh = Some calls ->
    (fresh + length effs <= bound)%nat -> (first_fresh <= bound)%nat ->
    older_than bound st -> older_than bound (apply_setState calls st).
Proof.
  induction 1 as [| [due effect] effs Heffect _ IH];
    intros state fresh calls bound st Hrun Hfresh Hbound Hold.
  - injection Hrun as <-. exact Hold.
  - cbn [run_effects] in Hrun. cbn [length] in Hfresh. destruct due.
    + destruct (effect state fresh) as [first |] eqn:Hfirst; [| discriminate].
      destruct (run_effects effs state (S fresh)) as [more |] eqn:Hmore; [| discriminate].
      injection Hrun as <-. rewrite apply_setState_app.
      apply (IH state (S fresh) more); [assumption | lia | assumption |].
      apply (Heffect state fresh first Hfirst); [lia | assumption | assumption].
    + apply (IH state (S fresh) calls); [assumption | lia | assumption | assumption].
Qed.

(** The references of a settled state are below the fresh one it ends
    with. *)
Lemma settle_older (fuel : nat) :
  forall (prev : option (@State DemodulatedFrame DecordedFrame ControlCode))
         (state : State) (fresh : nat) (state' : State) (fresh' : nat),
    (first_fresh <= fresh)%nat -> older_than fresh state ->
    settle' fuel prev state fresh = Settled state' fresh' ->
    (first_fresh <= fresh')%nat /\ older_than fresh' state'.
Proof.
  induction fuel as [| fuel IH]; intros prev state fresh state' fresh' Hfresh Hold Hsettle;
    [discriminate |].
  cbn [settle] in Hsettle.
  destruct (existsb fst (effects' prev state)).
  - destruct (run_effects (effects' prev state) state fresh) as [calls |] eqn:Hrun;
      [| discriminate].
    assert (Hfresh' : (first_fresh <= fresh + 5)%nat) by lia.
    apply (IH (Some state) (apply_setState calls state) (fresh + 5)%nat state' fresh'
             Hfresh'); [| exact Hsettle].
    apply (run_effects_older _ (effects_allocate_fresh prev state) state fresh calls);
      [assumption | cbn [length effects]; lia | lia |].
    destruct Hold as (? & ? & ? & ? & ?). unfold older_than. repeat split; lia.
  - injection Hsettle as <- <-. split; assumption.
Qed.

(** The component settles when it is mounted, with nothing to show. *)
Lemma mount_settled :
  exists (state : @State DemodulatedFrame DecordedFrame ControlCode) (fresh : nat),
    mount wasm_parse_infrared_code wasm_decode_phase1 wasm_decode_phase2
      wasm_decode_phase3 wasm_decode_phase4 = Settled state fresh
    /\ elems (ir_control_codes state) = []
    /\ input_text state = ""
    /\ (first_fresh <= fresh)%nat /\ older_than fresh state.
Proof.
  eexists _, _. split; [vm_compute; reflexivity |].
  unfold older_than, first_fresh. cbn. repeat split; lia.
Qed.

Lemma session_older (texts : list string) :
  forall (state : @State DemodulatedFrame DecordedFrame ControlCode) (fresh : nat)
         (state' : State) (fresh' : nat),
    (first_fresh <= fresh)%nat -> older_than fresh state ->
    session wasm_parse_infrared_code wasm_decode_phase1 wasm_decode_phase2
      wasm_decode_phase3 wasm_decode_phase4 state fresh texts = Settled state' fresh' ->
    (first_fresh <= fresh')%nat /\ older_than fresh' state'.
Proof.
  induction texts as [| text texts IH]; intros state fresh state' fresh' Hfresh Hold Hrun.
  - injection Hrun as <- <-. split; assumption.
  - cbn [session] in Hrun.
    destruct (type_text' state fresh text) as [state1 fresh1 | |] eqn:Htyped;
      try discriminate.
    apply settle_older in Htyped as [Hfresh1 Hold1]; [| assumption | exact Hold].
    exact (IH _ _ _ _ Hfresh1 Hold1 Hrun).
Qed.

(** In a running component, a text the parser accepts ends with the control
    codes decoded from its pairs, whatever was typed before. *)
Theorem run_shows_decoded
    (before : list string) (state : @State DemodulatedFrame DecordedFrame ControlCode)
    (fresh : nat) (text : string) (pairs : list MarkAndSpaceMicros) :
  run wasm_parse_infrared_code wasm_decode_phase1 wasm_decode_phase2
    wasm_decode_phase3 wasm_decode_phase4 before = Settled state fresh ->
  text <> "" -> input_text state <> text ->
  wasm_parse_infrared_code text = Returns pairs ->
  ends_with (type_text' state fresh text)
    (decode wasm_decode_phase1 wasm_decode_phase2 wasm_decode_phase3 wasm_decode_phase4
       pairs).
Proof.
  intros Hrun Htext Hnew Hparse. unfold run in Hrun.
  destruct mount_settled as (state0 & fresh0 & Hmount & _ & _ & Hfresh0 & Hold0).
  rewrite Hmount in Hrun.
  apply session_older in Hrun as [_ Hold]; [| assumption | assumption].
  apply type_text_parsed; assumption.
Qed.

(** When the parser throws an [Error], the component only changes its alert:
    every array of the state, the parsed pairs and all that was decoded from
    them, stays what it was before the text was typed. *)
Lemma type_text_parse_error
    (state : @State DemodulatedFrame DecordedFrame ControlCode)
    (fresh : nat) (text msg : string) :
  text <> "" -> input_text state <> text ->
  wasm_parse_infrared_code text = Throws (ErrorInstance msg) ->
  type_text' state fresh text
  = Settled (with_alert (alert_error msg) (with_input_text text state)) (fresh + 5).
Proof.
  intros Htext Hnew Hparse.
  apply String.eqb_neq in Htext, Hnew.
  unfold type_text, handleParse, rounds.
  cbn [apply_setState fold_left].
  rewrite (settle_round _ _ _ _ [SetUpdater (fun st => with_alert (alert_error msg) st)]).
  - apply settle_quiet. unfold effects.
    cbn [existsb fst apply_setState fold_left input_text with_input_text with_alert
           ir_mark_and_spaces ir_splitted_frames ir_demodulated_frames ir_decoded_frames].
    rewrite !Nat.eqb_refl, String.eqb_refl. reflexivity.
  - unfold effects.
    cbn [existsb fst input_text with_input_text].
    rewrite Hnew. reflexivity.
  - unfold effects.
    cbn [input_text with_input_text ir_mark_and_spaces ir_splitted_frames
           ir_demodulated_frames ir_decoded_frames].
    rewrite !Nat.eqb_refl, Hnew. cbn [negb run_effects].
    unfold effect_input_text. cbn [input_text with_input_text].
    rewrite Htext, Hparse. reflexivity.
Qed.

Lemma session_app (texts more : list string) :
  forall (state : @State DemodulatedFrame DecordedFrame ControlCode) (fresh : nat),
    session wasm_parse_infrared_code wasm_decode_phase1 wasm_decode_phase2
      wasm_decode_phase3 wasm_decode_phase4 state fresh (texts ++ more)
    = match session wasm_parse_infrared_code wasm_decode_phase1 wasm_decode_phase2
              wasm_decode_phase3 wasm_decode_phase4 state fresh texts with
      | Settled state' fresh' =>
          session wasm_parse_infrared_code wasm_decode_phase1 wasm_decode_phase2
            wasm_decode_phase3 wasm_decode_phase4 state' fresh' more
      | other => other
      end.
Proof.
  induction texts as [| text texts IH]; intros state fresh; [reflexivity |].
  cbn [app session].
  destruct (type_text' state fresh text) as [state1 fresh1 | |]; [apply IH | |]; reflexivity.
Qed.

(** C6, on the code: the control codes the component shows for a text
    depend on what was typed before.  Let the parser throw an [Error] on a
    text.  Typed into a running component, the text leaves on display the
    control codes that were shown before it; typed into the component that
    has just started, it ends with no control code.  So the same input, run
    twice, ends with two different sequences as soon as the running
    component had decoded anything. *)
Theorem parse_error_keeps_previous_codes
    (before : list string) (state : @State DemodulatedFrame DecordedFrame ControlCode)
    (fresh : nat) (text msg : string) :
  run wasm_parse_infrared_code wasm_decode_phase1 wasm_decode_phase2
    wasm_decode_phase3 wasm_decode_phase4 before = Settled state fresh ->
  text <> "" -> input_text state <> text ->
  wasm_parse_infrared_code text = Throws (ErrorInstance msg) ->
  shown_codes
    (run wasm_parse_infrared_code wasm_decode_phase1 wasm_decode_phase2
       wasm_decode_phase3 wasm_decode_phase4 (before ++ [text]))
  = shown_codes
      (run wasm_parse_infrared_code wasm_decode_phase1 wasm_decode_phase2
         wasm_decode_phase3 wasm_decode_phase4 before)
  /\ shown_codes
       (run wasm_parse_infrared_code wasm_decode_phase1 wasm_decode_phase2
          wasm_decode_phase3 wasm_decode_phase4 [text])
     = Some [].
Proof.
  intros Hrun Htext Hnew Hparse.
  destruct mount_settled as (state0 & fresh0 & Hmount & Hcodes0 & Htext0 & _).
  unfold run in *. rewrite Hmount in *. split.
  - rewrite session_app, Hrun. cbn [session].
    rewrite (type_text_parse_error state fresh text msg) by assumption. reflexivity.
  - cbn [session].
    rewrite (type_text_parse_error state0 fresh0 text msg);
      [| assumption | congruence | assumption].
    cbn [shown_codes with_alert with_input_text ir_control_codes]. rewrite Hcodes0.
    reflexivity.
Qed.

End AppFacts.

Lemma run_shows_decoded_witness :
  App.ends_with
    (App.type_text App.demo_parse App.demo_phase1 App.demo_phase2 App.demo_phase3
       App.demo_phase4 (App.demo_state ["560,1690"; "abc,123"])
       (App.demo_fresh ["560,1690"; "abc,123"]) "9000,4500")
    (Some [ [ [ {| mark := 9000; space := 4500 |} ] ] ]).
Proof.
  apply (run_shows_decoded App.demo_parse App.demo_phase1 App.demo_phase2 App.demo_phase3
           App.demo_phase4 ["560,1690"; "abc,123"] _ _ "9000,4500"
           [ {| mark := 9000; space := 4500 |} ]).
  - vm_compute. reflexivity.
  - discriminate.
  - vm_compute. discriminate.
  - reflexivity.
Defined.

Lemma parse_error_keeps_previous_codes_witness :
  App.shown_codes (App.demo_session ["9000,4500"; "abc,123"])
  = Some [ [ [ {| mark := 9000; space := 4500 |} ] ] ]
  /\ App.shown_codes (App.demo_session ["abc,123"]) = Some [].
Proof.
  destruct (parse_error_keeps_previous_codes App.demo_parse App.demo_phase1
              App.demo_phase2 App.demo_phase3 App.demo_phase4 ["9000,4500"]
              (App.demo_state ["9000,4500"]) (App.demo_fresh ["9000,4500"])
              "abc,123" "MalformedInput") as [Hstale Hfresh].
  - vm_compute. reflexivity.
  - discriminate.
  - vm_compute. discriminate.
  - reflexivity.
  - split; [| exact Hfresh].
    unfold App.demo_session. cbn [app] in Hstale. rewrite Hstale.
    vm_compute. reflexivity.
Defined.

(** ** Reading the hexadecimal display *)

Section HexTextFacts.

Import IrDecordedFrame HexText.

(** The text of [to_hex_string] is [hex_text] of the elements. *)
Lemma to_hex_string_text (msb_first : bool) (octets : Ref) (h : Store) (elems : Uint8Array) :
  h !! octets = Some elems ->
  exists h' : Store, to_hex_string msb_first octets h = Some (hex_text msb_first elems, h').
Proof.
  intros Helems. unfold to_hex_string, hex_text. destruct msb_first.
  - unfold Uint8Array_reduce. rewrite Helems. eexists. reflexivity.
  - unfold Uint8Array_slice. rewrite Helems.
    unfold Uint8Array_reverse. rewrite lookup_insert_eq.
    unfold Uint8Array_reduce. rewrite lookup_insert_eq.
    rewrite slice_from_nonneg by lia. change (Z.to_nat 0) with 0%nat. rewrite drop_0.
    eexists. reflexivity.
Qed.

(** The reduction [2 * acc + x] reads the elements as binary digits. *)
Lemma reduce_binary_value (digits : list Z) :
  forall acc : Z,
    fold_left (fun acc x => 2 * acc + x) digits acc
    = acc * 2 ^ Z.of_nat (length digits) + binary_value digits.
Proof.
  induction digits as [| d rest IH]; intros acc.
  - cbn. lia.
  - cbn [fold_left binary_value length]. rewrite IH, Nat2Z.inj_succ, Z.pow_succ_r by lia.
    lia.
Qed.

Lemma binary_value_nonneg (digits : list Z) :
  Forall (fun x => 0 <= x) digits -> 0 <= binary_value digits.
Proof.
  induction 1 as [| d rest Hd _ IH]; cbn [binary_value]; [lia |].
  assert (0 <= 2 ^ Z.of_nat (length rest)) by (apply Z.pow_nonneg; lia). nia.
Qed.

Lemma binary_value_bits (bits : list Z) :
  Forall is_bit bits -> 0 <= binary_value bits < 2 ^ Z.of_nat (length bits).
Proof.
  induction 1 as [| b rest Hb _ IH]; cbn [binary_value length]; [cbn; lia |].
  rewrite Nat2Z.inj_succ, Z.pow_succ_r by lia.
  destruct Hb as [-> | ->]; lia.
Qed.


Lemma read_hex_toString16 (n : Z) : 0 <= n -> read_hex (Js.Number_toString16 n) = Some n.
Proof.
  intros Hn. unfold read_hex, Js.Number_toString16. destruct n as [| p | p]; [| | lia].
  - reflexivity.
  - cbn [Z.to_hex_int HexadecimalString.NilEmpty.string_of_int].
    rewrite HexadecimalString.NilEmpty.usu. cbn [fmap option_fmap option_map].
    unfold Z.of_hex_uint. rewrite HexadecimalPos.Unsigned.of_to. reflexivity.
Qed.

(** Leading zeros do not change the number a text denotes. *)
Lemma read_hex_pad (k : nat) (text : string) :
  read_hex (Js.pad_chars k "0" text) = read_hex text.
Proof.
  induction k as [| k IH]; [reflexivity |].
  cbn [Js.pad_chars]. rewrite <- IH. unfold read_hex.
  cbn [HexadecimalString.NilEmpty.uint_of_string].
  destruct (HexadecimalString.NilEmpty.uint_of_string (Js.pad_chars k "0" text));
    reflexivity.
Qed.

Lemma read_hex_text (msb_first : bool) (elems : Uint8Array) :
  Forall (fun x => 0 <= x) elems ->
  read_hex (hex_text msb_first elems)
  = Some (binary_value (if msb_first then elems else reverse elems)).
Proof.
  intros Helems. unfold hex_text, Js.padStart.
  rewrite read_hex_pad, reduce_binary_value, Z.mul_0_l, Z.add_0_l.
  apply read_hex_toString16, binary_value_nonneg.
  destruct msb_first; [assumption |]. apply Forall_reverse. assumption.
Qed.

End HexTextFacts.

Section HexTextProperties.

Import IrDecordedFrame HexText.



(** Every number below 256 is shown with two characters. *)
Lemma two_characters_below_256 (n : Z) :
  0 <= n < 256 ->
  String.length (Js.padStart 2 "0" (Js.Number_toString16 n)) = 2%nat.
Proof.
  intros Hn.
  assert (Hall : forallb
            (fun k => Nat.eqb (String.length
                                 (Js.padStart 2 "0" (Js.Number_toString16 (Z.of_nat k)))) 2)
            (seq 0 256) = true) by (vm_compute; reflexivity).
  rewrite forallb_forall in Hall.
  specialize (Hall (Z.to_nat n)). rewrite Z2Nat.id in Hall by lia.
  apply Nat.eqb_eq, Hall, in_seq. lia.
Qed.

Lemma hex_text_two_characters (msb_first : bool) (bits : Uint8Array) :
  Forall is_bit bits -> (length bits <= 8)%nat ->
  String.length (hex_text msb_first bits) = 2%nat.
Proof.
  intros Hbits Hlen. unfold hex_text.
  rewrite reduce_binary_value, Z.mul_0_l, Z.add_0_l.
  apply two_characters_below_256.
  set (digits := if msb_first then bits else reverse bits).
  assert (Hdigits : Forall is_bit digits)
    by (subst digits; destruct msb_first; [assumption | apply Forall_reverse; assumption]).
  assert (Hsize : length digits = length bits)
    by (subst digits; destruct msb_first; [reflexivity | apply length_reverse]).
  pose proof (binary_value_bits digits Hdigits) as Hbound. rewrite Hsize in Hbound.
  assert (2 ^ Z.of_nat (length bits) <= 2 ^ 8) by (apply Z.pow_le_mono_r; lia).
  change (2 ^ 8) with 256 in *. lia.
Qed.

(** An array of at most eight bits is shown with exactly two hexadecimal
    characters, in either bit order. *)
Theorem to_hex_string_octet_two_characters
    (msb_first : bool) (octets : Ref) (h : Store) (bits : Uint8Array) :
  h !! octets = Some bits ->
  Forall is_bit bits -> (length bits <= 8)%nat ->
  exists (text : string) (h' : Store),
    to_hex_string msb_first octets h = Some (text, h')
    /\ String.length text = 2%nat.
Proof.
  intros Hbits Hall Hlen.
  destruct (to_hex_string_text msb_first octets h bits Hbits) as [h' Hrun].
  exists (hex_text msb_first bits), h'. split; [exact Hrun |].
  apply hex_text_two_characters; assumption.
Qed.

Lemma to_hex_string_octet_two_characters_witness :
  exists (text : string) (h' : gmap nat (list Z)),
    to_hex_string true 0%nat {[ 0%nat := [1;0;1] ]} = Some (text, h')
    /\ String.length text = 2%nat.
Proof.
  apply (to_hex_string_octet_two_characters true 0%nat {[ 0%nat := [1;0;1] ]} [1;0;1]).
  - reflexivity.
  - repeat constructor; unfold is_bit; lia.
  - cbn. lia.
Defined.




End HexTextProperties.

(** ** The items of a frame *)

Section FrameItemFacts.

Import IrDecordedFrame HexText.

(** A slice of width eight from a position on. *)
Lemma slice_window {A : Type} (xs : list A) (i : Z) :
  0 <= i -> Js.slice xs i (i + 8) = take 8 (drop (Z.to_nat i) xs).
Proof.
  intros Hi.
  destruct (Z_le_gt_dec (i + 8) (Z.of_nat (length xs))).
  - rewrite slice_in_range by lia. f_equal. lia.
  - destruct (Z_le_gt_dec i (Z.of_nat (length xs))).
    + rewrite slice_past_end by lia. symmetry. apply take_ge.
      rewrite length_drop. lia.
    + unfold Js.slice, Js.relative_index.
      destruct (Z.ltb_spec i 0), (Z.ltb_spec (i + 8) 0); try lia.
      rewrite !Z.min_r by lia. rewrite Z.sub_diag, !drop_ge by lia. reflexivity.
Qed.

Lemma to_octets_loop_head (b : Uint8Array) (i : Z) :
  i < Z.of_nat (length b) ->
  to_octets_loop b i [] = Js.slice b i (i + 8) :: to_octets_loop b (i + 8) [].
Proof.
  intros Hi. rewrite to_octets_loop_step by assumption.
  rewrite (to_octets_loop_output b _ (i + 8) _ eq_refl). reflexivity.
Qed.

(** The octet the loop pushes in its round [k]. *)
Lemma to_octets_loop_lookup (b : Uint8Array) (n : nat) :
  forall (i : Z) (k : nat),
    0 <= i -> Z.to_nat (Z.of_nat (length b) - i) = n ->
    to_octets_loop b i [] !! k
    = if i + 8 * Z.of_nat k <? Z.of_nat (length b)
      then Some (take 8 (drop (Z.to_nat (i + 8 * Z.of_nat k)) b))
      else None.
Proof.
  induction n as [n IH] using lt_wf_ind. intros i k Hi Hn.
  destruct (Z_lt_dec i (Z.of_nat (length b))) as [Hlt | Hge].
  - rewrite to_octets_loop_head by assumption. destruct k as [| k].
    + change (Z.of_nat 0) with 0. rewrite Z.mul_0_r, Z.add_0_r.
      destruct (Z.ltb_spec i (Z.of_nat (length b))); [| lia].
      rewrite slice_window by assumption. reflexivity.
    + change ((?x :: ?l) !! S k) with (l !! k).
      rewrite (IH (Z.to_nat (Z.of_nat (length b) - (i + 8)))) by lia.
      replace (i + 8 + 8 * Z.of_nat k) with (i + 8 * Z.of_nat (S k)) by lia.
      reflexivity.
  - rewrite to_octets_loop_done by lia.
    destruct (Z.ltb_spec (i + 8 * Z.of_nat k) (Z.of_nat (length b))); [lia | reflexivity].
Qed.

Lemma to_octets_lookup (b : Uint8Array) (k : nat) :
  to_octets b !! k
  = if (8 * k <? length b)%nat then Some (take 8 (drop (8 * k) b)) else None.
Proof.
  unfold to_octets. rewrite (to_octets_loop_lookup b _ 0 k ltac:(lia) eq_refl).
  rewrite Z.add_0_l.
  destruct (Z.ltb_spec (8 * Z.of_nat k) (Z.of_nat (length b))),
    (Nat.ltb_spec (8 * k) (length b)); try lia; [| reflexivity].
  do 3 f_equal. lia.
Qed.

Lemma aeha_items_lookup (octets : list Uint8Array) :
  forall (index0 : Z) (k : nat),
    aeha_items index0 octets !! k
    = (fun x => {| item_label := "offset " +:+ Js.Number_toString (8 * (index0 + Z.of_nat k));
                   value := x |}) <$> octets !! k.
Proof.
  induction octets as [| x octets IH]; intros index0 k; [reflexivity |].
  destruct k as [| k].
  - cbn [aeha_items]. change (Z.of_nat 0) with 0. rewrite Z.add_0_r. reflexivity.
  - change (aeha_items index0 (x :: octets) !! S k)
      with (aeha_items (index0 + 1) octets !! k).
    change ((x :: octets) !! S k) with (octets !! k).
    rewrite IH. replace (index0 + 1 + Z.of_nat k) with (index0 + Z.of_nat (S k)) by lia.
    reflexivity.
Qed.

Lemma aeha_items_values (octets : list Uint8Array) (index0 : Z) :
  map value (aeha_items index0 octets) = octets.
Proof.
  revert index0. induction octets as [| x octets IH]; intros index0; [reflexivity |].
  cbn [aeha_items map value]. rewrite IH. reflexivity.
Qed.

Lemma append_inj_r (prefix a b : string) : prefix +:+ a = prefix +:+ b -> a = b.
Proof.
  induction prefix as [| c prefix IH]; intros Heq; [exact Heq |].
  change (String c (prefix +:+ a) = String c (prefix +:+ b)) in Heq.
  injection Heq as Heq. exact (IH Heq).
Qed.

Lemma number_toString_inj (m n : Z) :
  Js.Number_toString m = Js.Number_toString n -> m = n.
Proof.
  intros Heq. unfold Js.Number_toString in Heq.
  assert (Hint : Some (Z.to_int m) = Some (Z.to_int n)).
  { rewrite <- !DecimalString.NilEmpty.isi. rewrite Heq. reflexivity. }
  injection Hint as Hint.
  rewrite <- (DecimalZ.of_to m), <- (DecimalZ.of_to n), Hint. reflexivity.
Qed.

Lemma aeha_items_by_offset_lookup (bits : Uint8Array) (k : nat) :
  items (ir_frame_value (Aeha bits)) !! k
  = if (8 * k <? length bits)%nat
    then Some {| item_label := "offset " +:+ Js.Number_toString (8 * Z.of_nat k);
                 value := take 8 (drop (8 * k) bits) |}
    else None.
Proof.
  cbn [ir_frame_value items].
  rewrite aeha_items_lookup, to_octets_lookup, Z.add_0_l.
  destruct (8 * k <? length bits)%nat; reflexivity.
Qed.

(** The AEHA items: item [k] exists for every started group of eight bits,
    is labelled with the offset [8 k] of its first bit and holds the bits
    from that offset on, eight of them or as many as are left; no two items
    have the same label. *)
Theorem aeha_items_by_offset (bits : Uint8Array) :
  (forall k : nat,
     items (ir_frame_value (Aeha bits)) !! k
     = if (8 * k <? length bits)%nat
       then Some {| item_label := "offset " +:+ Js.Number_toString (8 * Z.of_nat k);
                    value := take 8 (drop (8 * k) bits) |}
       else None)
  /\ NoDup (map item_label (items (ir_frame_value (Aeha bits)))).
Proof.
  assert (Hlookup : forall k : nat,
    items (ir_frame_value (Aeha bits)) !! k
    = if (8 * k <? length bits)%nat
      then Some {| item_label := "offset " +:+ Js.Number_toString (8 * Z.of_nat k);
                   value := take 8 (drop (8 * k) bits) |}
      else None).
  { intros k. cbn [ir_frame_value items].
    rewrite aeha_items_lookup, to_octets_lookup, Z.add_0_l.
    destruct (8 * k <? length bits)%nat; reflexivity. }
  split; [exact Hlookup |].
  apply NoDup_alt. intros i j label Hi Hj.
  rewrite list_lookup_fmap, Hlookup in Hi. rewrite list_lookup_fmap, Hlookup in Hj.
  destruct (8 * i <? length bits)%nat; [| discriminate].
  destruct (8 * j <? length bits)%nat; [| discriminate].
  cbn in Hi, Hj. injection Hi as <-. injection Hj as Hlabel.
  apply append_inj_r, number_toString_inj in Hlabel. lia.
Qed.

(** No bit is lost or moved: the items of an AEHA or SIRC frame, one after
    the other, hold the bitstream as it is; the four items of a NEC frame
    hold its first 32 bits, also where the frame is shorter than that; an
    unknown frame has no item. *)
Theorem items_hold_the_bits (decorded_frame : DecordedInfraredRemoteFrame) :
  concat (map value (items (ir_frame_value decorded_frame)))
  = match decorded_frame with
    | Aeha bits => bits
    | Nec bits => take 32 bits
    | Sirc bits => bits
    | Unknown _ => []
    end.
Proof.
  destruct decorded_frame as [bits | bits | bits | frame].
  - cbn [ir_frame_value items]. rewrite aeha_items_values.
    unfold to_octets. rewrite (to_octets_loop_concat bits _ 0 ltac:(lia) eq_refl).
    reflexivity.
  - cbn [ir_frame_value items map value concat]. rewrite app_nil_r.
    assert (H0 : Js.slice bits 0 8 = take 8 bits)
      by exact (slice_window bits 0 ltac:(lia)).
    assert (H1 : Js.slice bits 8 16 = take 8 (drop 8 bits))
      by exact (slice_window bits 8 ltac:(lia)).
    assert (H2 : Js.slice bits 16 24 = take 8 (drop 16 bits))
      by exact (slice_window bits 16 ltac:(lia)).
    assert (H3 : Js.slice bits 24 32 = take 8 (drop 24 bits))
      by exact (slice_window bits 24 ltac:(lia)).
    rewrite H0, H1, H2, H3.
    replace (drop 24 bits) with (drop 8 (drop 16 bits)) by (rewrite drop_drop; reflexivity).
    rewrite (take_take_drop (drop 16 bits) 8 8).
    replace (drop 16 bits) with (drop 8 (drop 8 bits)) by (rewrite drop_drop; reflexivity).
    rewrite (take_take_drop (drop 8 bits) 8 (8 + 8)).
    apply (take_take_drop bits 8 (8 + (8 + 8))).
  - rewrite sirc_items. cbn [map value concat]. rewrite app_nil_r. apply take_drop.
  - reflexivity.
Qed.

End FrameItemFacts.

Section FrameCodeFacts.

Import IrDecordedFrame HexText.

Lemma nec_items_lookup (bits : Uint8Array) (k : nat) (item : IrFrameItem) :
  items (ir_frame_value (Nec bits)) !! k = Some item ->
  value item = take 8 (drop (8 * k) bits).
Proof.
  intros Hk. cbn [ir_frame_value items] in Hk.
  destruct k as [| [| [| [| k]]]]; [| | | | discriminate Hk];
    injection Hk as <-; cbn [value].
  - exact (slice_window bits 0 ltac:(lia)).
  - exact (slice_window bits 8 ltac:(lia)).
  - exact (slice_window bits 16 ltac:(lia)).
  - exact (slice_window bits 24 ltac:(lia)).
Qed.

(** The code line of an AEHA or NEC frame of bits is a row of bytes: its
    text number [k] has exactly two hexadecimal characters and denotes the
    eight bits (or the bits that are left) from offset [8 k] on, read in the
    chosen bit order. *)
Theorem frame_code_bytes
    (msb_first : bool) (bits : Uint8Array) (k : nat) (text : string) :
  Forall is_bit bits ->
  frame_code msb_first (Aeha bits) !! k = Some text
  \/ frame_code msb_first (Nec bits) !! k = Some text ->
  String.length text = 2%nat
  /\ read_hex text
     = Some (binary_value
               (if msb_first then take 8 (drop (8 * k) bits)
                else reverse (take 8 (drop (8 * k) bits)))).
Proof.
  intros Hbits Hk.
  assert (Htext : text = hex_text msb_first (take 8 (drop (8 * k) bits))).
  { unfold frame_code in Hk. rewrite !list_lookup_fmap in Hk.
    destruct Hk as [Hk | Hk].
    - rewrite aeha_items_by_offset_lookup in Hk.
      destruct (8 * k <? length bits)%nat; [| discriminate Hk].
      injection Hk as <-. reflexivity.
    - destruct (items (ir_frame_value (Nec bits)) !! k) as [item |] eqn:Hitem;
        [| discriminate Hk].
      injection Hk as <-. rewrite (nec_items_lookup bits k item Hitem). reflexivity. }
  assert (Hoctet : Forall is_bit (take 8 (drop (8 * k) bits)))
    by (apply Forall_take, Forall_drop; assumption).
  subst text. split.
  - apply hex_text_two_characters; [assumption |]. rewrite length_take. lia.
  - apply read_hex_text. eapply Forall_impl; [exact Hoctet |]. intros z [-> | ->]; lia.
Qed.

Lemma frame_code_bytes_witness :
  let bits := [0;0;0;0;0;0;0;1; 1;1;1;1;1;1;1;0; 0;1;0;0;1;0;0;0; 1;0;1;1;0;1;1;1; 1] in
  frame_code true (Nec bits) = ["01"; "fe"; "48"; "b7"]
  /\ String.length "fe" = 2%nat
  /\ read_hex "fe" = Some (binary_value [1;1;1;1;1;1;1;0]).
Proof.
  intros bits.
  assert (Hcode : frame_code true (Nec bits) = ["01"; "fe"; "48"; "b7"])
    by (vm_compute; reflexivity).
  split; [exact Hcode |].
  apply (frame_code_bytes true bits 1 "fe").
  - repeat (apply List.Forall_cons; [unfold is_bit; lia |]). apply List.Forall_nil.
  - right. rewrite Hcode. reflexivity.
Defined.

End FrameCodeFacts.

(** ** The chart and the table side by side *)

Section ChartTableFacts.

Import IrSignal.

Lemma conv_ir_control_signal_nonempty (item : MarkAndSpaceMicros) (rest : list MarkAndSpaceMicros) :
  conv_ir_control_signal (item :: rest)
  = {| time := 0; bit := 0 |} :: points_from 0 (item :: rest).
Proof.
  unfold conv_ir_control_signal.
  replace (1 <=? Z.of_nat (length (item :: rest))) with true
    by (symmetry; apply Z.leb_le; cbn [length]; lia).
  rewrite conv_loop. reflexivity.
Qed.

(** Row [j] of the table lies between the chart points [j] and [j + 1]. *)
Lemma rows_between_points (input : list MarkAndSpaceMicros) :
  forall (sum seq : Z) (level : Z) (j : nat) (row : DatumForList),
    rows_from sum seq input !! j = Some row ->
    exists p q : DatumForGraph,
      ({| time := sum; bit := level |} :: points_from sum input) !! j = Some p
      /\ ({| time := sum; bit := level |} :: points_from sum input) !! S j = Some q
      /\ time p = start_time row
      /\ time q = start_time row + duration row
      /\ bit q = (if String.eqb (kinds row) "Mark" then 1 else 0).
Proof.
  induction input as [| item rest IH]; intros sum seq level j row Hj; [discriminate |].
  destruct j as [| [| j]].
  - injection Hj as <-. eexists _, _. repeat split.
  - injection Hj as <-. eexists _, _. repeat split.
  - change (rows_from (sum + mark item + space item) (seq + 1 + 1) rest !! j = Some row)
      in Hj.
    destruct (IH _ _ 0 _ _ Hj) as (p & q & Hp & Hq & Hrest).
    exists p, q. split; [exact Hp |]. split; [exact Hq | exact Hrest].
Qed.

(** The table and the chart agree: row [j] of [convert_for_list] starts at
    the time of point [j] of [conv_ir_control_signal] and ends, after its
    duration, at the time of point [j + 1], which shows the level 1 after a
    mark and 0 after a space. *)
Theorem table_rows_span_chart_points
    (input : list MarkAndSpaceMicros) (j : nat) (row : DatumForList) :
  convert_for_list input !! j = Some row ->
  exists p q : DatumForGraph,
    conv_ir_control_signal input !! j = Some p
    /\ conv_ir_control_signal input !! S j = Some q
    /\ time p = start_time row
    /\ time q = start_time row + duration row
    /\ bit q = (if String.eqb (kinds row) "Mark" then 1 else 0).
Proof.
  intros Hj. rewrite convert_for_list_rows_from in Hj.
  destruct input as [| item rest]; [discriminate |].
  rewrite conv_ir_control_signal_nonempty.
  exact (rows_between_points _ _ _ _ _ _ Hj).
Qed.

Lemma table_rows_span_chart_points_witness :
  let input := [ {| mark := 9000; space := 4500 |}; {| mark := 560; space := 1690 |} ] in
  exists p q : DatumForGraph,
    conv_ir_control_signal input !! 2%nat = Some p
    /\ conv_ir_control_signal input !! 3%nat = Some q
    /\ time p = 13500 /\ time q = 13500 + 560 /\ bit q = 1.
Proof.
  intros input.
  apply (table_rows_span_chart_points input 2
           {| key := 3; seq_num := 3; start_time := 13500; kinds := "Mark"; duration := 560 |}).
  reflexivity.
Defined.

Lemma points_from_not_before (input : list MarkAndSpaceMicros) :
  forall (sum : Z) (p : DatumForGraph),
    Forall (fun item => 0 <= mark item /\ 0 <= space item) input ->
    In p (points_from sum input) -> sum <= time p.
Proof.
  induction input as [| item rest IH]; intros sum p Hinput Hp; [contradiction |].
  apply List.Forall_cons_iff in Hinput as [[Hm Hs] Hrest].
  cbn [points_from] in Hp. destruct Hp as [<- | [<- | Hp]]; cbn [time]; try lia.
  specialize (IH _ _ Hrest Hp). lia.
Qed.

Lemma points_in_order (input : list MarkAndSpaceMicros) :
  forall (sum level : Z) (i j : nat) (p q : DatumForGraph),
    Forall (fun item => 0 <= mark item /\ 0 <= space item) input ->
    (i <= j)%nat ->
    ({| time := sum; bit := level |} :: points_from sum input) !! i = Some p ->
    ({| time := sum; bit := level |} :: points_from sum input) !! j = Some q ->
    time p <= time q.
Proof.
  induction input as [| item rest IH]; intros sum level i j p q Hinput Hij Hi Hj.
  - destruct i as [| i], j as [| j]; try discriminate.
    injection Hi as <-. injection Hj as <-. lia.
  - assert (Hinput' := Hinput).
    apply List.Forall_cons_iff in Hinput' as [[Hm Hs] Hrest].
    destruct i as [| [| i]].
    + injection Hi as <-. cbn [time].
      destruct j as [| j]; [injection Hj as <-; cbn [time]; lia |].
      apply (points_from_not_before (item :: rest) sum q Hinput).
      apply list_elem_of_In, list_elem_of_lookup. exists j. exact Hj.
    + injection Hi as <-. cbn [time].
      destruct j as [| [| j]]; [lia | injection Hj as <-; cbn [time]; lia |].
      change (({| time := sum + mark item + space item; bit := 0 |}
                 :: points_from (sum + mark item + space item) rest) !! j = Some q) in Hj.
      destruct j as [| j]; [injection Hj as <-; cbn [time]; lia |].
      assert (sum + mark item + space item <= time q); [| lia].
      apply (points_from_not_before rest _ q Hrest).
      apply list_elem_of_In, list_elem_of_lookup. exists j. exact Hj.
    + destruct j as [| [| j]]; [lia | lia |].
      change (({| time := sum + mark item + space item; bit := 0 |}
                 :: points_from (sum + mark item + space item) rest) !! i = Some p) in Hi.
      change (({| time := sum + mark item + space item; bit := 0 |}
                 :: points_from (sum + mark item + space item) rest) !! j = Some q) in Hj.
      apply (IH (sum + mark item + space item) 0 i j p q Hrest);
        [lia | exact Hi | exact Hj].
Qed.

(** Where no mark and no space is negative, the chart points are in time
    order: a later point never has an earlier time. *)
Theorem chart_points_in_time_order
    (input : list MarkAndSpaceMicros) (i j : nat) (p q : DatumForGraph) :
  Forall (fun item => 0 <= mark item /\ 0 <= space item) input ->
  (i <= j)%nat ->
  conv_ir_control_signal input !! i = Some p ->
  conv_ir_control_signal input !! j = Some q ->
  time p <= time q.
Proof.
  intros Hinput Hij Hi Hj.
  destruct input as [| item rest]; [discriminate |].
  rewrite conv_ir_control_signal_nonempty in Hi, Hj.
  exact (points_in_order _ _ _ _ _ _ _ Hinput Hij Hi Hj).
Qed.

Lemma chart_points_in_time_order_witness :
  let input := [ {| mark := 9000; space := 4500 |}; {| mark := 560; space := 1690 |} ] in
  conv_ir_control_signal input !! 1%nat = Some {| time := 9000; bit := 1 |}
  /\ conv_ir_control_signal input !! 4%nat = Some {| time := 15750; bit := 0 |}
  /\ 9000 <= 15750.
Proof.
  intros input.
  assert (H1 : conv_ir_control_signal input !! 1%nat = Some {| time := 9000; bit := 1 |})
    by reflexivity.
  assert (H4 : conv_ir_control_signal input !! 4%nat = Some {| time := 15750; bit := 0 |})
    by reflexivity.
  split; [exact H1 |]. split; [exact H4 |].
  apply (chart_points_in_time_order input 1 4
           {| time := 9000; bit := 1 |} {| time := 15750; bit := 0 |});
    [| lia | exact H1 | exact H4].
  repeat (apply List.Forall_cons; [cbn; lia |]). apply List.Forall_nil.
Defined.

End ChartTableFacts.

(** ** Lines, chunks and the ingestion *)

Section SerialReceiveFacts.

Import SerialConnectionEffect SerialReceive.

Lemma string_append_empty_r (s : string) : s +:+ "" = s.
Proof.
  induction s as [| c s IH]; [reflexivity |].
  change (String c (s +:+ "") = String c s). f_equal. exact IH.
Qed.

Lemma string_append_assoc (a b c : string) : (a +:+ b) +:+ c = a +:+ (b +:+ c).
Proof.
  induction a as [| x a IH]; [reflexivity |].
  change (String x ((a +:+ b) +:+ c) = String x (a +:+ (b +:+ c))). f_equal. exact IH.
Qed.

Lemma no_line_break_append (a b : string) :
  no_line_break (a +:+ b) = no_line_break a && no_line_break b.
Proof.
  induction a as [| x a IH]; [reflexivity |].
  change (no_line_break (String x (a +:+ b)) = no_line_break (String x a) && no_line_break b).
  cbn [no_line_break]. rewrite IH, andb_assoc. reflexivity.
Qed.

(** A text without line break stays on the line that follows it. *)
Lemma split_lines_same_line (line : string) :
  forall rest : string,
    no_line_break line = true ->
    split_lines (line +:+ rest)
    = match split_lines rest with
      | first :: more => (line +:+ first) :: more
      | [] => [line]
      end.
Proof.
  induction line as [| c line IH]; intros rest Hline.
  - change ("" +:+ rest) with rest.
    pose proof (split_lines_nonempty rest) as Hne.
    destruct (split_lines rest); [contradiction | reflexivity].
  - cbn [no_line_break] in Hline.
    apply andb_prop in Hline as [Hc Hline]. apply andb_prop in Hc as [Hlf Hcr].
    apply negb_true_iff in Hlf, Hcr.
    change (String c line +:+ rest) with (String c (line +:+ rest)).
    cbn [split_lines]. rewrite Hlf, Hcr, (IH rest Hline).
    pose proof (split_lines_nonempty rest) as Hne.
    destruct (split_lines rest); [contradiction | reflexivity].
Qed.

Lemma split_lines_one_line (line : string) :
  no_line_break line = true -> split_lines line = [line].
Proof.
  intros Hline. rewrite <- (string_append_empty_r line) at 1.
  rewrite split_lines_same_line by assumption. cbn [split_lines].
  rewrite string_append_empty_r. reflexivity.
Qed.

Lemma split_lines_after_break (break rest : string) :
  break = line_feed \/ break = carriage_return_line_feed ->
  split_lines (break +:+ rest) = "" :: split_lines rest.
Proof. intros [-> | ->]; reflexivity. Qed.

Lemma split_lines_unlines (break : string) (lines : list string) :
  break = line_feed \/ break = carriage_return_line_feed ->
  lines <> [] ->
  Forall (fun line => no_line_break line = true) lines ->
  split_lines (unlines break lines) = lines.
Proof.
  intros Hbreak Hne Hlines. unfold unlines.
  induction Hlines as [| line lines Hline Hlines IH]; [contradiction |].
  destruct lines as [| next lines].
  - cbn [String.concat]. apply split_lines_one_line. assumption.
  - change (String.concat break (line :: next :: lines))
      with (line +:+ break +:+ String.concat break (next :: lines)).
    rewrite split_lines_same_line by assumption.
    rewrite split_lines_after_break by assumption.
    rewrite IH by discriminate. rewrite string_append_empty_r. reflexivity.
Qed.

(** Round trip of the line splitting: lines without carriage return and
    line feed, joined with line feeds or with carriage return and line
    feed, are split into the same lines again. *)
Theorem split_lines_inverts_unlines (lines : list string) :
  lines <> [] ->
  Forall (fun line => no_line_break line = true) lines ->
  split_lines (unlines line_feed lines) = lines
  /\ split_lines (unlines carriage_return_line_feed lines) = lines.
Proof.
  intros Hne Hlines. split; apply split_lines_unlines; auto.
Qed.

Lemma split_lines_inverts_unlines_witness :
  split_lines (unlines line_feed ["{}"; "12"; ""]) = ["{}"; "12"; ""]
  /\ split_lines (unlines carriage_return_line_feed ["{}"; "12"; ""]) = ["{}"; "12"; ""].
Proof.
  apply (split_lines_inverts_unlines ["{}"; "12"; ""]).
  - discriminate.
  - repeat (apply List.Forall_cons; [reflexivity |]). apply List.Forall_nil.
Defined.

End SerialReceiveFacts.

Section IngestionFacts.

Import SerialConnectionEffect SerialReceive.

Context {Json : Type}.
Variable JSON_parse : string -> option Json.

(** The line considered in a buffer of lines joined with line feeds. *)
Lemma considered_line_unlines (earlier : list string) (line last : string) :
  Forall (fun l => no_line_break l = true) (earlier ++ [line; last]) ->
  considered_line (unlines line_feed (earlier ++ [line; last])) = line.
Proof.
  intros Hlines. unfold considered_line.
  rewrite split_lines_unlines; [| left; reflexivity | | assumption].
  - unfold second_to_last. rewrite reverse_app. reflexivity.
  - destruct earlier; discriminate.
Qed.

Lemma rxText_effect_considered (st : Atoms Json) :
  rxText_effect JSON_parse st
  = if negb (String.eqb (considered_line (rxText st)) "") then
      match JSON_parse (considered_line (rxText st)) with
      | Some rx_json => {| rxJsonData := rxJsonData st ++ [rx_json]; rxText := "" |}
      | None => st
      end
    else st.
Proof. unfold rxText_effect. rewrite considered_line_spec. reflexivity. Qed.

Lemma rxText_effect_keeps_one_line_aux
    (st : Atoms Json) (earlier : list string) (line last : string) (rx_json : Json) :
  rxText st = unlines line_feed (earlier ++ [line; last]) ->
  Forall (fun l => no_line_break l = true) (earlier ++ [line; last]) ->
  line <> "" ->
  JSON_parse line = Some rx_json ->
  rxText_effect JSON_parse st
  = {| rxJsonData := rxJsonData st ++ [rx_json]; rxText := "" |}.
Proof.
  intros Htext Hlines Hline Hparse.
  rewrite rxText_effect_considered, Htext, considered_line_unlines by assumption.
  apply String.eqb_neq in Hline. rewrite Hline, Hparse. reflexivity.
Qed.

(** Of a buffer with several lines the effect ingests one: the last line
    that is followed by a line break.  When that line parses, its record is
    appended and the whole buffer is cleared, so the lines before it and the
    unfinished text after it are dropped without having been parsed. *)
Theorem rxText_effect_keeps_one_line
    (st : Atoms Json) (earlier : list string) (line last : string) (rx_json : Json) :
  rxText st = unlines line_feed (earlier ++ [line; last]) ->
  Forall (fun l => no_line_break l = true) (earlier ++ [line; last]) ->
  line <> "" ->
  JSON_parse line = Some rx_json ->
  rxText_effect JSON_parse st
  = {| rxJsonData := rxJsonData st ++ [rx_json]; rxText := "" |}.
Proof. apply rxText_effect_keeps_one_line_aux. Qed.

Lemma rxText_effect_empty (st : Atoms Json) :
  rxText st = "" -> rxText_effect JSON_parse st = st.
Proof. intros Htext. unfold rxText_effect. rewrite Htext. reflexivity. Qed.

(** A text that arrives while the buffer holds no line break, and leaves
    it without one, is only buffered as long as the buffer does not parse. *)
Lemma receive_buffers (st : Atoms Json) (text : string) :
  no_line_break (rxText st +:+ text) = true ->
  JSON_parse (rxText st +:+ text) = None ->
  receive JSON_parse (Some text) st
  = {| rxJsonData := rxJsonData st; rxText := rxText st +:+ text |}.
Proof.
  intros Hline Hparse. unfold receive, append_text. cbn [rxText rxJsonData].
  destruct (String.eqb (rxText st) (rxText st +:+ text)); [reflexivity |].
  rewrite rxText_effect_considered. cbn [rxText rxJsonData].
  unfold considered_line. rewrite split_lines_one_line by assumption.
  cbn [second_to_last reverse rev_append lookup list_lookup default].
  change (default (rxText st +:+ text) (second_to_last [rxText st +:+ text]))
    with (rxText st +:+ text).
  rewrite Hparse.
  destruct (negb (String.eqb (rxText st +:+ text) "")); cbn [rxText];
    rewrite String.eqb_refl; reflexivity.
Qed.

Lemma receive_all_cons (text : string) (texts : list string) (st : Atoms Json) :
  receive_all JSON_parse (text :: texts) st
  = receive_all JSON_parse texts (receive JSON_parse (Some text) st).
Proof. reflexivity. Qed.

Lemma receive_all_app (front back : list string) (st : Atoms Json) :
  receive_all JSON_parse (front ++ back) st
  = receive_all JSON_parse back (receive_all JSON_parse front st).
Proof. unfold receive_all. apply fold_left_app. Qed.

Lemma receive_all_buffers (pieces : list string) :
  forall st : Atoms Json,
    no_line_break (rxText st +:+ String.concat "" pieces) = true ->
    (forall k : nat, (k <= length pieces)%nat ->
       JSON_parse (rxText st +:+ String.concat "" (take k pieces)) = None) ->
    receive_all JSON_parse pieces st
    = {| rxJsonData := rxJsonData st; rxText := rxText st +:+ String.concat "" pieces |}.
Proof.
  induction pieces as [| piece pieces IH]; intros st Hline Hparse.
  - cbn [receive_all fold_left String.concat]. rewrite string_append_empty_r.
    destruct st; reflexivity.
  - assert (Hconcat : forall l : list string,
              String.concat "" (piece :: l) = piece +:+ String.concat "" l).
    { intros [| x l]; [symmetry; apply string_append_empty_r | reflexivity]. }
    rewrite Hconcat, <- string_append_assoc in Hline.
    rewrite receive_all_cons, receive_buffers.
    + rewrite IH; cbn [rxText rxJsonData].
      * rewrite Hconcat, string_append_assoc. reflexivity.
      * exact Hline.
      * intros k Hk. specialize (Hparse (S k) ltac:(cbn [length]; lia)).
        rewrite firstn_cons, Hconcat, <- string_append_assoc in Hparse. exact Hparse.
    + rewrite no_line_break_append in Hline. apply andb_prop in Hline as [Hline _].
      exact Hline.
    + specialize (Hparse 1%nat ltac:(cbn [length]; lia)).
      rewrite firstn_cons, take_0, Hconcat in Hparse.
      cbn [String.concat] in Hparse. rewrite string_append_empty_r in Hparse.
      exact Hparse.
Qed.

(** A record that arrives in pieces is ingested once, when its line break
    arrives: if the line has no line break inside, parses as a whole, and
    the text received so far does not parse at any boundary between two
    pieces, then after the last piece with its line feed the record is
    appended and the buffer is empty. *)
Theorem receive_all_ingests_line
    (st : Atoms Json) (pieces : list string) (final : string) (rx_json : Json) :
  let line := String.concat "" pieces +:+ final in
  rxText st = "" ->
  no_line_break line = true ->
  line <> "" ->
  JSON_parse line = Some rx_json ->
  (forall k : nat, (k <= length pieces)%nat ->
     JSON_parse (String.concat "" (take k pieces)) = None) ->
  receive_all JSON_parse (pieces ++ [final +:+ line_feed]) st
  = {| rxJsonData := rxJsonData st ++ [rx_json]; rxText := "" |}.
Proof.
  intros line Htext Hline Hne Hparse Hpieces.
  rewrite receive_all_app.
  assert (Hfront : no_line_break (String.concat "" pieces) = true).
  { subst line. rewrite no_line_break_append in Hline.
    apply andb_prop in Hline as [Hfront _]. exact Hfront. }
  rewrite (receive_all_buffers pieces st).
  2: { rewrite Htext. exact Hfront. }
  2: { intros k Hk. rewrite Htext. apply Hpieces. exact Hk. }
  rewrite Htext, receive_all_cons.
  change (receive_all JSON_parse [] ?x) with x.
  change ("" +:+ String.concat "" pieces) with (String.concat "" pieces).
  unfold receive, append_text. cbn [rxText rxJsonData].
  rewrite <- string_append_assoc. fold line.
  assert (Hgrown : String.eqb (String.concat "" pieces) (line +:+ line_feed) = false).
  { apply String.eqb_neq. intros Heq.
    assert (Hbreak : no_line_break (line +:+ line_feed) = true) by (rewrite <- Heq; exact Hfront).
    rewrite no_line_break_append in Hbreak. apply andb_prop in Hbreak as [_ Hbreak].
    discriminate Hbreak. }
  rewrite Hgrown.
  assert (Hlines : line +:+ line_feed = unlines line_feed ([] ++ [line; ""])).
  { unfold unlines. cbn [app String.concat]. reflexivity. }
  assert (Hstep : rxText_effect JSON_parse
                    {| rxJsonData := rxJsonData st; rxText := line +:+ line_feed |}
                  = {| rxJsonData := rxJsonData st ++ [rx_json]; rxText := "" |}).
  { apply (rxText_effect_keeps_one_line_aux
             {| rxJsonData := rxJsonData st; rxText := line +:+ line_feed |}
             [] line "" rx_json);
      [exact Hlines | | exact Hne | exact Hparse].
    cbn [app]. repeat (apply List.Forall_cons; [first [exact Hline | reflexivity] |]).
    apply List.Forall_nil. }
  rewrite Hstep. cbn [rxText].
  replace (String.eqb (line +:+ line_feed) "") with false.
  - apply rxText_effect_empty. reflexivity.
  - symmetry. apply String.eqb_neq. intros Heq.
    destruct line; discriminate Heq.
Qed.

End IngestionFacts.


Lemma rxText_effect_keeps_one_line_witness :
  let st := {| SerialConnectionEffect.rxJsonData := [];
               SerialConnectionEffect.rxText :=
                 SerialReceive.unlines SerialReceive.line_feed ["{}"; "{}"; "{"] |} in
  SerialConnectionEffect.rxText_effect SerialConnectionEffect.parse_empty_object st
  = {| SerialConnectionEffect.rxJsonData := [tt]; SerialConnectionEffect.rxText := "" |}.
Proof.
  cbv zeta.
  apply (rxText_effect_keeps_one_line SerialConnectionEffect.parse_empty_object
           {| SerialConnectionEffect.rxJsonData := [];
              SerialConnectionEffect.rxText :=
                SerialReceive.unlines SerialReceive.line_feed ["{}"; "{}"; "{"] |}
           ["{}"] "{}" "{" tt);
    [reflexivity | repeat constructor | discriminate | reflexivity].
Defined.

Lemma receive_all_ingests_line_witness :
  SerialReceive.receive_all SerialConnectionEffect.parse_empty_object
    ["{"; "}" +:+ SerialReceive.line_feed]
    {| SerialConnectionEffect.rxJsonData := [tt]; SerialConnectionEffect.rxText := "" |}
  = {| SerialConnectionEffect.rxJsonData := [tt; tt]; SerialConnectionEffect.rxText := "" |}.
Proof.
  apply (receive_all_ingests_line SerialConnectionEffect.parse_empty_object
           {| SerialConnectionEffect.rxJsonData := [tt];
              SerialConnectionEffect.rxText := "" |} ["{"] "}" tt);
    [reflexivity | reflexivity | discriminate | reflexivity |].
  intros [| [| k]] Hk; [reflexivity | reflexivity | cbn in Hk; lia].
Defined.


Section ReceivedDataFacts.

Import SerialConnectionEffect SerialReceive.

Context {Json : Type}.
Variable JSON_parse : string -> option Json.

Lemma rxText_effect_cases (st : Atoms Json) :
  rxText_effect JSON_parse st = st
  \/ exists rx_json : Json,
       rxText_effect JSON_parse st
       = {| rxJsonData := rxJsonData st ++ [rx_json]; rxText := "" |}.
Proof.
  unfold rxText_effect. cbv zeta.
  destruct (Js.slice_from _ _ !! _) as [last |]; [| left; reflexivity].
  destruct (negb _); [| left; reflexivity].
  destruct (JSON_parse _) as [rx_json |]; [right; exists rx_json | left]; reflexivity.
Qed.

Lemma receive_cases (text : option string) (st : Atoms Json) :
  rxJsonData (receive JSON_parse text st) = rxJsonData st
  \/ exists rx_json : Json,
       receive JSON_parse text st
       = {| rxJsonData := rxJsonData st ++ [rx_json]; rxText := "" |}.
Proof.
  destruct text as [text |]; [| left; reflexivity].
  unfold receive.
  destruct (String.eqb (rxText st) (rxText (append_text text st)));
    [left; reflexivity |].
  destruct (rxText_effect_cases (append_text text st)) as [Hsame | [rx_json Hadd]].
  - rewrite Hsame, String.eqb_refl. left. reflexivity.
  - rewrite Hadd. right. exists rx_json.
    cbn [rxText rxJsonData append_text].
    destruct (String.eqb _ _); [reflexivity |].
    unfold rxText_effect. reflexivity.
Qed.

(** The receive loop never drops or reorders a record it has ingested, and
    ingests at most one record per text read from the port: after any
    sequence of reads the received-data list is the list before them
    followed by at most as many new records as there were reads. *)
Theorem receive_all_appends (texts : list string) (st : Atoms Json) :
  exists added : list Json,
    rxJsonData (receive_all JSON_parse texts st) = rxJsonData st ++ added
    /\ (length added <= length texts)%nat.
Proof.
  revert st. induction texts as [| text texts IH]; intros st.
  - exists []. split; [symmetry; apply app_nil_r | reflexivity].
  - change (receive_all JSON_parse (text :: texts) st)
      with (receive_all JSON_parse texts (receive JSON_parse (Some text) st)).
    destruct (IH (receive JSON_parse (Some text) st)) as (added & Hdata & Hlen).
    destruct (receive_cases (Some text) st) as [Hsame | [rx_json Hadd]].
    + exists added. rewrite Hdata, Hsame. split; [reflexivity | cbn [length]; lia].
    + exists (rx_json :: added). rewrite Hdata, Hadd. cbn [rxJsonData].
      rewrite <- app_assoc. split; [reflexivity | cbn [length]; lia].
Qed.

(** A read of the empty text, or a read that resolves to nothing because
    the reader is done, changes neither the buffer nor the data. *)
Lemma receive_nothing (st : Atoms Json) :
  receive JSON_parse None st = st /\ receive JSON_parse (Some "") st = st.
Proof.
  split; [reflexivity |]. unfold receive, append_text. cbn [rxText rxJsonData].
  rewrite string_append_empty_r, String.eqb_refl. destruct st; reflexivity.
Qed.

End ReceivedDataFacts.


Section CardFacts.

Import IrControlCode IrControlCodeCard.

Lemma map_indexed_normal {A B : Type} (f : Z -> A -> Completion B) (xs : list A) :
  forall idx : Z,
    (forall (k : nat) (x : A), xs !! k = Some x ->
       exists y : B, f (idx + Z.of_nat k) x = Normal y) ->
    exists ys : list B,
      map_indexed f idx xs = Normal ys
      /\ length ys = length xs
      /\ (forall (k : nat) (x : A), xs !! k = Some x ->
            exists y : B, f (idx + Z.of_nat k) x = Normal y /\ ys !! k = Some y).
Proof.
  induction xs as [| x xs IH]; intros idx Hall.
  - exists []. split; [reflexivity |]. split; [reflexivity |].
    intros k x Hk. discriminate Hk.
  - destruct (Hall 0%nat x eq_refl) as [y Hy]. rewrite Z.add_0_r in Hy.
    destruct (IH (idx + 1)) as (ys & Hmap & Hlen & Hys).
    { intros k x' Hk. destruct (Hall (S k) x' Hk) as [y' Hy']. exists y'.
      rewrite <- Hy'. f_equal. lia. }
    exists (y :: ys). cbn [map_indexed]. rewrite Hy. cbn [bind]. rewrite Hmap.
    split; [reflexivity |]. split; [cbn [length]; rewrite Hlen; reflexivity |].
    intros [| k] x' Hk.
    + injection Hk as <-. exists y. rewrite Z.add_0_r. split; [exact Hy | reflexivity].
    + destruct (Hys k x' Hk) as (y' & Hy' & Hlookup). exists y'.
      split; [rewrite <- Hy'; f_equal; lia | exact Hlookup].
Qed.

Lemma map_indexed_throw {A B : Type} (f : Z -> A -> Completion B) (xs : list A) (e : JsError) :
  forall idx : Z,
    map_indexed f idx xs = Throw e
    <-> exists (k : nat) (x : A),
          xs !! k = Some x
          /\ f (idx + Z.of_nat k) x = Throw e
          /\ (forall (j : nat) (x' : A), (j < k)%nat -> xs !! j = Some x' ->
                exists y : B, f (idx + Z.of_nat j) x' = Normal y).
Proof.
  induction xs as [| x xs IH]; intros idx.
  - split; [discriminate |]. intros (k & x & Hk & _). discriminate Hk.
  - cbn [map_indexed]. split.
    + destruct (f idx x) as [y | e'] eqn:Hx; cbn [bind].
      * destruct (map_indexed f (idx + 1) xs) as [ys | e''] eqn:Hrest; cbn [bind];
          [discriminate |].
        intros Heq. injection Heq as ->.
        apply IH in Hrest as (k & x' & Hk & Hthrow & Hbefore).
        exists (S k), x'. split; [exact Hk |].
        split; [rewrite <- Hthrow; f_equal; lia |].
        intros [| j] x'' Hj Hlookup.
        -- injection Hlookup as <-. exists y. rewrite Z.add_0_r. exact Hx.
        -- destruct (Hbefore j x'' ltac:(lia) Hlookup) as [y' Hy']. exists y'.
           rewrite <- Hy'. f_equal. lia.
      * intros Heq. injection Heq as ->. exists 0%nat, x.
        split; [reflexivity |]. split; [rewrite Z.add_0_r; exact Hx |].
        intros j x' Hj. lia.
    + intros ([| k] & x' & Hk & Hthrow & Hbefore).
      * injection Hk as <-. rewrite Z.add_0_r in Hthrow. rewrite Hthrow. reflexivity.
      * destruct (Hbefore 0%nat x ltac:(lia) eq_refl) as [y Hy].
        rewrite Z.add_0_r in Hy. rewrite Hy. cbn [bind].
        assert (Hrest : map_indexed f (idx + 1) xs = Throw e).
        { apply IH. exists k, x'. split; [exact Hk |].
          split; [rewrite <- Hthrow; f_equal; lia |].
          intros j x'' Hj Hlookup.
          destruct (Hbefore (S j) x'' ltac:(lia) Hlookup) as [y' Hy']. exists y'.
          rewrite <- Hy'. f_equal. lia. }
        rewrite Hrest. reflexivity.
Qed.

Lemma display_remocon_code_normal (index : Z) (ir_code : JsValue) (frame : Frame) :
  display_remocon_code index ir_code = Normal frame
  <-> exists rendering : list DescriptionsItem,
        display_ir_code ir_code = Normal rendering
        /\ frame = {| frame_key := "Frame# " +:+ Js.Number_toString (1 + index);
                      frame_title := "Frame# " +:+ Js.Number_toString (1 + index);
                      frame_items := rendering |}.
Proof.
  unfold display_remocon_code. cbv zeta.
  destruct (display_ir_code ir_code) as [rendering | e]; cbn [bind]; split.
  - intros Heq. injection Heq as <-. exists rendering. split; reflexivity.
  - intros (rendering' & Heq & ->). injection Heq as ->. reflexivity.
  - discriminate.
  - intros (rendering' & Heq & _). discriminate Heq.
Qed.

Lemma display_remocon_code_throw (index : Z) (ir_code : JsValue) (e : JsError) :
  display_remocon_code index ir_code = Throw e <-> display_ir_code ir_code = Throw e.
Proof.
  unfold display_remocon_code. cbv zeta.
  destruct (display_ir_code ir_code) as [rendering | e']; cbn [bind];
    split; intros Heq; first [discriminate Heq | injection Heq as ->; reflexivity].
Qed.

Lemma frame_number_inj (i j : nat) : frame_number i = frame_number j -> i = j.
Proof.
  unfold frame_number. intros Heq.
  apply append_inj_r, number_toString_inj in Heq. lia.
Qed.

Lemma display_ir_code_typed (c : InfraredRemoteControlCode) :
  exists rendering : list DescriptionsItem,
    display_ir_code (to_object c) = Normal rendering.
Proof. destruct c; eexists; reflexivity. Qed.

Lemma card_frames_gen (ir_control_codes : list JsValue) :
  (forall (k : nat) (ir_code : JsValue), ir_control_codes !! k = Some ir_code ->
     exists rendering : list DescriptionsItem, display_ir_code ir_code = Normal rendering) ->
  exists body : CardBody,
    IrControlCode ir_control_codes = Normal body
    /\ match body with
       | EmptyImage => ir_control_codes = []
       | Frames frames =>
           ir_control_codes <> []
           /\ length frames = length ir_control_codes
           /\ (forall (k : nat) (ir_code : JsValue),
                 ir_control_codes !! k = Some ir_code ->
                 exists rendering : list DescriptionsItem,
                   display_ir_code ir_code = Normal rendering
                   /\ frames !! k = Some {| frame_key := frame_number k;
                                            frame_title := frame_number k;
                                            frame_items := rendering |})
           /\ NoDup (map frame_key frames)
       end.
Proof.
  intros Hall. unfold IrControlCode.
  destruct ir_control_codes as [| first rest] eqn:Hcodes;
    [exists EmptyImage; split; reflexivity |].
  rewrite <- Hcodes in *. replace (length ir_control_codes =? 0)%nat with false
    by (rewrite Hcodes; reflexivity).
  destruct (map_indexed_normal (fun idx v => display_remocon_code idx v)
              ir_control_codes 0) as (frames & Hmap & Hlen & Hframes).
  { intros k ir_code Hk. destruct (Hall k ir_code Hk) as [rendering Hrendering].
    eexists. apply display_remocon_code_normal. exists rendering.
    split; [exact Hrendering | reflexivity]. }
  exists (Frames frames). rewrite Hmap. split; [reflexivity |].
  split; [rewrite Hcodes; discriminate |]. split; [exact Hlen |].
  assert (Hlookup : forall (k : nat) (ir_code : JsValue),
            ir_control_codes !! k = Some ir_code ->
            exists rendering : list DescriptionsItem,
              display_ir_code ir_code = Normal rendering
              /\ frames !! k = Some {| frame_key := frame_number k;
                                       frame_title := frame_number k;
                                       frame_items := rendering |}).
  { intros k ir_code Hk. destruct (Hframes k ir_code Hk) as (frame & Hframe & Hfk).
    apply display_remocon_code_normal in Hframe as (rendering & Hrendering & ->).
    exists rendering. split; [exact Hrendering | exact Hfk]. }
  split; [exact Hlookup |].
  assert (Hkey : forall (k : nat) (key : string),
            map frame_key frames !! k = Some key -> key = frame_number k).
  { intros k key Hk. rewrite list_lookup_fmap in Hk.
    destruct (frames !! k) as [frame |] eqn:Hfk; [| discriminate Hk].
    destruct (ir_control_codes !! k) as [ir_code |] eqn:Hck.
    - destruct (Hlookup k ir_code Hck) as (rendering & _ & Hfk').
      rewrite Hfk in Hfk'. injection Hfk' as ->. injection Hk as <-. reflexivity.
    - apply lookup_ge_None in Hck. apply lookup_lt_Some in Hfk. lia. }
  apply NoDup_alt. intros i j key Hi Hj.
  apply Hkey in Hi, Hj. apply frame_number_inj. congruence.
Qed.

(** The card of a list of objects whose codes all render: one frame per
    code, in the order of the codes; the frame at position [k] is titled
    and keyed "Frame# k+1" and holds the items of its code, so that no two
    frames of a card share a key.  An empty list gives the placeholder. *)
Theorem card_frames (ir_control_codes : list JsValue) :
  (forall (k : nat) (ir_code : JsValue), ir_control_codes !! k = Some ir_code ->
     exists rendering : list DescriptionsItem, display_ir_code ir_code = Normal rendering) ->
  exists body : CardBody,
    IrControlCode ir_control_codes = Normal body
    /\ match body with
       | EmptyImage => ir_control_codes = []
       | Frames frames =>
           ir_control_codes <> []
           /\ length frames = length ir_control_codes
           /\ (forall (k : nat) (ir_code : JsValue),
                 ir_control_codes !! k = Some ir_code ->
                 exists rendering : list DescriptionsItem,
                   display_ir_code ir_code = Normal rendering
                   /\ frames !! k = Some {| frame_key := frame_number k;
                                            frame_title := frame_number k;
                                            frame_items := rendering |})
           /\ NoDup (map frame_key frames)
       end.
Proof. apply card_frames_gen. Qed.

(** The codes of the decoder, as [InfraredRemoteControlCode] types them,
    always give a card. *)
Theorem card_of_typed_codes (codes : list InfraredRemoteControlCode) :
  IrControlCode (map to_object codes)
  = Normal match codes with
           | [] => EmptyImage
           | _ =>
               Frames (imap (fun k c =>
                 {| frame_key := frame_number k;
                    frame_title := frame_number k;
                    frame_items :=
                      match display_ir_code (to_object c) with
                      | Normal rendering => rendering
                      | Throw _ => []
                      end |}) codes)
           end.
Proof.
  destruct (card_frames_gen (map to_object codes)) as (body & Hbody & Hshape).
  { intros k ir_code Hk. rewrite list_lookup_fmap in Hk.
    destruct (codes !! k) as [c |]; [| discriminate Hk]. injection Hk as <-.
    apply display_ir_code_typed. }
  rewrite Hbody. f_equal. destruct body as [| frames].
  - destruct codes; [reflexivity | discriminate Hshape].
  - destruct Hshape as (Hne & Hlen & Hlookup & _).
    destruct codes as [| c0 codes0] eqn:Hcodes; [contradiction Hne; reflexivity |].
    rewrite <- Hcodes in *. f_equal. apply list_eq. intros k.
    rewrite list_lookup_imap.
    destruct (codes !! k) as [c |] eqn:Hk; cbn [fmap option_fmap option_map].
    + destruct (Hlookup k (to_object c)) as (rendering & Hrendering & Hfk).
      { rewrite list_lookup_fmap, Hk. reflexivity. }
      rewrite Hfk, Hrendering. reflexivity.
    + apply lookup_ge_None. apply lookup_ge_None in Hk.
      rewrite Hlen, length_map. exact Hk.
Qed.

(** One code that does not render takes the whole card down: the component
    throws exactly when some code of a non-empty list makes
    [display_ir_code] throw, and it throws what the first such code throws;
    no frame is shown for the codes before it. *)
Theorem card_throws (ir_control_codes : list JsValue) (e : JsError) :
  IrControlCode ir_control_codes = Throw e
  <-> exists (k : nat) (ir_code : JsValue),
        ir_control_codes !! k = Some ir_code
        /\ display_ir_code ir_code = Throw e
        /\ (forall (j : nat) (earlier : JsValue),
              (j < k)%nat -> ir_control_codes !! j = Some earlier ->
              exists rendering : list DescriptionsItem,
                display_ir_code earlier = Normal rendering).
Proof.
  unfold IrControlCode.
  destruct ir_control_codes as [| first rest] eqn:Hcodes.
  - split; [discriminate |]. intros (k & ir_code & Hk & _). discriminate Hk.
  - rewrite <- Hcodes. replace (length ir_control_codes =? 0)%nat with false
      by (rewrite Hcodes; reflexivity).
    destruct (map_indexed (fun idx v => display_remocon_code idx v) 0 ir_control_codes)
      as [frames | e'] eqn:Hmap; cbn [bind].
    + split; [discriminate |]. intros (k & ir_code & Hk & Hthrow & Hbefore).
      assert (Hfail : map_indexed (fun idx v => display_remocon_code idx v)
                        0 ir_control_codes = Throw e).
      { apply map_indexed_throw. exists k, ir_code. split; [exact Hk |].
        split; [apply display_remocon_code_throw; exact Hthrow |].
        intros j earlier Hj Hlookup.
        destruct (Hbefore j earlier Hj Hlookup) as [rendering Hrendering].
        eexists. apply display_remocon_code_normal. exists rendering.
        split; [exact Hrendering | reflexivity]. }
      congruence.
    + apply map_indexed_throw in Hmap as (k & ir_code & Hk & Hthrow & Hbefore).
      apply display_remocon_code_throw in Hthrow.
      assert (Hearlier : forall (j : nat) (earlier : JsValue),
                (j < k)%nat -> ir_control_codes !! j = Some earlier ->
                exists rendering : list DescriptionsItem,
                  display_ir_code earlier = Normal rendering).
      { intros j earlier Hj Hlookup.
        destruct (Hbefore j earlier Hj Hlookup) as [frame Hframe].
        apply display_remocon_code_normal in Hframe as (rendering & Hrendering & _).
        exists rendering. exact Hrendering. }
      split.
      * intros Heq. injection Heq as ->. exists k, ir_code. auto.
      * intros (k' & ir_code' & Hk' & Hthrow' & Hbefore').
        destruct (Nat.lt_trichotomy k k') as [Hlt | [-> | Hgt]].
        -- destruct (Hbefore' k ir_code Hlt Hk) as [rendering Hrendering]. congruence.
        -- congruence.
        -- destruct (Hearlier k' ir_code' Hgt Hk') as [rendering Hrendering]. congruence.
Qed.

End CardFacts.


Lemma card_frames_witness :
  let ir_control_codes :=
    [ IrControlCode.to_object (IrControlCode.Sirc "Volume Up" "TV");
      IrControlCode.to_object (IrControlCode.Unknown []) ] in
  exists body : IrControlCodeCard.CardBody,
    IrControlCodeCard.IrControlCode ir_control_codes = IrControlCode.Normal body
    /\ match body with
       | IrControlCodeCard.EmptyImage => ir_control_codes = []
       | IrControlCodeCard.Frames frames =>
           ir_control_codes <> []
           /\ length frames = length ir_control_codes
           /\ (forall (k : nat) (ir_code : IrControlCode.JsValue),
                 ir_control_codes !! k = Some ir_code ->
                 exists rendering : list IrControlCode.DescriptionsItem,
                   IrControlCode.display_ir_code ir_code = IrControlCode.Normal rendering
                   /\ frames !! k
                      = Some {| IrControlCodeCard.frame_key := IrControlCodeCard.frame_number k;
                                IrControlCodeCard.frame_title := IrControlCodeCard.frame_number k;
                                IrControlCodeCard.frame_items := rendering |})
           /\ NoDup (map IrControlCodeCard.frame_key frames)
       end.
Proof.
  cbv zeta.
  apply (card_frames
           [ IrControlCode.to_object (IrControlCode.Sirc "Volume Up" "TV");
             IrControlCode.to_object (IrControlCode.Unknown []) ]).
  intros [| [| k]] ir_code Hk; [| | discriminate Hk];
    injection Hk as <-; eexists; reflexivity.
Defined.


(** ** The second version of App *)

Section AppCombinedFacts.

Import App AppCombined.

Context {DecordedFrame ControlCode : Type}.
Variable wasm_parse_infrared_code : string -> Result (list MarkAndSpaceMicros).
Variable wasm_decord_receiving_data : list MarkAndSpaceMicros -> Result (list DecordedFrame).
Variable wasm_decord_ir_frames : list DecordedFrame -> Result (list ControlCode).

Abbreviation effects2 :=
  (effects wasm_parse_infrared_code wasm_decord_receiving_data wasm_decord_ir_frames).

Abbreviation settle2 :=
  (settle wasm_parse_infrared_code wasm_decord_receiving_data wasm_decord_ir_frames).

Abbreviation type_text2 :=
  (type_text wasm_parse_infrared_code wasm_decord_receiving_data wasm_decord_ir_frames).

Abbreviation session2 :=
  (session wasm_parse_infrared_code wasm_decord_receiving_data wasm_decord_ir_frames).

Abbreviation run2 :=
  (run wasm_parse_infrared_code wasm_decord_receiving_data wasm_decord_ir_frames).

Abbreviation due2 :=
  (due wasm_parse_infrared_code wasm_decord_receiving_data wasm_decord_ir_frames).

Abbreviation display_for2 :=
  (display_for wasm_parse_infrared_code wasm_decord_receiving_data wasm_decord_ir_frames).

Abbreviation State2 := (@State DecordedFrame ControlCode).

Lemma combined_settle_quiet (fuel : nat) (prev : option State2) (state : State2) (fresh : nat) :
  existsb fst (effects2 prev state) = false ->
  settle2 (S fuel) prev state fresh = Settled state fresh.
Proof. intros Hquiet. cbn [settle]. rewrite Hquiet. reflexivity. Qed.

Lemma combined_settle_round (fuel : nat) (prev : option State2) (state : State2)
    (fresh : nat) (calls : list SetState) :
  existsb fst (effects2 prev state) = true ->
  run_effects (effects2 prev state) state fresh = Some calls ->
  settle2 (S fuel) prev state fresh
  = settle2 fuel (Some state) (apply_setState calls state) (fresh + 3).
Proof. intros Hdue Hrun. cbn [settle]. rewrite Hdue, Hrun. reflexivity. Qed.

Lemma combined_settle_crash (fuel : nat) (prev : option State2) (state : State2)
    (fresh : nat) :
  existsb fst (effects2 prev state) = true ->
  run_effects (effects2 prev state) state fresh = None ->
  settle2 (S fuel) prev state fresh = Crashed.
Proof. intros Hdue Hrun. cbn [settle]. rewrite Hdue, Hrun. reflexivity. Qed.

Ltac projections2 :=
  cbn [existsb fst input_text ir_mark_and_spaces ir_decoded_frames ir_control_codes
         msb_first ref elems display_of shown_text shown_pairs shown_frames shown_codes
         with_input_text with_alert with_ir_mark_and_spaces
         with_ir_decoded_frames with_ir_control_codes
         apply_setState fold_left app].

Ltac projections2_in H :=
  cbn [existsb fst input_text ir_mark_and_spaces ir_decoded_frames ir_control_codes
         msb_first ref elems display_of shown_text shown_pairs shown_frames shown_codes
         with_input_text with_alert with_ir_mark_and_spaces
         with_ir_decoded_frames with_ir_control_codes
         apply_setState fold_left app] in H.

Ltac changed2 :=
  repeat match goal with
    | |- context [Nat.eqb ?a ?b] =>
        replace (Nat.eqb a b) with false by (symmetry; apply Nat.eqb_neq; lia)
    end.

Ltac dependencies2 :=
  unfold effects; projections2;
  rewrite ?Nat.eqb_refl, ?String.eqb_refl;
  repeat match goal with
    | H : input_text _ = input_text _ |- _ => rewrite H, String.eqb_refl; clear H
    | H : ref _ = ref _ |- _ => rewrite H, ?Nat.eqb_refl; clear H
    end;
  rewrite ?Nat.eqb_refl, ?String.eqb_refl;
  changed2; cbn [negb orb run_effects].

(** The last effect: the decoded frames changed, nothing else did. *)
Lemma combined_cascade_frames (fuel : nat) (prev state : State2) (fresh : nat) :
  input_text prev = input_text state ->
  ref (ir_mark_and_spaces prev) = ref (ir_mark_and_spaces state) ->
  ref (ir_decoded_frames prev) <> ref (ir_decoded_frames state) ->
  ends_with (settle2 (S (S fuel)) (Some prev) state fresh)
    (match caught wasm_decord_ir_frames (elems (ir_decoded_frames state)) with
     | None => None
     | Some codes =>
         Some {| shown_text := input_text state;
                 shown_pairs := elems (ir_mark_and_spaces state);
                 shown_frames := elems (ir_decoded_frames state);
                 shown_codes := codes |}
     end).
Proof.
  intros Htext Hpairs Hframes.
  assert (Hdue : existsb fst (effects2 (Some prev) state) = true)
    by (dependencies2; reflexivity).
  unfold caught.
  destruct (elems (ir_decoded_frames state)) as [| frame frames] eqn:Helems.
  - erewrite combined_settle_round; [| exact Hdue |].
    2: { dependencies2. unfold effect_ir_decoded_frames. rewrite Helems. reflexivity. }
    rewrite combined_settle_quiet by (dependencies2; reflexivity).
    eexists _, _. split; [reflexivity |]. unfold display_of. projections2.
    rewrite Helems. reflexivity.
  - destruct (wasm_decord_ir_frames (frame :: frames)) as [codes | [msg |]] eqn:Hphase.
    + erewrite combined_settle_round; [| exact Hdue |].
      2: { dependencies2. unfold effect_ir_decoded_frames. rewrite Helems, Hphase.
           reflexivity. }
      rewrite combined_settle_quiet by (dependencies2; reflexivity).
      eexists _, _. split; [reflexivity |]. unfold display_of. projections2.
      rewrite Helems. reflexivity.
    + erewrite combined_settle_round; [| exact Hdue |].
      2: { dependencies2. unfold effect_ir_decoded_frames. rewrite Helems, Hphase.
           reflexivity. }
      rewrite combined_settle_quiet by (dependencies2; reflexivity).
      eexists _, _. split; [reflexivity |]. unfold display_of. projections2.
      rewrite Helems. reflexivity.
    + apply combined_settle_crash; [exact Hdue |].
      dependencies2. unfold effect_ir_decoded_frames. rewrite Helems, Hphase.
      reflexivity.
Qed.

Ltac next_frames fuel :=
  match goal with
  | |- ends_with (settle2 _ (Some ?p) ?s ?f) _ =>
      let Hnext := fresh "Hnext" in
      pose proof (combined_cascade_frames fuel p s f) as Hnext;
      projections2; projections2_in Hnext;
      apply Hnext; [reflexivity | reflexivity | lia]
  end.

(** The effect before it: the parsed pairs changed. *)
Lemma combined_cascade_pairs (fuel : nat) (prev state : State2) (fresh : nat) :
  input_text prev = input_text state ->
  ref (ir_mark_and_spaces prev) <> ref (ir_mark_and_spaces state) ->
  ref (ir_decoded_frames prev) = ref (ir_decoded_frames state) ->
  older_than fresh state ->
  ends_with (settle2 (S (S (S fuel))) (Some prev) state fresh)
    (display_from wasm_decord_receiving_data wasm_decord_ir_frames
       (input_text state) (elems (ir_mark_and_spaces state))).
Proof.
  intros Htext Hpairs Hframes Hold.
  assert (Hold' := Hold). destruct Hold' as (? & ? & ?).
  assert (Hdue : existsb fst (effects2 (Some prev) state) = true)
    by (dependencies2; reflexivity).
  unfold display_from, decoded. unfold caught at 1.
  destruct (elems (ir_mark_and_spaces state)) as [| pair pairs] eqn:Helems.
  - erewrite combined_settle_round; [| exact Hdue |].
    2: { dependencies2. unfold effect_ir_mark_and_spaces. rewrite Helems. reflexivity. }
    rewrite <- Helems. next_frames fuel.
  - destruct (wasm_decord_receiving_data (pair :: pairs)) as [frames | [msg |]] eqn:Hphase.
    + erewrite combined_settle_round; [| exact Hdue |].
      2: { dependencies2. unfold effect_ir_mark_and_spaces. rewrite Helems, Hphase.
           reflexivity. }
      rewrite <- Helems. next_frames fuel.
    + erewrite combined_settle_round; [| exact Hdue |].
      2: { dependencies2. unfold effect_ir_mark_and_spaces. rewrite Helems, Hphase.
           reflexivity. }
      rewrite <- Helems. next_frames fuel.
    + apply combined_settle_crash; [exact Hdue |].
      dependencies2. unfold effect_ir_mark_and_spaces. rewrite Helems, Hphase.
      reflexivity.
Qed.

Lemma string_length_nonempty (text : string) :
  text <> "" -> (String.length text =? 0)%nat = false.
Proof. destruct text; [intros H; contradiction H; reflexivity | reflexivity]. Qed.

(** A new text that is not empty: the first effect parses it, and the two
    later effects follow. *)
Lemma combined_type_text_new (state : State2) (fresh : nat) (text : string) :
  text <> "" -> input_text state <> text -> older_than fresh state ->
  ends_with (type_text2 state fresh text) (display_for2 text).
Proof.
  intros Htext Hnew Hold.
  assert (Hold' := Hold). destruct Hold' as (? & ? & ?).
  assert (Hlength := string_length_nonempty text Htext).
  apply String.eqb_neq in Htext, Hnew.
  unfold type_text, handleParse, rounds, display_for, parsed. rewrite Htext.
  cbn [negb apply_setState fold_left].
  assert (Hdue : existsb fst (effects2 (Some state) (with_input_text text state)) = true).
  { unfold effects. projections2. rewrite Hnew. reflexivity. }
  destruct (wasm_parse_infrared_code text) as [pairs | [msg |]] eqn:Hparse.
  - erewrite combined_settle_round; [| exact Hdue |].
    2: { unfold effects. projections2. rewrite !Nat.eqb_refl, Hnew.
         cbn [negb run_effects]. unfold effect_input_text. projections2.
         rewrite Hlength, Hparse. reflexivity. }
    match goal with
    | |- ends_with (settle2 _ (Some ?p) ?s ?f) _ =>
        pose proof (combined_cascade_pairs 2 p s f) as Hnext
    end.
    projections2. projections2_in Hnext.
    apply Hnext; [reflexivity | lia | reflexivity |].
    unfold older_than. projections2. lia.
  - erewrite combined_settle_round; [| exact Hdue |].
    2: { unfold effects. projections2. rewrite !Nat.eqb_refl, Hnew.
         cbn [negb run_effects]. unfold effect_input_text. projections2.
         rewrite Hlength, Hparse. reflexivity. }
    match goal with
    | |- ends_with (settle2 _ (Some ?p) ?s ?f) _ =>
        pose proof (combined_cascade_pairs 2 p s f) as Hnext
    end.
    projections2. projections2_in Hnext.
    apply Hnext; [reflexivity | lia | reflexivity |].
    unfold older_than. projections2. lia.
  - apply combined_settle_crash; [exact Hdue |].
    unfold effects. projections2. rewrite !Nat.eqb_refl, Hnew.
    cbn [negb run_effects]. unfold effect_input_text. projections2.
    rewrite Hlength, Hparse. reflexivity.
Qed.

(** One render of a state with nothing in it: the due effects only replace
    arrays by new empty ones, and an effect is due in the next render when
    the one before it was due in this one. *)
Lemma combined_blank_round (fuel : nat) (prev : option State2) (state : State2)
    (fresh : nat) (b1 b2 b3 : bool) :
  due2 prev state = [b1; b2; b3] -> blank state -> older_than fresh state ->
  exists state' : State2,
    blank state'
    /\ older_than (fresh + 3) state'
    /\ due2 (Some state) state' = [false; b1; b2]
    /\ settle2 (S fuel) prev state fresh
       = if b1 || b2 || b3 then settle2 fuel (Some state) state' (fresh + 3)
         else Settled state fresh.
Proof.
  intros Hdue (Htext & Hpairs & Hframes & Hcodes) (Hold1 & Hold2 & Hold3).
  set (state' :=
         apply_setState
           ((if b1 then [SetUpdater (fun st : State2 =>
                           with_ir_mark_and_spaces {| ref := fresh; elems := [] |} st)]
             else [])
            ++ (if b2 then [SetUpdater (fun st : State2 =>
                              with_ir_decoded_frames {| ref := S fresh; elems := [] |} st)]
                else [])
            ++ (if b3 then [SetUpdater (fun st : State2 =>
                              with_ir_control_codes {| ref := S (S fresh); elems := [] |} st)]
                else []))
           state).
  exists state'.
  assert (Hsettle : settle2 (S fuel) prev state fresh
                    = if b1 || b2 || b3 then settle2 fuel (Some state) state' (fresh + 3)
                      else Settled state fresh).
  { cbn [settle]. unfold due in Hdue.
    destruct (effects2 prev state) as [| [d1 e1] [| [d2 e2] [| [d3 e3] [| ? ?]]]] eqn:Heffects;
      try discriminate Hdue.
    cbn [map fst] in Hdue. injection Hdue as -> -> ->.
    unfold effects in Heffects. injection Heffects as _ <- _ <- _ <-.
    cbn [existsb fst orb run_effects].
    unfold effect_input_text, effect_ir_mark_and_spaces, effect_ir_decoded_frames.
    rewrite Htext, Hpairs, Hframes. cbn [String.length length Nat.eqb negb].
    subst state'. destruct b1, b2, b3; reflexivity. }
  split; [| split; [| split; [| exact Hsettle]]].
  - subst state'. unfold blank. destruct b1, b2, b3; projections2; auto.
  - subst state'. unfold older_than. destruct b1, b2, b3; projections2; lia.
  - subst state'. unfold due, effects. cbn [map fst].
    destruct b1, b2, b3; projections2;
      rewrite ?Nat.eqb_refl, ?String.eqb_refl; changed2; reflexivity.
Qed.

(** A state with nothing in it settles within four renders, whatever the
    render before it was, with nothing in it. *)
Lemma combined_blank_settles (fuel : nat) (prev : option State2) (state : State2)
    (fresh : nat) :
  blank state -> older_than fresh state ->
  exists (state' : State2) (fresh' : nat),
    settle2 (S (S (S (S fuel)))) prev state fresh = Settled state' fresh'
    /\ blank state' /\ older_than fresh' state' /\ (fresh <= fresh')%nat.
Proof.
  intros Hblank Hold.
  assert (Hflags : exists b1 b2 b3 : bool, due2 prev state = [b1; b2; b3])
    by (unfold due, effects; cbn [map fst]; eexists _, _, _; reflexivity).
  destruct Hflags as (b1 & b2 & b3 & Hdue).
  destruct (combined_blank_round (S (S (S fuel))) prev state fresh b1 b2 b3
              Hdue Hblank Hold) as (s1 & Hblank1 & Hold1 & Hdue1 & Hround1).
  destruct (combined_blank_round (S (S fuel)) (Some state) s1 (fresh + 3) false b1 b2
              Hdue1 Hblank1 Hold1) as (s2 & Hblank2 & Hold2 & Hdue2 & Hround2).
  destruct (combined_blank_round (S fuel) (Some s1) s2 (fresh + 3 + 3) false false b1
              Hdue2 Hblank2 Hold2) as (s3 & Hblank3 & Hold3 & Hdue3 & Hround3).
  destruct (combined_blank_round fuel (Some s2) s3 (fresh + 3 + 3 + 3) false false false
              Hdue3 Hblank3 Hold3) as (s4 & _ & _ & _ & Hround4).
  rewrite Hround1.
  destruct b1; cbn [orb];
    [rewrite Hround2, Hround3, Hround4; cbn [orb];
     exists s3, (fresh + 3 + 3 + 3)%nat; (split; [reflexivity | split; [assumption | split; [assumption | lia]]]) |].
  destruct b2; cbn [orb];
    [rewrite Hround2, Hround3; cbn [orb];
     exists s2, (fresh + 3 + 3)%nat; (split; [reflexivity | split; [assumption | split; [assumption | lia]]]) |].
  destruct b3; cbn [orb];
    [rewrite Hround2; cbn [orb];
     exists s1, (fresh + 3)%nat; (split; [reflexivity | split; [assumption | split; [assumption | lia]]]) |].
  exists state, fresh. split; [reflexivity | split; [assumption | split; [assumption | lia]]].
Qed.

Lemma combined_blank_display (state : State2) :
  blank state -> display_of state = blank_display.
Proof.
  intros (Htext & Hpairs & Hframes & Hcodes). unfold display_of, blank_display.
  rewrite Htext, Hpairs, Hframes, Hcodes. reflexivity.
Qed.

(** The empty text, like the Reset button, clears the display. *)
Lemma combined_type_text_empty (state : State2) (fresh : nat) :
  (first_fresh <= fresh)%nat ->
  ends_with (type_text2 state fresh "") (display_for2 "")
  /\ type_text2 state fresh ""
     = press_reset wasm_parse_infrared_code wasm_decord_receiving_data
         wasm_decord_ir_frames state fresh.
Proof.
  intros Hfresh. split; [| reflexivity].
  unfold type_text, handleParse, handleReset, rounds, display_for.
  cbn [String.eqb negb apply_setState fold_left ends_with].
  destruct (combined_blank_settles 2 (Some state) initState fresh)
    as (state' & fresh' & Hsettle & Hblank & _ & _).
  - unfold blank. cbn. auto.
  - unfold older_than, first_fresh in *. cbn. lia.
  - exists state', fresh'. split; [exact Hsettle | apply combined_blank_display, Hblank].
Qed.

(** Every array an effect creates is the object it was given as fresh, so
    the references of the state stay below the next fresh one. *)
Lemma combined_effects_allocate_fresh (prev : option State2) (state : State2) :
  Forall (fun e => allocates_fresh (snd e)) (effects2 prev state).
Proof.
  unfold effects.
  repeat match goal with |- Forall _ _ => constructor end;
    unfold allocates_fresh; cbn [snd]; intros s f calls Hcalls bound st Hf Hb Hold;
    destruct Hold as (? & ? & ?); unfold first_fresh in Hb.
  - unfold effect_input_text in Hcalls.
    destruct (negb _).
    + destruct (wasm_parse_infrared_code (input_text s)) as [pairs | [msg |]];
        [| | discriminate]; injection Hcalls as <-;
        unfold older_than; projections2; lia.
    + injection Hcalls as <-. unfold older_than. projections2. lia.
  - unfold effect_ir_mark_and_spaces in Hcalls.
    destruct (negb _).
    + destruct (wasm_decord_receiving_data _) as [out | [msg |]];
        [| | discriminate]; injection Hcalls as <-;
        unfold older_than; projections2; lia.
    + injection Hcalls as <-. unfold older_than. projections2. lia.
  - unfold effect_ir_decoded_frames in Hcalls.
    destruct (negb _).
    + destruct (wasm_decord_ir_frames _) as [out | [msg |]];
        [| | discriminate]; injection Hcalls as <-;
        unfold older_than; projections2; lia.
    + injection Hcalls as <-. unfold older_than. projections2. lia.
Qed.

Lemma combined_apply_setState_app
    (calls more : list (@SetState DecordedFrame ControlCode)) (st : State2) :
  apply_setState (calls ++ more) st = apply_setState more (apply_setState calls st).
Proof. unfold apply_setState. apply fold_left_app. Qed.

Lemma combined_run_effects_older
    (effs : list (bool * @Effect DecordedFrame ControlCode)) :
  Forall (fun e => allocates_fresh (snd e)) effs ->
  forall (state : State2) (fresh : nat) (calls : list SetState) (bound : nat) (st : State2),
    run_effects effs state fresh = Some calls ->
    (fresh + length effs <= bound)%nat -> (first_fresh <= bound)%nat ->
    older_than bound st -> older_than bound (apply_setState calls st).
Proof.
  induction 1 as [| [due effect] effs Heffect _ IH];
    intros state fresh calls bound st Hrun Hfresh Hbound Hold.
  - injection Hrun as <-. exact Hold.
  - cbn [run_effects] in Hrun. cbn [length] in Hfresh. destruct due.
    + destruct (effect state fresh) as [first |] eqn:Hfirst; [| discriminate].
      destruct (run_effects effs state (S fresh)) as [more |] eqn:Hmore; [| discriminate].
      injection Hrun as <-. rewrite combined_apply_setState_app.
      apply (IH state (S fresh) more); [assumption | lia | assumption |].
      apply (Heffect state fresh first Hfirst); [lia | assumption | assumption].
    + apply (IH state (S fresh) calls); [assumption | lia | assumption | assumption].
Qed.

(** The references of a settled state are below the fresh one it ends
    with, and the text of the input area is the one it started with. *)
Lemma combined_settle_older (fuel : nat) :
  forall (prev : option State2) (state : State2) (fresh : nat)
         (state' : State2) (fresh' : nat),
    (first_fresh <= fresh)%nat -> older_than fresh state ->
    settle2 fuel prev state fresh = Settled state' fresh' ->
    (first_fresh <= fresh')%nat /\ older_than fresh' state'.
Proof.
  induction fuel as [| fuel IH]; intros prev state fresh state' fresh' Hfresh Hold Hsettle;
    [discriminate |].
  cbn [settle] in Hsettle.
  destruct (existsb fst (effects2 prev state)).
  - destruct (run_effects (effects2 prev state) state fresh) as [calls |] eqn:Hrun;
      [| discriminate].
    assert (Hfresh' : (first_fresh <= fresh + 3)%nat) by lia.
    apply (IH (Some state) (apply_setState calls state) (fresh + 3)%nat state' fresh'
             Hfresh'); [| exact Hsettle].
    apply (combined_run_effects_older _ (combined_effects_allocate_fresh prev state)
             state fresh calls);
      [assumption | cbn [length effects]; lia | lia |].
    destruct Hold as (? & ? & ?). unfold older_than. repeat split; lia.
  - injection Hsettle as <- <-. split; assumption.
Qed.

(** What a display for a text shows in the input area is the text. *)
Lemma combined_display_for_text (text : string) (display : Display) :
  display_for2 text = Some display -> shown_text display = text.
Proof.
  unfold display_for, parsed, display_from, decoded.
  destruct (String.eqb text "") eqn:Htext.
  - apply String.eqb_eq in Htext. intros Heq. injection Heq as <-. symmetry. exact Htext.
  - destruct (wasm_parse_infrared_code text) as [pairs | [msg |]]; [| | discriminate];
      (destruct (caught wasm_decord_receiving_data _) as [frames |]; [| discriminate]);
      (destruct (caught wasm_decord_ir_frames frames) as [codes |]; [| discriminate]);
      intros Heq; injection Heq as <-; reflexivity.
Qed.

(** The text of the input area set again to what it is: no effect is due. *)
Lemma combined_type_text_same (state : State2) (fresh : nat) (text : string) :
  text <> "" -> input_text state = text ->
  type_text2 state fresh text = Settled (with_input_text text state) fresh.
Proof.
  intros Htext Hsame. apply String.eqb_neq in Htext.
  unfold type_text, handleParse, rounds. rewrite Htext.
  cbn [negb apply_setState fold_left].
  apply combined_settle_quiet. unfold effects. projections2.
  rewrite Hsame, !Nat.eqb_refl, String.eqb_refl. reflexivity.
Qed.

(** From a state whose display came from its text, a text leads to the
    display for this text. *)
Lemma combined_type_text_display (state : State2) (fresh : nat) (text : string) :
  consistent wasm_parse_infrared_code wasm_decord_receiving_data wasm_decord_ir_frames
    state fresh ->
  ends_with (type_text2 state fresh text) (display_for2 text).
Proof.
  intros (Hfresh & Hold & Hdisplay).
  destruct (String.eqb text "") eqn:Hempty.
  - apply String.eqb_eq in Hempty. subst text.
    apply combined_type_text_empty. exact Hfresh.
  - apply String.eqb_neq in Hempty.
    destruct (String.eqb (input_text state) text) eqn:Hsame.
    + apply String.eqb_eq in Hsame.
      rewrite (combined_type_text_same state fresh text Hempty Hsame).
      rewrite <- Hsame at 2. rewrite Hdisplay. cbn [ends_with].
      eexists _, _. split; [reflexivity |].
      unfold display_of. projections2. rewrite Hsame. reflexivity.
    + apply String.eqb_neq in Hsame.
      apply combined_type_text_new; assumption.
Qed.

Lemma combined_type_text_consistent (state : State2) (fresh : nat) (text : string)
    (state' : State2) (fresh' : nat) :
  consistent wasm_parse_infrared_code wasm_decord_receiving_data wasm_decord_ir_frames
    state fresh ->
  type_text2 state fresh text = Settled state' fresh' ->
  consistent wasm_parse_infrared_code wasm_decord_receiving_data wasm_decord_ir_frames
    state' fresh'.
Proof.
  intros Hconsistent Htyped.
  assert (Hends := combined_type_text_display state fresh text Hconsistent).
  destruct Hconsistent as (Hfresh & Hold & _).
  assert (Holder : (first_fresh <= fresh')%nat /\ older_than fresh' state').
  { apply (combined_settle_older rounds (Some state) (handleParse state text) fresh);
      [exact Hfresh | | exact Htyped].
    unfold handleParse, handleReset. destruct Hold as (? & ? & ?).
    destruct (negb (String.eqb text "")); unfold older_than, first_fresh in *;
      projections2; cbn; lia. }
  destruct Holder as [Hfresh' Hold'].
  split; [exact Hfresh' |]. split; [exact Hold' |].
  destruct (display_for2 text) as [display |] eqn:Hdisplay; cbn [ends_with] in Hends.
  - destruct Hends as (s & f & Hsettled & Hshown).
    rewrite Htyped in Hsettled. injection Hsettled as <- <-.
    assert (Htext : input_text state' = text).
    { apply combined_display_for_text in Hdisplay. rewrite <- Hshown in Hdisplay.
      exact Hdisplay. }
    rewrite Htext, Hdisplay, Hshown. reflexivity.
  - rewrite Htyped in Hends. discriminate Hends.
Qed.

Lemma combined_session_consistent (texts : list string) :
  forall (state : State2) (fresh : nat) (state' : State2) (fresh' : nat),
    consistent wasm_parse_infrared_code wasm_decord_receiving_data wasm_decord_ir_frames
      state fresh ->
    session2 state fresh texts = Settled state' fresh' ->
    consistent wasm_parse_infrared_code wasm_decord_receiving_data wasm_decord_ir_frames
      state' fresh'.
Proof.
  induction texts as [| text texts IH]; intros state fresh state' fresh' Hconsistent Hrun.
  - injection Hrun as <- <-. exact Hconsistent.
  - cbn [session] in Hrun.
    destruct (type_text2 state fresh text) as [state1 fresh1 | |] eqn:Htyped;
      try discriminate.
    apply (IH state1 fresh1 state' fresh'); [| exact Hrun].
    exact (combined_type_text_consistent state fresh text state1 fresh1 Hconsistent Htyped).
Qed.

(** The component settles when it is mounted, with nothing to show. *)
Lemma combined_mount_consistent :
  exists (state : State2) (fresh : nat),
    mount wasm_parse_infrared_code wasm_decord_receiving_data wasm_decord_ir_frames
    = Settled state fresh
    /\ consistent wasm_parse_infrared_code wasm_decord_receiving_data wasm_decord_ir_frames
         state fresh.
Proof.
  destruct (combined_blank_settles 2 None initState first_fresh)
    as (state & fresh & Hsettle & Hblank & Hold & Hfresh).
  - unfold blank. cbn. auto.
  - unfold older_than, first_fresh. cbn. lia.
  - exists state, fresh. split; [exact Hsettle |].
    split; [exact Hfresh |]. split; [exact Hold |].
    rewrite (combined_blank_display state Hblank).
    destruct Hblank as (-> & _). reflexivity.
Qed.

Lemma combined_run_consistent (texts : list string) (state : State2) (fresh : nat) :
  run2 texts = Settled state fresh ->
  consistent wasm_parse_infrared_code wasm_decord_receiving_data wasm_decord_ir_frames
    state fresh.
Proof.
  intros Hrun. unfold run in Hrun.
  destruct combined_mount_consistent as (state0 & fresh0 & Hmount & Hconsistent).
  rewrite Hmount in Hrun.
  exact (combined_session_consistent texts state0 fresh0 state fresh Hconsistent Hrun).
Qed.

(** In the second version of App, what is on display once the effects have
    settled depends on the text of the input area alone, whatever was typed
    before: the pairs the parser returns, what the two decoders make of
    them, each as its effect applies it, and nothing at all for the empty
    text.  A text the parser rejects with an [Error] clears the pairs, the
    frames and the control codes; the component crashes where the parser or
    a decoder throws a value that is not an [Error]. *)
Theorem combined_display_depends_on_text
    (before : list string) (state : State2) (fresh : nat) (text : string) :
  run2 before = Settled state fresh ->
  ends_with (type_text2 state fresh text) (display_for2 text).
Proof.
  intros Hrun. apply combined_type_text_display.
  exact (combined_run_consistent before state fresh Hrun).
Qed.

End AppCombinedFacts.


Lemma combined_display_depends_on_text_witness :
  AppCombined.ends_with
    (AppCombined.type_text App.demo_parse AppCombined.demo_decord_receiving_data
       AppCombined.demo_decord_ir_frames
       (AppCombined.demo_state ["9000,4500"]) (AppCombined.demo_fresh ["9000,4500"])
       "abc,123")
    (Some {| AppCombined.shown_text := "abc,123";
             AppCombined.shown_pairs := [];
             AppCombined.shown_frames := [];
             AppCombined.shown_codes := [] |}).
Proof.
  apply (combined_display_depends_on_text App.demo_parse
           AppCombined.demo_decord_receiving_data AppCombined.demo_decord_ir_frames
           ["9000,4500"] _ _ "abc,123").
  vm_compute. reflexivity.
Defined.


(** ** The bitstream as text *)

Section BitstreamFacts.

Import IrBitStream.

Lemma join_cons (x : Z) (xs : Uint8Array) :
  join (x :: xs) = Js.Number_toString x +:+ join xs.
Proof.
  unfold join. destruct xs as [| y ys]; cbn [map String.concat].
  - symmetry. apply string_append_empty_r.
  - reflexivity.
Qed.

Lemma join_bits (bits : Uint8Array) :
  Forall HexText.is_bit bits ->
  read_bits (join bits) = Some bits /\ String.length (join bits) = length bits.
Proof.
  induction 1 as [| bit bits Hbit _ [IHread IHlength]]; [split; reflexivity |].
  rewrite join_cons.
  destruct Hbit as [-> | ->].
  - change (Js.Number_toString 0 +:+ join bits) with (String "0" (join bits)).
    cbn [read_bits String.length length]. rewrite IHread, IHlength. split; reflexivity.
  - change (Js.Number_toString 1 +:+ join bits) with (String "1" (join bits)).
    cbn [read_bits String.length length]. rewrite IHread, IHlength. split; reflexivity.
Qed.

(** The bitstream is shown without loss: for a frame of bits, the text of
    the component has one character per bit, 0 or 1 in the order of the
    bitstream, so that it reads back as the bitstream and has as many
    characters as the label counts bits; the key of the item is this text. *)
Theorem bitstream_text_reads_back
    (ir_demodulated_frame : InfraredRemoteDemodulatedFrame) (index : Z) :
  Forall HexText.is_bit (bitstream_of ir_demodulated_frame) ->
  let shown := IrBitStream ir_demodulated_frame index in
  read_bits (text shown) = Some (bitstream_of ir_demodulated_frame)
  /\ label shown
     = "Bitstream " +:+ Js.Number_toString (Z.of_nat (String.length (text shown)))
       +:+ " bits(with stop bit)"
  /\ key shown = text shown.
Proof.
  intros Hbits shown. subst shown. unfold IrBitStream, display_bitstream.
  cbn [text label key].
  destruct (join_bits _ Hbits) as [Hread Hlength].
  rewrite Hread, Hlength. repeat split; reflexivity.
Qed.

End BitstreamFacts.

Lemma bitstream_text_reads_back_witness :
  let shown := IrBitStream.IrBitStream (IrBitStream.Sirc [1; 0; 1; 0; 1; 0; 0; 1; 0; 0; 0; 0]) 0 in
  IrBitStream.read_bits (IrBitStream.text shown) = Some [1; 0; 1; 0; 1; 0; 0; 1; 0; 0; 0; 0]
  /\ IrBitStream.label shown
     = "Bitstream "
       +:+ Js.Number_toString (Z.of_nat (String.length (IrBitStream.text shown)))
       +:+ " bits(with stop bit)"
  /\ IrBitStream.key shown = IrBitStream.text shown.
Proof.
  apply (bitstream_text_reads_back
           (IrBitStream.Sirc [1; 0; 1; 0; 1; 0; 0; 1; 0; 0; 0; 0]) 0).
  cbn [IrBitStream.bitstream_of].
  repeat (apply List.Forall_cons; [unfold HexText.is_bit; lia |]). apply List.Forall_nil.
Defined.

(** ** The column of the raw data *)

Section RawDataFacts.

Import RawDataColumn.

Lemma substring_whole (s : string) :
  forall m : nat, (String.length s <= m)%nat -> String.substring 0 m s = s.
Proof.
  induction s as [| c s IH]; intros m Hm.
  - destruct m; reflexivity.
  - destruct m as [| m]; [cbn [String.length] in Hm; lia |].
    cbn [String.substring]. rewrite IH; [reflexivity | cbn [String.length] in Hm; lia].
Qed.

Lemma substring_length (s : string) :
  forall m : nat, String.length (String.substring 0 m s) = Nat.min m (String.length s).
Proof.
  induction s as [| c s IH]; intros m.
  - destruct m; reflexivity.
  - destruct m as [| m]; [reflexivity |].
    cbn [String.substring String.length]. rewrite IH. reflexivity.
Qed.

Lemma string_length_append (s t : string) :
  String.length (s +:+ t) = (String.length s + String.length t)%nat.
Proof.
  induction s as [| c s IH]; [reflexivity |].
  change (String c s +:+ t) with (String c (s +:+ t)).
  cbn [String.length]. rewrite IH. reflexivity.
Qed.

(** The column shows a capture whole when its text has at most 200
    characters; a longer text is cut after 200 characters and marked with
    four dots, so that a cell never holds more than 205 characters. *)
Theorem render_crops (data : list Z) :
  let original := Array_toString data in
  (String.length (render data) <= 205)%nat
  /\ ((String.length original <= 200)%nat -> render data = original)
  /\ ((200 < String.length original)%nat ->
      render data = String.substring 0 200 original +:+ " ...."
      /\ String.length (render data) = 205%nat).
Proof.
  intros original. unfold render. fold original.
  generalize original. clear original data. intros original.
  cbv zeta. rewrite (substring_length original 200).
  assert (Hcropped := substring_length original 200).
  remember (String.substring 0 200 original) as cropped eqn:Hcrop.
  remember 200%nat as limit eqn:Hlimit.
  destruct (Nat.le_gt_cases (String.length original) limit) as [Hshort | Hlong].
  - rewrite Nat.min_r by exact Hshort. rewrite Nat.eqb_refl.
    split; [lia |]. split; [reflexivity | lia].
  - rewrite Nat.min_l by lia.
    replace (String.length original =? limit)%nat with false
      by (symmetry; apply Nat.eqb_neq; lia).
    rewrite Nat.min_l in Hcropped by lia.
    assert (Hlength : String.length (cropped +:+ " ....") = (limit + 5)%nat)
      by (rewrite string_length_append, Hcropped; reflexivity).
    split; [lia |]. split; [lia |]. intros _. split; [reflexivity | lia].
Qed.

End RawDataFacts.


(** ** The first version of App, cleared *)

Section AppResetFacts.

Import App AppReset.

Context {DemodulatedFrame DecordedFrame ControlCode : Type}.
Variable wasm_parse_infrared_code : string -> Result (list MarkAndSpaceMicros).
Variable wasm_decode_phase1 :
  list MarkAndSpaceMicros -> Result (list (list MarkAndSpaceMicros)).
Variable wasm_decode_phase2 : list MarkAndSpaceMicros -> Result DemodulatedFrame.
Variable wasm_decode_phase3 : DemodulatedFrame -> Result DecordedFrame.
Variable wasm_decode_phase4 : list DecordedFrame -> Result (list ControlCode).

Abbreviation State1 := (@App.State DemodulatedFrame DecordedFrame ControlCode).

Abbreviation effects1 :=
  (effects wasm_parse_infrared_code wasm_decode_phase1 wasm_decode_phase2
     wasm_decode_phase3 wasm_decode_phase4).

Abbreviation settle1 :=
  (settle wasm_parse_infrared_code wasm_decode_phase1 wasm_decode_phase2
     wasm_decode_phase3 wasm_decode_phase4).

Abbreviation due1 :=
  (due wasm_parse_infrared_code wasm_decode_phase1 wasm_decode_phase2
     wasm_decode_phase3 wasm_decode_phase4).

Ltac projections1 :=
  cbn [existsb fst input_text ir_mark_and_spaces ir_splitted_frames
         ir_demodulated_frames ir_decoded_frames ir_control_codes ref elems
         with_input_text with_alert with_ir_mark_and_spaces with_ir_splitted_frames
         with_ir_demodulated_frames with_ir_decoded_frames with_ir_control_codes
         apply_setState fold_left app initState].

Ltac changed1 :=
  repeat match goal with
    | |- context [Nat.eqb ?a ?b] =>
        replace (Nat.eqb a b) with false by (symmetry; apply Nat.eqb_neq; lia)
    end.

(** One render of a state with nothing in it: the first effect, where it
    is due, sets [initState] again, the later ones replace arrays by new
    empty ones, and a later effect is due in the next render when the one
    before it was due in this one. *)
Lemma reset_blank_round (fuel : nat) (prev : option State1) (state : State1)
    (fresh : nat) (b1 b2 b3 b4 b5 : bool) :
  due1 prev state = [b1; b2; b3; b4; b5] -> blank state -> older_than fresh state ->
  (b1 = true -> state = initState) ->
  exists state' : State1,
    blank state'
    /\ older_than (fresh + 5) state'
    /\ due1 (Some state) state' = [false; false; b2; b3; b4]
    /\ settle1 (S fuel) prev state fresh
       = if b1 || b2 || b3 || b4 || b5 then settle1 fuel (Some state) state' (fresh + 5)
         else Settled state fresh.
Proof.
  intros Hdue (Htext & Hpairs & Hframes & Hdemodulated & Hdecoded & Hcodes)
    (Hold1 & Hold2 & Hold3 & Hold4 & Hold5) Hinit.
  set (state' :=
         apply_setState
           ((if b1 then [SetValue initState] else [])
            ++ (if b2 then [SetUpdater (fun st : State1 =>
                              with_ir_splitted_frames {| ref := S fresh; elems := [] |} st)]
                else [])
            ++ (if b3 then [SetUpdater (fun st : State1 =>
                              with_ir_demodulated_frames
                                {| ref := S (S fresh); elems := [] |} st)]
                else [])
            ++ (if b4 then [SetUpdater (fun st : State1 =>
                              with_ir_decoded_frames
                                {| ref := S (S (S fresh)); elems := [] |} st)]
                else [])
            ++ (if b5 then [SetUpdater (fun st : State1 =>
                              with_ir_control_codes
                                {| ref := S (S (S (S fresh))); elems := [] |} st)]
                else []))
           state).
  exists state'.
  assert (Hsettle : settle1 (S fuel) prev state fresh
                    = if b1 || b2 || b3 || b4 || b5
                      then settle1 fuel (Some state) state' (fresh + 5)
                      else Settled state fresh).
  { cbn [settle]. unfold due in Hdue.
    destruct (effects1 prev state)
      as [| [d1 e1] [| [d2 e2] [| [d3 e3] [| [d4 e4] [| [d5 e5] [| ? ?]]]]]] eqn:Heffects;
      try discriminate Hdue.
    cbn [map fst] in Hdue. injection Hdue as -> -> -> -> ->.
    unfold effects in Heffects. injection Heffects as _ <- _ <- _ <- _ <- _ <-.
    cbn [existsb fst orb run_effects].
    unfold effect_input_text, effect_ir_mark_and_spaces, effect_ir_splitted_frames,
      effect_ir_demodulated_frames, effect_ir_decoded_frames.
    rewrite Htext, Hpairs, Hframes, Hdemodulated, Hdecoded. cbn [String.eqb].
    subst state'. destruct b1, b2, b3, b4, b5; reflexivity. }
  split; [| split; [| split; [| exact Hsettle]]].
  - subst state'. unfold blank.
    destruct b1, b2, b3, b4, b5; projections1; auto 10.
  - subst state'. unfold older_than.
    destruct b1; [rewrite (Hinit eq_refl) in *; cbn in Hold1, Hold2, Hold3, Hold4, Hold5 |];
      destruct b2, b3, b4, b5; projections1; lia.
  - subst state'. unfold due, effects. cbn [map fst].
    destruct b1; [rewrite (Hinit eq_refl) in *; cbn in Hold1, Hold2, Hold3, Hold4, Hold5 |];
      destruct b2, b3, b4, b5; projections1;
      rewrite ?Nat.eqb_refl, ?String.eqb_refl; changed1; reflexivity.
Qed.

(** Started from [initState], whatever the render before it was, the
    component settles within six renders with nothing in its state. *)
Lemma reset_settles (fuel : nat) (prev : option State1) (fresh : nat) :
  (first_fresh <= fresh)%nat ->
  ends_blank (settle1 (S (S (S (S (S (S fuel)))))) prev initState fresh).
Proof.
  intros Hfresh. unfold ends_blank.
  assert (Hblank : blank (initState : State1)) by (unfold blank; cbn; auto 10).
  assert (Hold : older_than fresh (initState : State1))
    by (unfold older_than, first_fresh in *; cbn; lia).
  assert (Hflags : exists b1 b2 b3 b4 b5 : bool, due1 prev initState = [b1; b2; b3; b4; b5])
    by (unfold due, effects; cbn [map fst]; eexists _, _, _, _, _; reflexivity).
  destruct Hflags as (b1 & b2 & b3 & b4 & b5 & Hdue).
  destruct (reset_blank_round (S (S (S (S (S fuel))))) prev initState fresh
              b1 b2 b3 b4 b5 Hdue Hblank Hold (fun _ => eq_refl))
    as (s1 & Hblank1 & Hold1 & Hdue1 & Hround1).
  destruct (reset_blank_round (S (S (S (S fuel)))) (Some initState) s1 (fresh + 5)
              false false b2 b3 b4 Hdue1 Hblank1 Hold1 ltac:(discriminate))
    as (s2 & Hblank2 & Hold2 & Hdue2 & Hround2).
  destruct (reset_blank_round (S (S (S fuel))) (Some s1) s2 (fresh + 5 + 5)
              false false false b2 b3 Hdue2 Hblank2 Hold2 ltac:(discriminate))
    as (s3 & Hblank3 & Hold3 & Hdue3 & Hround3).
  destruct (reset_blank_round (S (S fuel)) (Some s2) s3 (fresh + 5 + 5 + 5)
              false false false false b2 Hdue3 Hblank3 Hold3 ltac:(discriminate))
    as (s4 & Hblank4 & Hold4 & Hdue4 & Hround4).
  destruct (reset_blank_round (S fuel) (Some s3) s4 (fresh + 5 + 5 + 5 + 5)
              false false false false false Hdue4 Hblank4 Hold4 ltac:(discriminate))
    as (s5 & _ & _ & _ & Hround5).
  rewrite Hround1, Hround2, Hround3, Hround4, Hround5.
  destruct b1, b2, b3, b4, b5; cbn [orb];
    eexists _, _; (split; [reflexivity | assumption]).
Qed.

(** The first version of App is cleared by the Reset button, and by
    emptying the input area: in a running component both end, once the
    effects have settled, with no text and with every array of the state
    empty, whatever was on display before. *)
Theorem reset_clears
    (before : list string) (state : State1) (fresh : nat) :
  run wasm_parse_infrared_code wasm_decode_phase1 wasm_decode_phase2
    wasm_decode_phase3 wasm_decode_phase4 before = Settled state fresh ->
  ends_blank (press_reset wasm_parse_infrared_code wasm_decode_phase1 wasm_decode_phase2
                wasm_decode_phase3 wasm_decode_phase4 state fresh)
  /\ (input_text state <> "" ->
      ends_blank (type_text wasm_parse_infrared_code wasm_decode_phase1 wasm_decode_phase2
                    wasm_decode_phase3 wasm_decode_phase4 state fresh "")).
Proof.
  intros Hrun.
  assert (Hfresh : (first_fresh <= fresh)%nat).
  { unfold run in Hrun.
    destruct (mount_settled wasm_parse_infrared_code wasm_decode_phase1
                wasm_decode_phase2 wasm_decode_phase3 wasm_decode_phase4)
      as (state0 & fresh0 & Hmount & _ & _ & Hfresh0 & Hold0).
    rewrite Hmount in Hrun.
    apply session_older in Hrun as [Hfresh _]; assumption. }
  split.
  - unfold press_reset, handleReset, rounds. cbn [apply_setState fold_left].
    apply (reset_settles 2). exact Hfresh.
  - intros Htext. apply String.eqb_neq in Htext.
    unfold type_text, handleParse, rounds. cbn [apply_setState fold_left].
    erewrite settle_round; cycle 1.
    + unfold effects. projections1. rewrite Htext. reflexivity.
    + unfold effects. projections1. rewrite !Nat.eqb_refl, Htext.
      cbn [negb run_effects]. unfold effect_input_text. projections1. reflexivity.
    + cbn [apply_setState fold_left]. apply (reset_settles 1).
      unfold first_fresh in *. lia.
Qed.

End AppResetFacts.


Lemma reset_clears_witness :
  let state := App.demo_state ["9000,4500"] in
  let fresh := App.demo_fresh ["9000,4500"] in
  AppReset.ends_blank
    (AppReset.press_reset App.demo_parse App.demo_phase1 App.demo_phase2 App.demo_phase3
       App.demo_phase4 state fresh)
  /\ (App.input_text state <> "" ->
      AppReset.ends_blank
        (App.type_text App.demo_parse App.demo_phase1 App.demo_phase2 App.demo_phase3
           App.demo_phase4 state fresh "")).
Proof.
  cbv zeta.
  apply (reset_clears App.demo_parse App.demo_phase1 App.demo_phase2 App.demo_phase3
           App.demo_phase4 ["9000,4500"]).
  vm_compute. reflexivity.
Defined.


(** ** The notification of received codes *)

Section AnalyzerFacts.

Import IrControlCode InfraredRemoteAnalyzer.

Context {Rest : Type}.
Variable init_rest : Rest.

Abbreviation Page' := (@Page Rest).

(** Where the confirmed length is not above the number of records, the
    effect settles: it confirms all records, opens one message when there
    is a record that was not confirmed, and pastes the first such record
    when the automatic paste is on. *)
Lemma analyzer_settle (fuel : nat) (page : Page') :
  (confirmed_rx_json_data_length (state page) <= length (rxJsonData page))%nat ->
  exists page' : Page',
    settle (S (S fuel)) page = Settled page'
    /\ rxJsonData page' = rxJsonData page
    /\ confirmed_rx_json_data_length (state page') = length (rxJsonData page)
    /\ rest (state page') = rest (state page)
    /\ automatically_paste (state page') = automatically_paste (state page)
    /\ messages page'
       = messages page
         ++ (if (length (rxJsonData page) =? confirmed_rx_json_data_length (state page))%nat
             then []
             else [arrival (confirmed_rx_json_data_length (state page))])
    /\ input_text (state page')
       = match rxJsonData page !! confirmed_rx_json_data_length (state page) with
         | Some record =>
             if automatically_paste (state page) then JSON_stringify (rawData record)
             else input_text (state page)
         | None => input_text (state page)
         end.
Proof.
  destruct page as [rx [other text confirmed paste] msgs].
  cbn [state rxJsonData messages confirmed_rx_json_data_length automatically_paste
         input_text rest].
  intros Hconfirmed.
  destruct (length rx =? confirmed)%nat eqn:Hsame.
  - apply Nat.eqb_eq in Hsame.
    assert (Hnone : rx !! confirmed = None) by (apply lookup_ge_None; lia).
    eexists. split.
    + cbn [settle]. unfold effect_rxJsonData.
      cbn [state rxJsonData messages confirmed_rx_json_data_length].
      replace (length rx =? confirmed)%nat with true by (symmetry; apply Nat.eqb_eq; lia).
      cbn [negb]. reflexivity.
    + cbn [state rxJsonData messages confirmed_rx_json_data_length automatically_paste
             input_text rest apply_setState fold_left].
      rewrite Hnone. repeat split; auto.
  - apply Nat.eqb_neq in Hsame.
    destruct (lookup_lt_is_Some_2 rx confirmed ltac:(lia)) as [record Hrecord].
    destruct paste.
    + eexists. split.
      * cbn [settle]. unfold effect_rxJsonData.
        cbn [state rxJsonData messages confirmed_rx_json_data_length automatically_paste
               apply_setState fold_left with_confirmed_rx_json_data_length with_input_text
               input_text rest].
        replace (length rx =? confirmed)%nat with false by (symmetry; apply Nat.eqb_neq; lia).
        cbn [negb]. rewrite Hrecord.
        cbn [state rxJsonData messages confirmed_rx_json_data_length automatically_paste
               apply_setState fold_left with_confirmed_rx_json_data_length with_input_text
               input_text rest].
        rewrite Nat.eqb_refl. cbn [negb]. reflexivity.
      * cbn [state rxJsonData messages confirmed_rx_json_data_length automatically_paste
               input_text rest apply_setState fold_left].
        rewrite Hrecord, app_nil_r. repeat split; auto.
    + eexists. split.
      * cbn [settle]. unfold effect_rxJsonData.
        cbn [state rxJsonData messages confirmed_rx_json_data_length automatically_paste
               apply_setState fold_left with_confirmed_rx_json_data_length with_input_text
               input_text rest].
        replace (length rx =? confirmed)%nat with false by (symmetry; apply Nat.eqb_neq; lia).
        cbn [negb].
        cbn [state rxJsonData messages confirmed_rx_json_data_length automatically_paste
               apply_setState fold_left with_confirmed_rx_json_data_length with_input_text
               input_text rest].
        rewrite Nat.eqb_refl. cbn [negb]. reflexivity.
      * cbn [state rxJsonData messages confirmed_rx_json_data_length automatically_paste
               input_text rest apply_setState fold_left].
        rewrite Hrecord, app_nil_r. repeat split; auto.
Qed.

(** No handler sets the confirmed length above the number of records. *)
Lemma analyzer_handle_confirmed (event : Event) (page : Page') :
  confirmed_rx_json_data_length (state page) = length (rxJsonData page) ->
  (confirmed_rx_json_data_length (state (handle init_rest event page))
   <= length (rxJsonData (handle init_rest event page)))%nat.
Proof.
  intros Hconfirmed.
  destruct event as [record | | text | checked | record | update];
    cbn [handle state rxJsonData handleReset apply_setState fold_left initState
           confirmed_rx_json_data_length with_automatically_paste with_input_text
           with_rest];
    try lia.
  - rewrite length_app. cbn [length]. lia.
  - unfold handleParse, handleReset. destruct (negb (String.eqb text ""));
      cbn [apply_setState fold_left initState confirmed_rx_json_data_length
             with_input_text]; lia.
Qed.

Lemma analyzer_session (events : list Event) :
  forall page : Page',
    confirmed_rx_json_data_length (state page) = length (rxJsonData page) ->
    exists page' : Page',
      session init_rest page events = Settled page'
      /\ confirmed_rx_json_data_length (state page') = length (rxJsonData page').
Proof.
  induction events as [| event later IH]; intros page Hconfirmed.
  - exists page. split; [reflexivity | exact Hconfirmed].
  - cbn [session].
    destruct (analyzer_settle 2 (handle init_rest event page)
                (analyzer_handle_confirmed event page Hconfirmed))
      as (page1 & Hsettle & Hrx & Hconfirmed1 & _).
    unfold rounds. rewrite Hsettle. apply IH. rewrite Hconfirmed1, Hrx. reflexivity.
Qed.

Lemma analyzer_mount (received : list RxJsonSchema) :
  exists page : Page',
    mount init_rest received = Settled page
    /\ confirmed_rx_json_data_length (state page) = length (rxJsonData page).
Proof.
  unfold mount, rounds.
  destruct (analyzer_settle 2 {| rxJsonData := received; state := initState init_rest;
                                 messages := [] |})
    as (page & Hsettle & Hrx & Hconfirmed & _).
  - cbn. lia.
  - exists page. split; [exact Hsettle |]. rewrite Hconfirmed, Hrx. reflexivity.
Qed.

Lemma analyzer_run (received : list RxJsonSchema) (events : list Event) :
  exists page : Page',
    run init_rest received events = Settled page
    /\ confirmed_rx_json_data_length (state page) = length (rxJsonData page).
Proof.
  unfold run. destruct (analyzer_mount received) as (page & Hmount & Hconfirmed).
  rewrite Hmount. apply analyzer_session. exact Hconfirmed.
Qed.

(** Whatever happens to the page, in whatever order, the notification
    effect settles without throwing: it never reads a record that has not
    arrived, and after every event all received records are confirmed. *)
Theorem analyzer_confirms_received (received : list RxJsonSchema) (events : list Event) :
  exists page : Page',
    run init_rest received events = Settled page
    /\ confirmed_rx_json_data_length (state page) = length (rxJsonData page).
Proof. apply analyzer_run. Qed.



End AnalyzerFacts.

